(** * Short-range block synchronisation of the Harmony downloader

    A shallow embedding of the Go sources
    - [p2p/stream/types/stream.go] (length-prefixed framing of a stream), and
    - the short-range sync helper of package [downloader]
      (hash-vote tally, longest hash chain, block-fetch manager,
      orchestration of one cycle),
    together with the properties their specification states about them.

    Conventions of the embedding.
    - Go's [int] is the 64-bit two's-complement integer of the amd64 port; it
      is a [Z], and arithmetic that can leave the range is written with
      [int_wrap].  [len] of a slice or a map is [Z.of_nat (length _)] or
      [Z.of_nat (size _)].
    - A Go map is a [gmap]; a map used as a set ([map[K]struct{}]) is a [gset].
      The order in which [range] visits a map is not fixed by Go: every
      [range] loop receives its visiting order from an oracle that is only
      known to enumerate the map.
    - A [nil] pointer and a [nil] error are [None].  A [nil] slice is the
      empty list wherever the code only takes its length or ranges over it.
    - A method that runs under the receiver's mutex is one atomic state
      transformer. *)

From Stdlib Require Import ZArith Lia.
From Stdlib Require Import SpecFloat.
From coqutil Require Import Byte Word.LittleEndianList.
From stdpp Require Import gmap strings list fin_maps fin_sets.

Local Open Scope Z_scope.

(** ** Errors *)

(** The error values the sources create or inspect.  [withMessage] is what
    [errors.Wrap] of [github.com/pkg/errors] returns: it keeps its cause, and
    [errors.Is] and [errors.As] look through it.  [sigVerifyError] is the
    error kind [SIG_VERIFY] of the insert helper; the sources declare only
    the variable [emptySigVerifyError] of that type.  A formatted message
    ([fmt.Errorf]) is an [errorString] with the text before the verbs. *)
Inductive error : Type :=
  | errorString (msg : string)
  | withMessage (cause : error) (msg : string)
  | io_EOF
  | io_ErrUnexpectedEOF
  | context_Canceled
  | context_DeadlineExceeded
  | sigVerifyError (msg : string).

Definition errors_New (msg : string) : error := errorString msg.
Definition errors_Wrap (err : error) (msg : string) : error := withMessage err msg.

(** [errors.Is(err, context.Canceled)] *)
Fixpoint errors_Is_Canceled (err : error) : bool :=
  match err with
  | context_Canceled => true
  | withMessage cause _ => errors_Is_Canceled cause
  | _ => false
  end.

(** [errors.As(err, &emptySigVerifyError)] *)
Fixpoint errors_As_sigVerifyError (err : error) : bool :=
  match err with
  | sigVerifyError _ => true
  | withMessage cause _ => errors_As_sigVerifyError cause
  | _ => false
  end.

(** ** Machine integers *)

Definition int_wrap (z : Z) : Z := (z + 2 ^ 63) mod 2 ^ 64 - 2 ^ 63.
Definition uint32_wrap (z : Z) : Z := z mod 2 ^ 32.

Definition len {A : Type} (s : list A) : Z := Z.of_nat (length s).

(** ** Framing of a stream: [p2p/stream/types/stream.go] *)

Module sttypes.

Definition maxMsgBytes : Z := 20 * 1024 * 1024.
Definition sizeBytes : Z := 4.

(** [binary.LittleEndian.PutUint32] into a fresh 4-byte slice. *)
Definition PutUint32 (v : Z) : list byte :=
  [ byte.of_Z v;
    byte.of_Z (Z.shiftr v 8);
    byte.of_Z (Z.shiftr v 16);
    byte.of_Z (Z.shiftr v 24) ].

(** [binary.LittleEndian.Uint32]; it reads [b[0..3]], and a Go slice shorter
    than that makes it panic ([None]). *)
Definition Uint32 (b : list byte) : option Z :=
  match b with
  | b0 :: b1 :: b2 :: b3 :: _ =>
      Some (Z.lor (Z.lor (Z.lor (byte.unsigned b0)
                                (Z.shiftl (byte.unsigned b1) 8))
                         (Z.shiftl (byte.unsigned b2) 16))
                  (Z.shiftl (byte.unsigned b3) 24))
  | _ => None
  end.

Definition intToBytes (val : Z) : list byte := PutUint32 (uint32_wrap val).

Definition bytesToInt (b : list byte) : option Z := Uint32 b.

(** The size of the buffer that [bufio.NewReader] allocates. *)
Definition defaultBufSize : nat := 4096.

(** The [bufio.ReadWriter] of a [BaseStream].  On the side of the reader,
    [rd_buf] holds the bytes that [bufio.Reader] has buffered and not handed
    out yet, and [raw_in] what the raw stream is going to deliver, one list
    for each of its [Read]s that returns data (a [Read] returns at most the
    bytes of one delivery, and what it leaves of a delivery is there for the
    next [Read]); after the last delivery the raw stream is at [io.EOF].  On
    the side of the writer, [rw_buf] holds the bytes written but not flushed
    and [rw_out] the bytes flushed to the raw stream; a write never fails. *)
Record BaseStream : Type := mkBaseStream {
  rd_buf : list byte;
  raw_in : list (list byte);
  rw_buf : list byte;
  rw_out : list byte
}.

Definition rw_Write (p : list byte) (st : BaseStream) : option error * BaseStream :=
  (None, mkBaseStream (rd_buf st) (raw_in st) (rw_buf st ++ p) (rw_out st)).

Definition rw_Flush (st : BaseStream) : option error * BaseStream :=
  (None, mkBaseStream (rd_buf st) (raw_in st) [] (rw_out st ++ rw_buf st)).

(** [Read] of the raw stream into a slice of length [k]: the bytes read, the
    error, and the deliveries left. *)
Definition raw_Read (k : nat) (deliveries : list (list byte))
  : list byte * option error * list (list byte) :=
  match deliveries with
  | [] => ([], Some io_EOF, [])
  | c :: rest =>
      (take k c, None, match drop k c with [] => rest | r => r :: rest end)
  end.

(** [bufio.Reader.Read] into a slice of length [k]: the bytes it copies into
    the slice, the error, and the stream after it.  It hands out buffered
    bytes when there are some.  With an empty buffer it reads the raw stream
    once: into the slice itself when that is at least as long as the buffer,
    and otherwise into the buffer, from which it then copies.  It does not
    wait until the slice is full. *)
Definition rw_Read (k : nat) (st : BaseStream) : list byte * option error * BaseStream :=
  match k with
  | O => ([], None, st)
  | S _ =>
      match rd_buf st with
      | [] =>
          if (defaultBufSize <=? k)%nat
          then
            let '(got, err, raw') := raw_Read k (raw_in st) in
            (got, err, mkBaseStream [] raw' (rw_buf st) (rw_out st))
          else
            let '(got, err, raw') := raw_Read defaultBufSize (raw_in st) in
            match got with
            | [] => ([], err, mkBaseStream [] raw' (rw_buf st) (rw_out st))
            | _ => (take k got, None,
                    mkBaseStream (drop k got) raw' (rw_buf st) (rw_out st))
            end
      | buf =>
          (take k buf, None, mkBaseStream (drop k buf) (raw_in st) (rw_buf st) (rw_out st))
      end
  end.

(** [err == io.EOF] *)
Definition is_EOF (err : error) : bool :=
  match err with
  | io_EOF => true
  | _ => false
  end.

(** The loop of [io.ReadAtLeast]: [need] bytes are missing, [acc] holds the
    bytes read so far.  Every iteration calls [Read] once and uses one unit
    of [fuel]. *)
Fixpoint ReadAtLeast_loop (fuel need : nat) (acc : list byte) (st : BaseStream)
  : option (list byte * option error * BaseStream) :=
  match need with
  | O => Some (acc, None, st)
  | S _ =>
      match fuel with
      | O => None
      | S fuel' =>
          let '(got, err, st1) := rw_Read need st in
          match err with
          | None => ReadAtLeast_loop fuel' (need - length got) (acc ++ got) st1
          | Some e =>
              if (need <=? length got)%nat then Some (acc ++ got, None, st1)
              else
                match acc ++ got with
                | [] => Some ([], Some e, st1)
                | read =>
                    Some (read, Some (if is_EOF e then io_ErrUnexpectedEOF else e), st1)
                end
          end
      end
  end.

(** [io.ReadFull] into a slice of [n] zero bytes; the result carries the
    slice, the count read and the error.  A [Read] that returns no error
    takes a byte or uses up a delivery, so that the loop ends within the
    fuel given here; [None] is not reached. *)
Definition io_ReadFull (n : nat) (st : BaseStream)
  : option (list byte * Z * option error * BaseStream) :=
  match ReadAtLeast_loop (S (n + length (raw_in st))) n [] st with
  | None => None
  | Some (read, err, st') =>
      Some (read ++ replicate (n - length read) Byte.x00, len read, err, st')
  end.

Definition WriteBytes (b : list byte) (st : BaseStream) : option error * BaseStream :=
  if len b >? maxMsgBytes then (Some (errors_New "message too long"), st)
  else
    match rw_Write (intToBytes (len b)) st with
    | (Some err, st1) => (Some err, st1)
    | (None, st1) =>
        match rw_Write b st1 with
        | (Some err, st2) => (Some err, st2)
        | (None, st2) => rw_Flush st2
        end
    end.

(** [ReadBytes] returns the named results [cb] and [err].  The count that
    the [Read] of the size returns is dropped: [sb] keeps its zeros where
    nothing was read.  The outcome [None] stands for the panic of
    [bytesToInt] on a slice that is too short, and for a loop of
    [io.ReadFull] that does not end; neither is reached. *)
Definition ReadBytes (st : BaseStream)
  : option (option (list byte) * option error) * BaseStream :=
  match rw_Read (Z.to_nat sizeBytes) st with
  | (_, Some err, st1) => (Some (None, Some (errors_Wrap err "read size")), st1)
  | (got, None, st1) =>
      let sb := got ++ replicate (Z.to_nat sizeBytes - length got) Byte.x00 in
      match bytesToInt sb with
      | None => (None, st1)
      | Some size =>
          if size >? maxMsgBytes
          then (Some (None, Some (errors_New "message size exceed max")), st1)
          else
            match io_ReadFull (Z.to_nat size) st1 with
            | None => (None, st1)
            | Some (cb, n, Some err, st2) =>
                (Some (Some cb, Some (errors_Wrap err "read content")), st2)
            | Some (cb, n, None, st2) =>
                if decide (n ≠ size)
                then (Some (Some cb, Some (errors_New "ReadBytes sanity failed: byte size")), st2)
                else (Some (Some cb, None), st2)
            end
      end
  end.

End sttypes.

(** ** Go's [float64], as far as [divideCeil] uses it

    The values are those of IEEE 754 binary64, in the Standard Library's
    executable specification [SpecFloat] (53 bits of precision, infinities at
    exponent 1024, round to nearest even). *)

Module float64.

Definition prec : Z := 53.
Definition emax : Z := 1024.

(** The conversion [float64(x)] of an [int]. *)
Definition of_int (x : Z) : spec_float := binary_normalize prec emax x 0 false.

(** The quotient [x / y] of two [float64] values. *)
Definition div (x y : spec_float) : spec_float := SFdiv prec emax x y.

(** The least integer not below the value [(-1)^s * m * 2^e]. *)
Definition ceil_finite (s : bool) (m : positive) (e : Z) : Z :=
  let v := if s then Z.neg m else Z.pos m in
  match e with
  | Z0 => v
  | Zpos _ => v * 2 ^ e
  | Zneg _ => - ((- v) / 2 ^ (- e))
  end.

(** [math.Ceil]: zeros, infinities and NaN are returned as they are; the
    ceiling of a finite value is an integer that binary64 holds exactly. *)
Definition Ceil (f : spec_float) : spec_float :=
  match f with
  | S754_finite s m e =>
      let z := ceil_finite s m e in
      if z =? 0 then S754_zero s else binary_normalize prec emax z 0 s
  | _ => f
  end.

(** The conversion [int(f)]: it discards the fraction (toward zero).  When the
    value is not in the range of [int] (also for infinities and NaN) the Go
    specification leaves the result to the implementation: it is whatever
    [unrepresentable] says. *)
Definition to_int (unrepresentable : spec_float -> Z) (f : spec_float) : Z :=
  match f with
  | S754_zero _ => 0
  | S754_finite s m e =>
      let v := if s then Z.neg m else Z.pos m in
      let t := match e with
               | Zneg _ => Z.quot v (2 ^ (- e))
               | _ => v * 2 ^ e
               end in
      if (- 2 ^ 63 <=? t) && (t <? 2 ^ 63) then t else unrepresentable f
  | _ => unrepresentable f
  end.

(** What the amd64 port yields for an unrepresentable value. *)
Definition amd64_unrepresentable (f : spec_float) : Z := - 2 ^ 63.

End float64.

(** ** Package [downloader]: the short-range sync helper *)

Module downloader.

Abbreviation StreamID := string (only parsing).

(** [common.Hash] is an array of 32 bytes, compared byte by byte: it is the
    number the 32 bytes spell. *)
Abbreviation Hash := Z (only parsing).

(** Modelled from the spec: the constants of the package, whose declarations
    are not among the sources: [EMPTY_HASH] is the zero value of [Hash];
    [LOWER_CAP=6], [UPPER_CAP=10], [NUM_BLOCK_HASHES_PER_REQUEST=20]. *)
Definition emptyHash : Hash := 0.
Definition numBlocksByHashesLowerCap : Z := 6.
Definition numBlocksByHashesUpperCap : Z := 10.
Definition numBlockHashesPerRequest : Z := 20.

(** *** Hash-vote tally and longest hash chain *)

Module BlockHashResults.

Section HashChain.

(** [rangeMap t m] is the order in which the [t]-th [range] statement of a
    run visits the vote table [m]; [rangeSet s] the order in which the final
    loop of [computeLongestHashChain] visits the whitelist [s]. *)
Variable rangeMap : nat -> gmap StreamID Hash -> list (StreamID * Hash).
Variable rangeSet : gset StreamID -> list StreamID.

(** The local variables of the first loop of [countHashMaxVote]. *)
Record tally : Type := mkTally {
  voteM : gmap Hash Z;
  res : Hash;
  maxCnt : Z
}.

(** [voteM[h]] read as a value: a missing key reads as zero. *)
Definition votes_of (vm : gmap Hash Z) (h : Hash) : Z := default 0 (vm !! h).

(** One iteration of the first loop. *)
Definition countVote (whitelist : gset StreamID) (t : tally) (e : StreamID * Hash) : tally :=
  let '(st, h) := e in
  if decide (size whitelist ≠ 0%nat ∧ st ∉ whitelist) then t
  else
    let voteM1 := if decide (is_Some (voteM t !! h)) then voteM t
                  else <[h := 0]> (voteM t) in
    let voteM2 := <[h := int_wrap (votes_of voteM1 h + 1)]> voteM1 in
    if votes_of voteM2 h >? maxCnt t
    then mkTally voteM2 h (votes_of voteM2 h)
    else mkTally voteM2 (res t) (maxCnt t).

(** One iteration of the second loop. *)
Definition keepVoter (whitelist : gset StreamID) (winner : Hash)
    (nextWl : gset StreamID) (e : StreamID * Hash) : gset StreamID :=
  let '(st, h) := e in
  if decide (h ≠ winner) then nextWl
  else if decide (size whitelist ≠ 0%nat)
       then (if decide (st ∈ whitelist) then {[st]} ∪ nextWl else nextWl)
       else {[st]} ∪ nextWl.

Definition countHashMaxVote (t : nat) (m : gmap StreamID Hash)
    (whitelist : gset StreamID) : Hash * gset StreamID :=
  let tl := foldl (countVote whitelist) (mkTally ∅ emptyHash 0) (rangeMap t m) in
  (res tl, foldl (keepVoter whitelist (res tl)) ∅ (rangeMap (S t) m)).

Record blockHashResults : Type := mkBlockHashResults {
  bns : list Z;
  results : list (gmap StreamID Hash)
}.

Definition newBlockHashResults (bns : list Z) : blockHashResults :=
  mkBlockHashResults bns (map (fun _ => ∅) bns).

(** The loop of [addResult] from index [i] on; [None] is the run-time panic
    of [res.results[i]] outside the slice. *)
Fixpoint addResult_from (i : nat) (hashes : list Hash) (stid : StreamID)
    (rs : list (gmap StreamID Hash)) : option (list (gmap StreamID Hash)) :=
  match hashes with
  | [] => Some rs
  | h :: hashes' =>
      if decide (h = emptyHash) then Some rs
      else match rs !! i with
           | None => None
           | Some r => addResult_from (S i) hashes' stid (<[i := <[stid := h]> r]> rs)
           end
  end.

Definition addResult (hashes : list Hash) (stid : StreamID) (r : blockHashResults)
  : option blockHashResults :=
  mkBlockHashResults (bns r) <$> addResult_from 0 hashes stid (results r).

(** The first loop of [computeLongestHashChain], entered at position [i]
    with the current values of [whitelist] and [hashChain]. *)
Fixpoint chainLoop (i : nat) (rs : list (gmap StreamID Hash))
    (whitelist : gset StreamID) (hashChain : list Hash) : list Hash * gset StreamID :=
  match rs with
  | [] => (hashChain, whitelist)
  | result :: rs' =>
      let '(hash, nextWl) := countHashMaxVote (2 * i) result whitelist in
      if decide (hash = emptyHash) then (hashChain, whitelist)
      else chainLoop (S i) rs' nextWl (hashChain ++ [hash])
  end.

Definition computeLongestHashChain (r : blockHashResults) : list Hash * list StreamID :=
  let '(hashChain, whitelist) := chainLoop 0 (results r) ∅ [] in
  (hashChain, rangeSet whitelist).

(** The values of [hashChain] and [whitelist] after at most [n] iterations
    of the loop. *)
Definition chainAfter (n : nat) (r : blockHashResults) : list Hash * gset StreamID :=
  chainLoop 0 (take n (results r)) ∅ [].

End HashChain.

(** The votes that the tally counts, read off the table itself: a stream is
    counted when the prior whitelist is empty or holds it. *)
Definition counted (W : gset StreamID) (st : StreamID) : Prop :=
  size W = 0%nat ∨ st ∈ W.

Global Instance counted_dec W st : Decision (counted W st).
Proof. unfold counted. apply _. Defined.

Definition countedVotes (V : gmap StreamID Hash) (W : gset StreamID) : gmap StreamID Hash :=
  filter (fun e => counted W e.1) V.

(** The number of counted votes for [h]. *)
Definition voteCount (V : gmap StreamID Hash) (W : gset StreamID) (h : Hash) : nat :=
  size (filter (fun e => e.2 = h) (countedVotes V W)).

(** An oracle enumerates what it visits. *)
Definition enumerates (rangeMap : nat -> gmap StreamID Hash -> list (StreamID * Hash)) : Prop :=
  ∀ t m, rangeMap t m ≡ₚ map_to_list m.

Definition enumeratesSet (rangeSet : gset StreamID -> list StreamID) : Prop :=
  ∀ s, rangeSet s ≡ₚ elements s.

(** The counted votes for [h] among the pairs of a visiting order. *)
Definition cnt (W : gset StreamID) (h : Hash) (l : list (StreamID * Hash)) : nat :=
  length (filter (fun e => e.2 = h) (filter (fun e => counted W e.1) l)).

(** What the first loop of [countHashMaxVote] keeps true of its variables
    once it has visited [l]. *)
Definition tally_inv (W : gset StreamID) (l : list (StreamID * Hash)) (t : tally) : Prop :=
  (∀ h, votes_of (voteM t) h = Z.of_nat (cnt W h l)) ∧
  (∀ h, Z.of_nat (cnt W h l) <= maxCnt t) ∧
  ((maxCnt t = 0 ∧ res t = emptyHash) ∨
   (0 < maxCnt t ∧ maxCnt t = Z.of_nat (cnt W (res t) l))).

End BlockHashResults.

(** *** Slices that share an array *)

(** A slice is a window on an array: [sarray] is the array from the first
    element of the slice up to its capacity, [slen] the length of the slice.
    Two slices on one array see each other's writes; a function that receives
    a slice and writes through it hands the array back. *)
Record slice (A : Type) : Type := mkSlice { sarray : list A; slen : nat }.
Arguments mkSlice {A} _ _.
Arguments sarray {A} _.
Arguments slen {A} _.

(** The elements a slice shows. *)
Definition elems {A : Type} (s : slice A) : list A := take (slen s) (sarray s).

(** A slice whose length is its capacity, as [make] and [append] up to the
    capacity leave it. *)
Definition slice_of {A : Type} (l : list A) : slice A := mkSlice l (length l).

(** [append(s[:i], s[i+1:]...)] for [i < len(s)]: the capacity suffices, so
    the elements behind [i] move one place down inside the array, and the
    array keeps what it held from place [len(s)-1] on. *)
Definition slice_remove {A : Type} (i : nat) (s : slice A) : slice A :=
  mkSlice (take i (sarray s) ++ drop (S i) (elems s) ++ drop (slen s - 1) (sarray s))
          (slen s - 1).

(** The index at which a [range] loop first sees [target]. *)
Fixpoint index_of (target : StreamID) (l : list StreamID) : option nat :=
  match l with
  | [] => None
  | x :: l' => if decide (x = target) then Some 0%nat else S <$> index_of target l'
  end.

(** *** The capabilities the helper consumes *)

(** The interface [syncProtocol], over the state [P] of the peer layer (which
    also decides what the peers answer).  Deadlines and cancellation show in
    the answers. *)
Class syncProtocol (Block P : Type) : Type := {
  NumStreams : P -> Z;
  GetBlockHashes : list Z -> P -> (list Hash * StreamID * option error) * P;
  GetBlocksByHashes :
    list Hash -> list StreamID -> P -> (list (option Block) * StreamID * option error) * P;
  RemoveStream : StreamID -> P -> P;
  (** [sh.ctx.Err()], [None] while the context is not done *)
  ctx_Err : P -> option error
}.

(** The interfaces [blockChain] and [insertHelper], over the state [C] of the
    local chain. *)
Class insertHelper (Block C : Type) : Type := {
  CurrentBlock_NumberU64 : C -> Z;
  verifyAndInsertBlocks : list Block -> C -> (Z * option error) * C
}.

(** Modelled from the spec: the sync status, whose type is not among the
    sources: it is queryable as [(inProgress, targetHeight)]. *)
Record status : Type := mkStatus { isSyncing : bool; targetBN : Z }.

Module GetBlocksByHashManager.

Section FetchManager.

Context {Block : Type}.
(** [block.Hash()] *)
Variable Block_Hash : Block -> Hash.
(** what [int(f)] yields where Go leaves it to the implementation *)
Variable unrepresentable : spec_float -> Z.

Record blockResult : Type := mkBlockResult {
  block : option Block;
  stid : StreamID
}.

Record getBlocksByHashManager : Type := mkManager {
  hashes : list Hash;
  pendings : gset Hash;
  results : gmap Hash blockResult;
  whitelist : slice StreamID
}.

Definition newGetBlocksByHashManager (hs : list Hash) (wl : slice StreamID)
  : getBlocksByHashManager :=
  mkManager hs ∅ ∅ wl.

Definition divideCeil (x y : Z) : Z :=
  let fVal := float64.div (float64.of_int x) (float64.of_int y) in
  float64.to_int unrepresentable (float64.Ceil fVal).

Definition numBlocksPerRequest (m : getBlocksByHashManager) : Z :=
  let val := divideCeil (len (hashes m)) (Z.of_nat (slen (whitelist m))) in
  let val := if val <? numBlocksByHashesLowerCap then numBlocksByHashesLowerCap else val in
  let val := if val >? numBlocksByHashesUpperCap then numBlocksByHashesUpperCap else val in
  val.

(** The selection loop of [getNextHashes] over the rest [hs] of [m.hashes],
    with the current value [acc] of the local slice [hashes]. *)
Fixpoint selectHashes (m : getBlocksByHashManager) (num : Z) (hs : list Hash)
    (acc : list Hash) : list Hash :=
  match hs with
  | [] => acc
  | hash :: hs' =>
      if len acc =? num then acc
      else
        let ok1 := bool_decide (hash ∈ pendings m) in
        let ok2 := bool_decide (is_Some (results m !! hash)) in
        if negb ok1 && negb ok2 then selectHashes m num hs' (acc ++ [hash])
        else selectHashes m num hs' acc
  end.

(** [getNextHashes] yields its three results and the manager as it leaves
    it; the outcome [None] is the panic of [make] on a negative capacity. *)
Definition getNextHashes (m : getBlocksByHashManager)
  : option (list Hash * list StreamID * option error) * getBlocksByHashManager :=
  let num := numBlocksPerRequest m in
  if num <? 0 then (None, m)
  else if Z.of_nat (slen (whitelist m)) =? 0
  then (Some ([], [], Some (errors_New "empty white list")), m)
  else
    let hs := selectHashes m num (hashes m) [] in
    let sts := elems (whitelist m) in
    (Some (hs, sts, None), m).

(** The loop of [addResult] over the rest of [hashes] from index [i] on;
    [None] is the panic of [blocks[i]] outside the slice. *)
Fixpoint addResult_from (i : nat) (hs : list Hash) (blocks : list (option Block))
    (st : StreamID) (m : getBlocksByHashManager) : option getBlocksByHashManager :=
  match hs with
  | [] => Some m
  | hash :: hs' =>
      match blocks !! i with
      | None => None
      | Some b =>
          addResult_from (S i) hs' blocks st
            (mkManager (hashes m) (pendings m ∖ {[hash]})
                       (<[hash := mkBlockResult b st]> (results m)) (whitelist m))
      end
  end.

Definition addResult (hs : list Hash) (blocks : list (option Block)) (st : StreamID)
    (m : getBlocksByHashManager) : option getBlocksByHashManager :=
  addResult_from 0 hs blocks st m.

(** [removeStreamID]: every [goto loop] starts the [range] loop again; each
    restart follows a removal, so [fuel] above the length suffices. *)
Fixpoint removeStreamID_loop (fuel : nat) (target : StreamID) (wl : slice StreamID)
  : slice StreamID :=
  match fuel with
  | O => wl
  | S fuel' =>
      match index_of target (elems wl) with
      | None => wl
      | Some i =>
          let wl' := if decide (i = slen wl) then mkSlice (sarray wl) i
                     else slice_remove i wl in
          removeStreamID_loop fuel' target wl'
      end
  end.

Definition removeStreamID (target : StreamID) (m : getBlocksByHashManager)
  : getBlocksByHashManager :=
  mkManager (hashes m) (pendings m) (results m)
            (removeStreamID_loop (S (slen (whitelist m))) target (whitelist m)).

Definition handleResultError (hs : list Hash) (st : StreamID) (m : getBlocksByHashManager)
  : getBlocksByHashManager :=
  let m1 := removeStreamID st m in
  mkManager (hashes m1) (foldl (fun p hash => p ∖ {[hash]}) (pendings m1) hs)
            (results m1) (whitelist m1).

(** [m.results[hash].block]: a missing key reads as the zero record. *)
Definition block_of (m : getBlocksByHashManager) (hash : Hash) : option Block :=
  match results m !! hash with
  | Some r => block r
  | None => None
  end.

Definition sanityNilBlock : error := errors_New "SANITY: nil block found".

(** The loop of [getResults] over the rest of [m.hashes]. *)
Fixpoint getResults_from (m : getBlocksByHashManager) (hs : list Hash)
    (blocks : list Block) : option (list Block) * option error :=
  match hs with
  | [] => (Some blocks, None)
  | hash :: hs' =>
      match block_of m hash with
      | None => (None, Some sanityNilBlock)
      | Some b => getResults_from m hs' (blocks ++ [b])
      end
  end.

Definition getResults (m : getBlocksByHashManager) : option (list Block) * option error :=
  getResults_from m (hashes m) [].

Definition isDone (m : getBlocksByHashManager) : bool :=
  bool_decide (size (results m) = length (hashes m)).

(** The loop of [checkGetBlockByHashesResult] from index [i] on. *)
Fixpoint checkBlocks_from (i : nat) (blocks : list (option Block)) (hs : list Hash)
  : option (option error) :=
  match blocks with
  | [] => Some None
  | None :: _ => Some (Some (errors_New "nil block found"))
  | Some b :: blocks' =>
      match hs !! i with
      | None => None
      | Some h =>
          if decide (Block_Hash b ≠ h)
          then Some (Some (errors_New "unexpected block hash"))
          else checkBlocks_from (S i) blocks' hs
      end
  end.

Definition checkGetBlockByHashesResult (blocks : list (option Block)) (hs : list Hash)
  : option error :=
  if decide (len blocks ≠ len hs)
  then Some (errors_New "unexpected number of getBlocksByHashes result")
  else match checkBlocks_from 0 blocks hs with
       | Some r => r
       | None => None   (* [hashes[i]] outside the slice: not reached, the lengths agree *)
       end.

(** A hash that [getNextHashes] may hand out: not pending and without a
    record. *)
Definition eligible (m : getBlocksByHashManager) (hash : Hash) : Prop :=
  (hash ∉ pendings m) ∧ (results m !! hash = None).

Global Instance eligible_dec m hash : Decision (eligible m hash).
Proof. unfold eligible. apply _. Defined.

(** Every recorded block is recorded under its own hash. *)
Definition recordsValid (m : getBlocksByHashManager) : Prop :=
  ∀ h b, block_of m h = Some b -> Block_Hash b = h.

End FetchManager.

End GetBlocksByHashManager.

(** *** The helper of one short-range cycle *)

Definition uint64_wrap (z : Z) : Z := z mod 2 ^ 64.

(** The state a cycle works on: the peer layer, the local chain and the sync
    status of the downloader. *)
Record Downloader (P C : Type) : Type := mkDownloader {
  proto : P;
  chain : C;
  dstatus : status
}.
Arguments mkDownloader {P C} _ _ _.
Arguments proto {P C} _.
Arguments chain {P C} _.
Arguments dstatus {P C} _.

Section Helper.

Import BlockHashResults GetBlocksByHashManager.

Context {Block P C : Type}.
Context `{!syncProtocol Block P} `{!insertHelper Block C}.
Variable Block_Hash : Block -> Hash.
Variable unrepresentable : spec_float -> Z.
Variable rangeMap : nat -> gmap StreamID Hash -> list (StreamID * Hash).
Variable rangeSet : gset StreamID -> list StreamID.
(** [sh.config.Concurrency] *)
Variable Concurrency : nat.

Definition checkPrerequisites (p : P) : option error :=
  if NumStreams p <? Z.of_nat Concurrency
  then Some (errors_New "not enough streams")
  else None.

(** The loop of [prepareBlockHashNumbers] on [uint64]; when [limit] is the
    greatest [uint64] the loop does not end, which is the outcome [None]
    once [fuel] is used up. *)
Fixpoint prepare_loop (fuel : nat) (bn limit : Z) (acc : list Z) : option (list Z) :=
  match fuel with
  | O => None
  | S fuel' =>
      if bn <=? limit then prepare_loop fuel' (uint64_wrap (bn + 1)) limit (acc ++ [bn])
      else Some acc
  end.

Definition prepareBlockHashNumbers (curNumber : Z) : option (list Z) :=
  prepare_loop (S (Z.to_nat numBlockHashesPerRequest))
               (uint64_wrap (curNumber + 1))
               (uint64_wrap (curNumber + numBlockHashesPerRequest)) [].

Definition doGetBlockHashesRequest (bns : list Z) (p : P)
  : (list Hash * StreamID * option error) * P :=
  let '((hs, st, err), p1) := GetBlockHashes bns p in
  match err with
  | Some e => (([], st, Some e), p1)
  | None =>
      if decide (len hs ≠ len bns)
      then (([], st, Some (errors_New "unexpected get block hashes result delivered")),
            RemoveStream st p1)
      else ((hs, st, None), p1)
  end.

Definition doGetBlocksByHashesRequest (hs : list Hash) (wl : list StreamID) (p : P)
  : (list (option Block) * StreamID * option error) * P :=
  let '((blocks, st, err), p1) := GetBlocksByHashes hs wl p in
  match err with
  | Some e => (([], st, Some e), p1)
  | None =>
      match checkGetBlockByHashesResult Block_Hash blocks hs with
      | Some e => (([], st, Some e), RemoveStream st p1)
      | None => ((blocks, st, None), p1)
      end
  end.

Definition removeStreams (sts : list StreamID) (p : P) : P :=
  foldl (fun p st => RemoveStream st p) p sts.

(** The body of one goroutine of [getHashChain]; [None] is a panic. *)
Definition hashWorker (bns : list Z) (s : blockHashResults * P)
  : option (blockHashResults * P) :=
  let '((hs, st, err), p1) := doGetBlockHashesRequest bns s.2 in
  match err with
  | Some _ => Some (s.1, p1)
  | None => (fun r => (r, p1)) <$> BlockHashResults.addResult hs st s.1
  end.

Fixpoint repeatWorker {St : Type} (n : nat) (w : St -> option St) (s : St) : option St :=
  match n with
  | O => Some s
  | S n' => match w s with
            | None => None
            | Some s' => repeatWorker n' w s'
            end
  end.

(** [getHashChain] under the schedule in which each goroutine runs to its
    end before the next one starts. *)
Definition getHashChain_sequential (curBN : Z) (p : P)
  : option ((list Hash * list StreamID * option error) * P) :=
  match prepareBlockHashNumbers curBN with
  | None => None
  | Some bns =>
      match repeatWorker Concurrency (hashWorker bns) (newBlockHashResults bns, p) with
      | None => None
      | Some (rs, p1) =>
          match ctx_Err p1 with
          | Some e => Some (([], [], Some e), p1)
          | None =>
              let '(hashChain, wl) := computeLongestHashChain rangeMap rangeSet rs in
              Some ((hashChain, wl, None), p1)
          end
      end
  end.

(** What the goroutines of [getBlocksByHashes] share: the manager, the peer
    layer, [gErr], and whether the child context is cancelled. *)
Record fetchState : Type := mkFetchState {
  fmgr : getBlocksByHashManager (Block := Block);
  fproto : P;
  gErr : option error;
  cancelled : bool
}.

(** The body of one goroutine of [getBlocksByHashes]; every iteration of
    its loop uses one unit of [fuel], and the deferred [cancel] runs at each
    return.  On an empty batch the goroutine returns when its context is
    done (cancelled by a goroutine that returned, or through the parent
    context), and starts over after the 200 ms otherwise.  [None]: a panic,
    or the loop has not ended. *)
Fixpoint fetchWorker (fuel : nat) (s : fetchState) : option fetchState :=
  match fuel with
  | O => None
  | S fuel' =>
      if isDone (fmgr s) then Some (mkFetchState (fmgr s) (fproto s) (gErr s) true)
      else
        match getNextHashes unrepresentable (fmgr s) with
        | (None, _) => None
        | (Some (_, _, Some err), m1) => Some (mkFetchState m1 (fproto s) (Some err) true)
        | (Some (hs, wl, None), m1) =>
            if len hs =? 0
            then (if cancelled s || bool_decide (is_Some (ctx_Err (fproto s)))
                  then Some (mkFetchState m1 (fproto s) (gErr s) true)
                  else fetchWorker fuel' (mkFetchState m1 (fproto s) (gErr s) false))
            else
              let '((blocks, st, err), p1) := doGetBlocksByHashesRequest hs wl (fproto s) in
              match err with
              | Some _ =>
                  fetchWorker fuel'
                    (mkFetchState (handleResultError hs st m1) p1 (gErr s) (cancelled s))
              | None =>
                  match GetBlocksByHashManager.addResult hs blocks st m1 with
                  | None => None
                  | Some m2 => fetchWorker fuel' (mkFetchState m2 p1 (gErr s) (cancelled s))
                  end
              end
        end
  end.

(** [getBlocksByHashes] under the schedule in which each goroutine runs to
    its end before the next one starts.  The manager works on the array of
    the caller's [whitelist]: the array is handed back as third result. *)
Definition getBlocksByHashes_sequential (fuel : nat) (hs : list Hash)
    (whitelist : list StreamID) (p : P)
  : option ((option (list Block) * option error) * list StreamID * P) :=
  let m := newGetBlocksByHashManager hs (slice_of whitelist) in
  match repeatWorker Concurrency (fetchWorker fuel) (mkFetchState m p None false) with
  | None => None
  | Some s =>
      let arr := sarray (GetBlocksByHashManager.whitelist (fmgr s)) in
      match gErr s with
      | Some e => Some ((None, Some e), arr, fproto s)
      | None =>
          match ctx_Err (fproto s) with
          | Some e => Some ((None, Some e), arr, fproto s)
          | None => Some (getResults (fmgr s), arr, fproto s)
          end
      end
  end.

(** Modelled from the spec: [startSyncing], [setTargetBN] and
    [finishSyncing] of the status, whose code is not among the sources. *)
Definition startSyncing (s : status) : status := mkStatus true (targetBN s).
Definition setTargetBN (bn : Z) (s : status) : status := mkStatus (isSyncing s) bn.
Definition finishSyncing (s : status) : status := mkStatus false (targetBN s).

(** The two phases that run goroutines, under whatever schedule: each takes
    the peer layer from one state to another, [None] when it does not
    return.  [getBlocksByHashes] receives the slice [whitelist] and may
    write its array, which it hands back. *)
Variable getHashChain :
  Z -> P -> option ((list Hash * list StreamID * option error) * P).
Variable getBlocksByHashes :
  list Hash -> list StreamID -> P ->
  option ((option (list Block) * option error) * list StreamID * P).

Definition doShortRangeSync (d : Downloader P C)
  : option ((Z * option error) * Downloader P C) :=
  match checkPrerequisites (proto d) with
  | Some err => Some ((0, Some (errors_Wrap err "prerequisite")), d)
  | None =>
      let curBN := CurrentBlock_NumberU64 (chain d) in
      match getHashChain curBN (proto d) with
      | None => None
      | Some ((_, _, Some err), p1) =>
          Some ((0, Some (errors_Wrap err "getHashChain")),
                mkDownloader p1 (chain d) (dstatus d))
      | Some ((hashChain, whitelist, None), p1) =>
          if len hashChain =? 0
          then Some ((0, None), mkDownloader p1 (chain d) (dstatus d))
          else
            let expEndBN := uint64_wrap (curBN + len hashChain - 1) in
            let st1 := setTargetBN expEndBN (startSyncing (dstatus d)) in
            match getBlocksByHashes hashChain whitelist p1 with
            | None => None
            | Some ((_, Some err), whitelist', p2) =>
                let p3 := if negb (errors_Is_Canceled err)
                          then removeStreams whitelist' p2 else p2 in
                Some ((0, Some (errors_Wrap err "getBlocksByHashes")),
                      mkDownloader p3 (chain d) (finishSyncing st1))
            | Some ((blocks, None), whitelist', p2) =>
                let blocks := default [] blocks in
                let '((n, err), c1) := verifyAndInsertBlocks blocks (chain d) in
                match err with
                | Some e =>
                    let p3 := if negb (errors_As_sigVerifyError e)
                              then removeStreams whitelist' p2 else p2 in
                    Some ((n, Some (errors_Wrap e "InsertChain")),
                          mkDownloader p3 c1 (finishSyncing st1))
                | None =>
                    Some ((len blocks, None), mkDownloader p2 c1 (finishSyncing st1))
                end
            end
      end
  end.

End Helper.

(** A cycle whose two phases run their goroutines one after the other. *)
Definition doShortRangeSync_sequential {Block P C : Type}
    `{!syncProtocol Block P} `{!insertHelper Block C}
    (Block_Hash : Block -> Hash) (unrepresentable : spec_float -> Z)
    (rangeMap : nat -> gmap StreamID Hash -> list (StreamID * Hash))
    (rangeSet : gset StreamID -> list StreamID)
    (Concurrency fuel : nat) (d : Downloader P C)
  : option ((Z * option error) * Downloader P C) :=
  doShortRangeSync Concurrency
    (getHashChain_sequential rangeMap rangeSet Concurrency)
    (getBlocksByHashes_sequential Block_Hash unrepresentable Concurrency fuel) d.

(** *** A scripted peer layer and chain, to run the helper on *)

(** The peers answer the requests from two scripts, in order; a request
    beyond the script meets its deadline.  [removedLog] records the calls of
    [RemoveStream].  A block is identified with its hash. *)
Record scriptedPeers : Type := mkScriptedPeers {
  alive : list StreamID;
  hashAnswers : list (list Hash * StreamID * option error);
  blockAnswers : list (list (option Hash) * StreamID * option error);
  removedLog : list StreamID
}.

Global Instance scripted_syncProtocol : syncProtocol Hash scriptedPeers := {|
  NumStreams p := len (alive p);
  GetBlockHashes _ p :=
    match hashAnswers p with
    | [] => (([], ""%string, Some context_DeadlineExceeded), p)
    | a :: rest => (a, mkScriptedPeers (alive p) rest (blockAnswers p) (removedLog p))
    end;
  GetBlocksByHashes _ _ p :=
    match blockAnswers p with
    | [] => (([], ""%string, Some context_DeadlineExceeded), p)
    | a :: rest => (a, mkScriptedPeers (alive p) (hashAnswers p) rest (removedLog p))
    end;
  RemoveStream st p :=
    mkScriptedPeers (filter (fun x => x ≠ st) (alive p)) (hashAnswers p) (blockAnswers p)
                    (removedLog p ++ [st]);
  ctx_Err _ := None
|}.

Record scriptedChain : Type := mkScriptedChain {
  height : Z;
  insertAnswer : Z * option error
}.

Global Instance scripted_insertHelper : insertHelper Hash scriptedChain := {|
  CurrentBlock_NumberU64 c := height c;
  verifyAndInsertBlocks _ c := (insertAnswer c, mkScriptedChain (height c + (insertAnswer c).1) (insertAnswer c))
|}.

(** *** Notions of the specification *)

(** [ceil(x / y)] for a positive [y]. *)
Definition ceilDiv (x y : Z) : Z := (x + y - 1) / y.

Definition clamp (v lo hi : Z) : Z := Z.min hi (Z.max lo v).

(** The states of the fetch manager that a cycle can be in: a fresh manager,
    changed by the calls the goroutines of [getBlocksByHashes] make.  They
    call [addResult] only with blocks that [checkGetBlockByHashesResult]
    accepted. *)
Inductive managerState {Block : Type} (Block_Hash : Block -> Hash)
    (unrepresentable : spec_float -> Z)
  : GetBlocksByHashManager.getBlocksByHashManager (Block := Block) -> Prop :=
  | ms_new hs wl :
      managerState Block_Hash unrepresentable
        (GetBlocksByHashManager.newGetBlocksByHashManager hs (slice_of wl))
  | ms_getNextHashes m :
      managerState Block_Hash unrepresentable m ->
      managerState Block_Hash unrepresentable
        (GetBlocksByHashManager.getNextHashes unrepresentable m).2
  | ms_addResult m hs blocks st m' :
      managerState Block_Hash unrepresentable m ->
      GetBlocksByHashManager.checkGetBlockByHashesResult Block_Hash blocks hs = None ->
      GetBlocksByHashManager.addResult hs blocks st m = Some m' ->
      managerState Block_Hash unrepresentable m'
  | ms_handleResultError m hs st :
      managerState Block_Hash unrepresentable m ->
      managerState Block_Hash unrepresentable
        (GetBlocksByHashManager.handleResultError hs st m).

End downloader.

(** ** Notions of the properties *)

Module notions.

Import sttypes downloader downloader.BlockHashResults downloader.GetBlocksByHashManager.

(** The bytes [WriteBytes] sends for a payload. *)
Definition frame (b : list byte) : list byte := intToBytes (len b) ++ b.

(** The input a stream still has to hand out: what is buffered, and what
    the raw stream is going to deliver. *)
Definition pending (st : BaseStream) : list byte := rd_buf st ++ concat (raw_in st).

(** The bytes within reach of the next [Read] of [bufio.Reader]: the
    buffered ones if there are some, and the next delivery of the raw stream
    otherwise. *)
Definition firstDelivery (st : BaseStream) : list byte :=
  match rd_buf st with
  | [] => match raw_in st with
          | [] => []
          | c :: _ => c
          end
  | buf => buf
  end.

(** The error of [io.ReadFull] for [need] bytes when it has read [read] and
    [all] is the input there was. *)
Definition fullErr (need : nat) (read all : list byte) : option error :=
  if (need <=? length all)%nat then None
  else Some (match read with [] => io_EOF | _ => io_ErrUnexpectedEOF end).

(** The hashes of a listing that [addResult] records: those before the first
    [emptyHash]. *)
Fixpoint recordedPrefix (hashes : list Z) : list Z :=
  match hashes with
  | [] => []
  | h :: hashes' => if decide (h = emptyHash) then [] else h :: recordedPrefix hashes'
  end.

(** No stream has [emptyHash] as its vote. *)
Definition noEmptyVote (rs : list (gmap string Z)) : Prop :=
  ∀ V st, V ∈ rs -> V !! st ≠ Some emptyHash.

(** The states of the manager of one fetch phase over the hash chain
    [target] and the whitelist [wl0], under any interleaving of the
    goroutines of [getBlocksByHashes]: a goroutine takes a batch from
    [getNextHashes] in some state, and later calls [addResult] (after
    [checkGetBlockByHashesResult] accepted the blocks for that batch) or
    [handleResultError] with that batch. *)
Inductive cycleState {Block : Type} (Block_Hash : Block -> Z)
    (unrepresentable : spec_float -> Z) (target : list Z) (wl0 : list string)
  : getBlocksByHashManager (Block := Block) -> Prop :=
  | cs_new :
      cycleState Block_Hash unrepresentable target wl0
        (newGetBlocksByHashManager target (slice_of wl0))
  | cs_addResult m0 m hs wl blocks st m' :
      cycleState Block_Hash unrepresentable target wl0 m0 ->
      cycleState Block_Hash unrepresentable target wl0 m ->
      (getNextHashes unrepresentable m0).1 = Some (hs, wl, None) ->
      checkGetBlockByHashesResult Block_Hash blocks hs = None ->
      addResult hs blocks st m = Some m' ->
      cycleState Block_Hash unrepresentable target wl0 m'
  | cs_handleResultError m0 m hs wl st :
      cycleState Block_Hash unrepresentable target wl0 m0 ->
      cycleState Block_Hash unrepresentable target wl0 m ->
      (getNextHashes unrepresentable m0).1 = Some (hs, wl, None) ->
      cycleState Block_Hash unrepresentable target wl0 (handleResultError hs st m).

(** The target hashes without a record. *)
Definition missing {Block : Type} (m : getBlocksByHashManager (Block := Block)) : list Z :=
  filter (fun h => results m !! h = None) (hashes m).

End notions.

(** * Sample inputs *)

Module samples.

Import downloader downloader.BlockHashResults downloader.GetBlocksByHashManager.

Definition payload : list byte := [Byte.x68; Byte.x69].
Definition idle : sttypes.BaseStream := sttypes.mkBaseStream [] [] [] [].

(** The frame of [payload] when its first byte arrives on its own. *)
Definition slowHeader : sttypes.BaseStream :=
  sttypes.mkBaseStream []
    [ [Byte.x02]; [Byte.x00; Byte.x00; Byte.x00; Byte.x68; Byte.x69] ] [] [].

(** Two frames that arrive in one piece: a payload of 4090 bytes, and
    [payload]. *)
Definition coalesced : sttypes.BaseStream :=
  sttypes.mkBaseStream []
    [ notions.frame (replicate 4090 Byte.x61) ++ notions.frame payload ] [] [].

(** A header that declares 32 MiB and arrives in pieces of three bytes and
    one byte. *)
Definition slowOversize : sttypes.BaseStream :=
  sttypes.mkBaseStream [] [ [Byte.x00; Byte.x00; Byte.x00]; [Byte.x02] ] [] [].

(** An oracle that visits a map in the order of [map_to_list], and a set in
    the order of [elements]. *)
Definition inOrder (t : nat) (m : gmap StreamID Hash) : list (StreamID * Hash) :=
  map_to_list m.
Definition inOrderSet (s : gset StreamID) : list StreamID := elements s.

(** Three peers; [p3] reports another hash at the second height, and nobody
    has a block at the third. *)
Definition votes1 : gmap StreamID Hash :=
  {[ "p1"%string := 10; "p2"%string := 10; "p3"%string := 10 ]}.
Definition votes2 : gmap StreamID Hash :=
  {[ "p1"%string := 11; "p2"%string := 11; "p3"%string := 12 ]}.
Definition listings : blockHashResults :=
  mkBlockHashResults [1; 2; 3] [votes1; votes2; ∅].

(** Managers over blocks that are identified with their hashes: a fresh one
    with two target hashes and one stream, one without streams, and one whose
    only target hash has been served. *)
Definition blockHash (b : Hash) : Hash := b.

Definition freshManager : getBlocksByHashManager (Block := Hash) :=
  newGetBlocksByHashManager [10; 11] (slice_of ["a"%string]).

Definition strandedManager : getBlocksByHashManager (Block := Hash) :=
  newGetBlocksByHashManager [10] (slice_of []).

Definition servedManager : getBlocksByHashManager (Block := Hash) :=
  mkManager [10] ∅ {[ 10 := mkBlockResult (Some 10) "b"%string ]} (slice_of ["b"%string]).

(** A cycle at height 100 with [Concurrency = 2].  The peers [a] and [b]
    both report the hash 10 for height 101 and no block above it.  In the
    fetch phase the request served by [a] meets its deadline and the next one
    is served by [b]; then the insertion of the block fails, not for its
    signature. *)
Definition cycleStart : Downloader scriptedPeers scriptedChain :=
  mkDownloader
    (mkScriptedPeers ["a"; "b"]%string
       [ (10 :: replicate 19 0, "a"%string, None);
         (10 :: replicate 19 0, "b"%string, None) ]
       [ ([], "a"%string, Some context_DeadlineExceeded);
         ([Some 10], "b"%string, None) ]
       [])
    (mkScriptedChain 100 (0, Some (errorString "invalid merkle root")))
    (mkStatus false 0).

(** The same cycle when the first request of the fetch phase is served: no
    stream is dropped from the manager's whitelist. *)
Definition cycleServed : Downloader scriptedPeers scriptedChain :=
  mkDownloader
    (mkScriptedPeers ["a"; "b"]%string
       [ (10 :: replicate 19 0, "a"%string, None);
         (10 :: replicate 19 0, "b"%string, None) ]
       [ ([Some 10], "a"%string, None) ]
       [])
    (mkScriptedChain 100 (0, Some (errorString "invalid merkle root")))
    (mkStatus false 0).

(** And when the insertion fails for a signature, after two blocks. *)
Definition cycleSigVerify : Downloader scriptedPeers scriptedChain :=
  mkDownloader
    (mkScriptedPeers ["a"; "b"]%string
       [ (10 :: 11 :: 12 :: replicate 17 0, "a"%string, None);
         (10 :: 11 :: 12 :: replicate 17 0, "b"%string, None) ]
       [ ([Some 10; Some 11; Some 12], "a"%string, None) ]
       [])
    (mkScriptedChain 100 (2, Some (sigVerifyError "invalid signature")))
    (mkStatus false 0).

(** A peer that answers a request for three heights with two hashes. *)
Definition shortAnswer : scriptedPeers :=
  mkScriptedPeers ["a"%string] [ ([10; 11], "a"%string, None) ] [] [].

(** Peers that serve every request for blocks with the blocks asked for (a
    block is identified with its hash); they count the requests. *)
Record servingPeers : Type := mkServingPeers { served : nat }.

Global Instance serving_syncProtocol : syncProtocol Hash servingPeers := {|
  NumStreams _ := 1;
  GetBlockHashes _ p := (([], "a"%string, Some context_DeadlineExceeded), p);
  GetBlocksByHashes hs _ p := ((Some <$> hs, "a"%string, None), mkServingPeers (S (served p)));
  RemoveStream _ p := p;
  ctx_Err _ := None
|}.

End samples.

(** * Properties *)

Set Warnings "-clear-no-such-hyp".

(** ** Framing *)

Section FramingFacts.

Import sttypes notions.

Lemma PutUint32_le_split v : PutUint32 v = le_split 4 v.
Proof.
  unfold PutUint32. cbv [le_split].
  rewrite !Z.shiftr_shiftr by lia. reflexivity.
Qed.

Lemma Uint32_le_combine b0 b1 b2 b3 rest :
  Uint32 (b0 :: b1 :: b2 :: b3 :: rest) = Some (le_combine [b0; b1; b2; b3]).
Proof.
  cbv [Uint32 le_combine]. f_equal.
  rewrite Z.shiftl_0_l, Z.lor_0_r.
  rewrite !Z.shiftl_lor, !Z.shiftl_shiftl by lia.
  rewrite !Z.lor_assoc. reflexivity.
Qed.

Lemma intToBytes_length n : length (intToBytes n) = 4%nat.
Proof. reflexivity. Qed.

Lemma le_combine_intToBytes n : 0 <= n < 2 ^ 32 -> le_combine (intToBytes n) = n.
Proof.
  intros Hn. unfold intToBytes, uint32_wrap.
  rewrite PutUint32_le_split, le_combine_split.
  change (Z.of_nat 4 * 8) with 32. rewrite Z.mod_mod by lia. apply Z.mod_small; lia.
Qed.

Lemma bytesToInt_intToBytes n rest :
  0 <= n < 2 ^ 32 -> bytesToInt (intToBytes n ++ rest) = Some n.
Proof.
  intros Hn. unfold bytesToInt.
  pose proof (le_combine_intToBytes n Hn) as Hc.
  unfold intToBytes, PutUint32 in *. cbn [app].
  rewrite Uint32_le_combine. by rewrite Hc.
Qed.

Lemma maxMsgBytes_lt : maxMsgBytes < 2 ^ 32.
Proof. reflexivity. Qed.

Lemma WriteBytes_ok b st :
  len b <= maxMsgBytes ->
  WriteBytes b st =
    (None, mkBaseStream (rd_buf st) (raw_in st) []
             (rw_out st ++ rw_buf st ++ intToBytes (len b) ++ b)).
Proof.
  intros Hb. unfold WriteBytes.
  destruct (len b >? maxMsgBytes) eqn:E; [lia|].
  unfold rw_Write, rw_Flush; cbn [rd_buf raw_in rw_buf rw_out].
  by rewrite <- !app_assoc.
Qed.

Lemma WriteBytes_too_long b st :
  len b > maxMsgBytes -> WriteBytes b st = (Some (errors_New "message too long"), st).
Proof.
  intros Hb. unfold WriteBytes. destruct (len b >? maxMsgBytes) eqn:E; [done|lia].
Qed.

Lemma le_combine_pad (l : list byte) (k : nat) :
  le_combine (l ++ replicate k Byte.x00) = le_combine l.
Proof.
  rewrite le_combine_app.
  replace (replicate k Byte.x00) with (List.repeat Byte.x00 k)
    by (induction k; cbn; congruence).
  rewrite le_combine_0, Z.shiftl_0_l, Z.lor_0_r. done.
Qed.

(** The size that [ReadBytes] decodes from the bytes [h] that the read of
    the header returned. *)
Lemma bytesToInt_padded (h : list byte) :
  (length h ≤ 4)%nat ->
  bytesToInt (h ++ replicate (4 - length h) Byte.x00) = Some (le_combine h) ∧
  0 <= le_combine h < 2 ^ 32 ∧
  ((length h < 4)%nat -> le_combine h < 2 ^ 24).
Proof.
  intros Hh. set (sb := h ++ replicate (4 - length h) Byte.x00).
  assert (Hl : length sb = 4%nat) by (unfold sb; rewrite length_app, length_replicate; lia).
  pose proof (le_combine_bound h) as Hb.
  split; [|split].
  - rewrite <- (le_combine_pad h (4 - length h)). fold sb.
    destruct sb as [|b0 [|b1 [|b2 [|b3 [|? ?]]]]]; cbn in Hl; try lia.
    unfold bytesToInt. by rewrite Uint32_le_combine.
  - assert (2 ^ (8 * Z.of_nat (length h)) <= 2 ^ 32) by (apply Z.pow_le_mono_r; lia). lia.
  - intros Hlt.
    assert (2 ^ (8 * Z.of_nat (length h)) <= 2 ^ 24) by (apply Z.pow_le_mono_r; lia). lia.
Qed.

Lemma small_read : (defaultBufSize <=? Z.to_nat sizeBytes)%nat = false.
Proof. vm_compute. reflexivity. Qed.

Lemma firstDelivery_prefix st : firstDelivery st `prefix_of` pending st.
Proof.
  unfold firstDelivery, pending. destruct (rd_buf st) as [|b buf].
  - destruct (raw_in st) as [|c rest]; [apply prefix_nil|]. cbn. by apply prefix_app_r.
  - by apply prefix_app_r.
Qed.

(** One [Read] of [bufio.Reader]. *)
Lemma rw_Read_spec (k : nat) (st : BaseStream) :
  (0 < k)%nat ->
  ∃ got err st1,
    rw_Read k st = (got, err, st1) ∧
    rw_buf st1 = rw_buf st ∧ rw_out st1 = rw_out st ∧
    ((err = Some io_EOF ∧ got = [] ∧ rd_buf st = [] ∧ raw_in st = [] ∧ st1 = st) ∨
     (err = None ∧ (rd_buf st ≠ [] ∨ raw_in st ≠ []) ∧
      got = take k (firstDelivery st) ∧
      got ++ pending st1 = pending st ∧
      (length (raw_in st1) ≤ length (raw_in st))%nat ∧
      (got = [] -> (length (raw_in st1) < length (raw_in st))%nat))).
Proof.
  intros Hk. destruct k as [|k]; [lia|].
  destruct st as [buf raw wbuf out]. unfold rw_Read, firstDelivery, pending.
  cbn [rd_buf raw_in rw_buf rw_out].
  destruct buf as [|b buf].
  - destruct raw as [|c rest].
    + destruct (defaultBufSize <=? S k)%nat; cbn [raw_Read];
        (eexists _, _, _; split; [reflexivity|split; [done|split; [done|by left]]]).
    + assert (Hraw : ∀ n, (0 < n)%nat ->
                ∃ raw', raw_Read n (c :: rest) = (take n c, None, raw') ∧
                        take n c ++ concat raw' = concat (c :: rest) ∧
                        (length raw' ≤ length (c :: rest))%nat ∧
                        (take n c = [] -> raw' = rest)).
      { intros n Hn. cbn [raw_Read]. eexists. split; [reflexivity|].
        destruct (drop n c) as [|r rs] eqn:Hd.
        - split; [|split; [cbn; lia|done]].
          cbn [concat]. rewrite <- (take_drop n c) at 2. by rewrite Hd, app_nil_r.
        - split; [|split; [cbn; lia|]].
          + cbn [concat]. rewrite <- Hd, app_assoc, take_drop. done.
          + intros Ht. destruct n; [lia|]. destruct c; [done|done]. }
      destruct (defaultBufSize <=? S k)%nat eqn:E.
      * destruct (Hraw (S k) ltac:(lia)) as (raw' & -> & Hcat & Hlen & Hempty).
        eexists _, _, _. split; [reflexivity|]. split; [done|]. split; [done|]. right.
        cbn [rd_buf raw_in app]. split; [done|]. split; [by right|]. split; [done|].
        split; [done|]. split; [done|]. intros Ht. rewrite (Hempty Ht). cbn. lia.
      * apply Nat.leb_gt in E.
        destruct (Hraw defaultBufSize ltac:(lia)) as (raw' & -> & Hcat & Hlen & Hempty).
        destruct (take defaultBufSize c) as [|g got] eqn:Hg.
        -- eexists _, _, _. split; [reflexivity|]. split; [done|]. split; [done|]. right.
           cbn [rd_buf raw_in app]. split; [done|]. split; [by right|].
           assert (c = []) as -> by (destruct c; [done|]; unfold defaultBufSize in Hg; done).
           split; [done|]. split; [done|]. split; [done|]. intros _.
           rewrite (Hempty eq_refl). cbn. lia.
        -- eexists _, _, _. split; [reflexivity|]. split; [done|]. split; [done|]. right.
           cbn [rd_buf raw_in]. split; [done|]. split; [by right|].
           rewrite <- Hg in *. split; [by rewrite take_take, Nat.min_l by lia|].
           split; [rewrite app_assoc, take_drop; exact Hcat|]. split; [done|].
           rewrite Hg. destruct k; done.
  - eexists _, _, _. split; [reflexivity|]. split; [done|]. split; [done|]. right.
    cbn [rd_buf raw_in]. split; [done|]. split; [by left|]. split; [done|].
    split; [by rewrite app_assoc, take_drop|]. split; [done|]. done.
Qed.


Lemma ReadAtLeast_loop_spec : ∀ fuel need acc st,
  (need + length (raw_in st) < fuel)%nat ->
  ∃ st',
    ReadAtLeast_loop fuel need acc st =
      Some (acc ++ take need (pending st),
            fullErr need (acc ++ take need (pending st)) (pending st), st') ∧
    pending st' = drop need (pending st) ∧
    rw_buf st' = rw_buf st ∧ rw_out st' = rw_out st.
Proof.
  induction fuel as [|fuel IH]; intros need acc st Hfuel; [lia|].
  destruct need as [|need].
  - cbn [ReadAtLeast_loop]. exists st. rewrite take_0, app_nil_r, drop_0.
    unfold fullErr. cbn. done.
  - cbn [ReadAtLeast_loop].
    destruct (rw_Read_spec (S need) st ltac:(lia))
      as (got & err & st1 & -> & Hb & Ho & [(-> & -> & Hbuf & Hraw & ->)|Hok]).
    + assert (Hp : pending st = []) by (unfold pending; by rewrite Hbuf, Hraw).
      rewrite Hp, take_nil, drop_nil, !app_nil_r. unfold fullErr. cbn [length Nat.leb is_EOF].
      exists st. rewrite Hp. destruct acc; done.
    + destruct Hok as (-> & _ & Hgot & Hcat & Hlen & Hempty).
      assert (Hgl : (length got ≤ S need)%nat) by (rewrite Hgot, length_take; lia).
      destruct (IH (S need - length got)%nat (acc ++ got) st1) as (st' & Heq & Hp & Hb' & Ho').
      { destruct got as [|g got]; [specialize (Hempty eq_refl); cbn; lia|].
        cbn [length] in *. lia. }
      exists st'. rewrite Heq, <- Hcat.
      rewrite (take_app_ge got) by lia. rewrite (drop_app_ge got) by lia.
      rewrite <- !app_assoc. split; [|by rewrite Hp, Hb', Ho'].
      f_equal. f_equal. unfold fullErr. rewrite !length_app.
      destruct (S need - length got <=? length (pending st1))%nat eqn:E1;
        destruct (S need <=? length got + length (pending st1))%nat eqn:E2;
        try done.
      * apply Nat.leb_le in E1. apply Nat.leb_gt in E2. lia.
      * apply Nat.leb_gt in E1. apply Nat.leb_le in E2. lia.
Qed.

Lemma io_ReadFull_spec (n : nat) (st : BaseStream) :
  ∃ st',
    io_ReadFull n st =
      Some (take n (pending st) ++ replicate (n - length (pending st)) Byte.x00,
            len (take n (pending st)),
            fullErr n (take n (pending st)) (pending st), st') ∧
    pending st' = drop n (pending st) ∧
    rw_buf st' = rw_buf st ∧ rw_out st' = rw_out st.
Proof.
  unfold io_ReadFull.
  destruct (ReadAtLeast_loop_spec (S (n + length (raw_in st))) n [] st ltac:(lia))
    as (st' & -> & Hp & Hb & Ho).
  exists st'. cbn [app]. split; [|done].
  replace (n - length (take n (pending st)))%nat with (n - length (pending st))%nat
    by (rewrite length_take; lia).
  done.
Qed.

Lemma ReadBytes_eof (st : BaseStream) :
  rd_buf st = [] -> raw_in st = [] ->
  ReadBytes st = (Some (None, Some (errors_Wrap io_EOF "read size")), st).
Proof.
  destruct st as [buf raw wb out]. cbn [rd_buf raw_in]. intros -> ->.
  unfold ReadBytes, rw_Read. change (Z.to_nat sizeBytes) with 4%nat.
  cbn [rd_buf raw_in rw_buf rw_out]. replace (defaultBufSize <=? 4)%nat with false
    by (symmetry; exact small_read).
  reflexivity.
Qed.

(** [ReadBytes] on a stream that is not at its end: the [Read] of the size
    returns [h], at most 4 bytes of what is within reach, and the size is
    decoded from [h] alone. *)
Lemma ReadBytes_spec (st : BaseStream) :
  rd_buf st ≠ [] ∨ raw_in st ≠ [] ->
  let h := take 4 (firstDelivery st) in
  let size := Z.to_nat (le_combine h) in
  let tail := drop (length h) (pending st) in
  ∃ st', rw_buf st' = rw_buf st ∧ rw_out st' = rw_out st ∧
    if le_combine h >? maxMsgBytes
    then ReadBytes st = (Some (None, Some (errors_New "message size exceed max")), st') ∧
         pending st' = tail
    else ReadBytes st =
           (Some (Some (take size tail ++ replicate (size - length tail) Byte.x00),
                  (fun e => errors_Wrap e "read content") <$>
                    fullErr size (take size tail) tail), st') ∧
         pending st' = drop size tail.
Proof.
  intros Hne h size tail. unfold ReadBytes. change (Z.to_nat sizeBytes) with 4%nat.
  destruct (rw_Read_spec 4 st ltac:(lia))
    as (got & err & st1 & -> & Hb & Ho & [(_ & _ & Hbuf & Hraw & _)|Hok]).
  { destruct Hne as [Hne|Hne]; congruence. }
  destruct Hok as (-> & _ & Hgot & Hcat & _). fold h in Hgot. subst got.
  assert (Hhl : (length h ≤ 4)%nat) by (unfold h; rewrite length_take; lia).
  destruct (bytesToInt_padded h Hhl) as (-> & Hrange & _).
  assert (Htail : tail = pending st1).
  { unfold tail. by rewrite <- Hcat, drop_app_length. }
  destruct (le_combine h >? maxMsgBytes) eqn:E.
  { exists st1. rewrite Htail. done. }
  destruct (io_ReadFull_spec size st1) as (st' & Heq & Hp & Hb' & Ho').
  fold size. rewrite Heq. exists st'. rewrite Htail.
  split; [congruence|]. split; [congruence|]. split; [|done].
  unfold fullErr. destruct (size <=? length (pending st1))%nat eqn:El.
  - apply Nat.leb_le in El. rewrite decide_False; [done|].
    intros Hn. apply Hn. unfold len. rewrite length_take, Nat.min_l by lia.
    unfold size. lia.
  - done.
Qed.

(** The round trip when the size arrives in one piece, whatever the pieces
    in which the rest arrives. *)
Lemma ReadBytes_whole_header (b rest : list byte) (st : BaseStream) :
  len b <= maxMsgBytes ->
  (4 ≤ length (firstDelivery st))%nat ->
  pending st = frame b ++ rest ->
  ∃ st', ReadBytes st = (Some (Some b, None), st') ∧ pending st' = rest ∧
         rw_buf st' = rw_buf st ∧ rw_out st' = rw_out st.
Proof.
  intros Hb Hfd Hp. pose proof maxMsgBytes_lt as Hmax.
  assert (Hne : rd_buf st ≠ [] ∨ raw_in st ≠ []).
  { unfold firstDelivery in Hfd. destruct (rd_buf st); [|by left].
    destruct (raw_in st); [cbn in Hfd; lia|by right]. }
  destruct (ReadBytes_spec st Hne) as (st' & Hb' & Ho' & Hspec).
  assert (Hh : take 4 (firstDelivery st) = intToBytes (len b)).
  { destruct (firstDelivery_prefix st) as [k Hk].
    assert (take 4 (pending st) = take 4 (firstDelivery st))
      by (rewrite Hk, take_app_le by lia; done).
    rewrite <- H, Hp. unfold frame. rewrite <- app_assoc.
    by rewrite (take_app_length' (intToBytes (len b))). }
  rewrite Hh in Hspec. rewrite le_combine_intToBytes in Hspec by (unfold len in *; lia).
  destruct (len b >? maxMsgBytes) eqn:E; [lia|].
  rewrite Hp in Hspec. unfold frame in Hspec. rewrite <- app_assoc in Hspec.
  rewrite (drop_app_length' (intToBytes (len b))) in Hspec by done.
  unfold len in Hspec. rewrite Nat2Z.id in Hspec.
  rewrite take_app_length, drop_app_length in Hspec.
  destruct Hspec as [Heq Hpend]. exists st'. split; [|done].
  rewrite Heq. unfold fullErr. rewrite length_app.
  replace (length b <=? length b + length rest)%nat with true
    by (symmetry; apply Nat.leb_le; lia).
  replace (length b - (length b + length rest))%nat with 0%nat by lia.
  cbn. by rewrite app_nil_r.
Qed.

(** [ReadBytes] returns on every stream: the outcome [None] is not reached. *)
Lemma ReadBytes_returns (st : BaseStream) :
  ∃ r st', ReadBytes st = (Some r, st').
Proof.
  destruct (decide (rd_buf st = [] ∧ raw_in st = [])) as [[Hb Hr]|Hne].
  - rewrite (ReadBytes_eof st Hb Hr). eauto.
  - assert (Hne' : rd_buf st ≠ [] ∨ raw_in st ≠ []).
    { destruct (rd_buf st); [|by left]. destruct (raw_in st); [|by right].
      exfalso. by apply Hne. }
    destruct (ReadBytes_spec st Hne') as (st' & _ & _ & Hspec).
    destruct (le_combine (take 4 (firstDelivery st)) >? maxMsgBytes);
      destruct Hspec as [-> _]; eauto.
Qed.

Lemma defaultBufSize_large : (4 < defaultBufSize)%nat.
Proof. apply Nat.ltb_lt. vm_compute. reflexivity. Qed.

Lemma ReadAtLeast_loop_buffered fuel acc buf raw wb out :
  (0 < fuel)%nat ->
  ReadAtLeast_loop fuel (length buf) acc (mkBaseStream buf raw wb out) =
    Some (acc ++ buf, None, mkBaseStream [] raw wb out).
Proof.
  intros Hf. destruct buf as [|b l].
  - destruct fuel; cbn [ReadAtLeast_loop length]; by rewrite app_nil_r.
  - destruct fuel as [|fuel]; [lia|]. cbn [ReadAtLeast_loop length].
    unfold rw_Read. cbn [rd_buf raw_in rw_buf rw_out].
    rewrite (take_ge (b :: l)), (drop_ge (b :: l)) by (cbn; lia).
    replace (S (length l) - length (b :: l))%nat with 0%nat by (cbn; lia).
    destruct fuel; reflexivity.
Qed.

Lemma ReadAtLeast_loop_delivery fuel acc c rest wb out :
  c ≠ [] -> (0 < fuel)%nat ->
  ReadAtLeast_loop fuel (length c) acc (mkBaseStream [] (c :: rest) wb out) =
    Some (acc ++ c, None, mkBaseStream [] rest wb out).
Proof.
  intros Hc Hf. destruct fuel as [|fuel]; [lia|].
  destruct c as [|b l] eqn:Ec; [done|]. rewrite <- Ec in *.
  assert (Hl : length c = S (length l)) by (by rewrite Ec).
  rewrite Hl. cbn [ReadAtLeast_loop]. rewrite <- Hl.
  unfold rw_Read. rewrite Hl at 1. cbn [rd_buf raw_in rw_buf rw_out].
  destruct (defaultBufSize <=? length c)%nat eqn:E.
  - cbn [raw_Read]. rewrite firstn_all, drop_all, Nat.sub_diag.
    destruct fuel; reflexivity.
  - apply Nat.leb_gt in E. cbn [raw_Read].
    rewrite (take_ge c), (drop_ge c) by lia.
    rewrite Ec at 1. rewrite firstn_all, drop_all, Nat.sub_diag.
    destruct fuel; reflexivity.
Qed.

Lemma ReadAtLeast_loop_both fuel acc buf c rest wb out :
  c ≠ [] -> (1 < fuel)%nat ->
  ReadAtLeast_loop fuel (length buf + length c) acc (mkBaseStream buf (c :: rest) wb out) =
    Some (acc ++ buf ++ c, None, mkBaseStream [] rest wb out).
Proof.
  intros Hc Hf. destruct buf as [|b l].
  - cbn [length Nat.add app]. apply ReadAtLeast_loop_delivery; [done|lia].
  - destruct fuel as [|fuel]; [lia|]. cbn [length Nat.add ReadAtLeast_loop].
    unfold rw_Read. cbn [rd_buf raw_in rw_buf rw_out].
    rewrite (take_ge (b :: l)), (drop_ge (b :: l)) by (cbn; lia).
    replace (S (length l + length c) - length (b :: l))%nat with (length c) by (cbn; lia).
    rewrite ReadAtLeast_loop_delivery by (done || lia). by rewrite <- app_assoc.
Qed.

(** A frame that the raw stream delivers in one piece, with nothing else in
    that piece, is read back, and the stream is left at the next delivery. *)
Lemma ReadBytes_delivery (b : list byte) (rest : list (list byte)) (wb out : list byte) :
  len b <= maxMsgBytes ->
  ReadBytes (mkBaseStream [] (frame b :: rest) wb out) =
    (Some (Some b, None), mkBaseStream [] rest wb out).
Proof.
  intros Hb. pose proof maxMsgBytes_lt as Hmax. pose proof defaultBufSize_large as HD.
  assert (Hfl : length (frame b) = (4 + length b)%nat) by (unfold frame; by rewrite length_app).
  unfold ReadBytes, rw_Read. change (Z.to_nat sizeBytes) with 4%nat.
  cbn [rd_buf raw_in rw_buf rw_out].
  replace (defaultBufSize <=? 4)%nat with false by (symmetry; apply Nat.leb_gt; lia).
  cbn [raw_Read].
  assert (Ht4 : take 4 (take defaultBufSize (frame b)) = intToBytes (len b)).
  { rewrite take_take, Nat.min_l by lia. unfold frame.
    by rewrite (take_app_length' (intToBytes (len b))). }
  remember (take defaultBufSize (frame b)) as t eqn:Ht.
  destruct t as [|g got].
  { exfalso. apply (f_equal length) in Ht. rewrite length_take in Ht. cbn [length] in Ht. lia. }
  cbv beta iota zeta. rewrite Ht4. change (4 - length (intToBytes (len b)))%nat with 0%nat.
  cbn [replicate]. rewrite Ht.
  rewrite bytesToInt_intToBytes by (unfold len in *; lia).
  destruct (len b >? maxMsgBytes) eqn:E; [lia|].
  unfold len at 1. rewrite Nat2Z.id. unfold io_ReadFull. cbn [raw_in].
  destruct (decide (length (frame b) ≤ defaultBufSize)%nat) as [Hle|Hgt].
  - rewrite (take_ge (frame b)), (drop_ge (frame b)) by lia.
    assert (Hd : drop 4 (frame b) = b).
    { unfold frame. by rewrite (drop_app_length' (intToBytes (len b))). }
    rewrite Hd. rewrite ReadAtLeast_loop_buffered by lia.
    cbn [app]. rewrite Nat.sub_diag. cbn [replicate]. rewrite app_nil_r.
    rewrite decide_False by (intros Hn; by apply Hn). done.
  - destruct (drop defaultBufSize (frame b)) as [|r rs] eqn:Hd.
    { exfalso. apply (f_equal length) in Hd. rewrite length_drop in Hd. cbn [length] in Hd. lia. }
    rewrite <- Hd.
    set (bf := drop 4 (take defaultBufSize (frame b))).
    set (c := drop defaultBufSize (frame b)).
    assert (Hb4 : bf ++ c = b).
    { unfold bf, c. rewrite <- (drop_app_le _ _ 4) by (rewrite length_take; lia).
      rewrite take_drop. unfold frame. by rewrite (drop_app_length' (intToBytes (len b))). }
    assert (Hlen : length b = (length bf + length c)%nat) by (by rewrite <- Hb4, length_app).
    rewrite Hlen at 1 2.
    rewrite ReadAtLeast_loop_both; [|unfold c; by rewrite Hd|lia].
    cbn [app]. rewrite Hb4, Nat.sub_diag. cbn [replicate]. rewrite app_nil_r.
    rewrite decide_False by (intros Hn; by apply Hn). done.
Qed.
End FramingFacts.

Section FramingRuns.
Import sttypes notions samples.

(** C9. Runs of the framing.  [WriteBytes] puts the 4-byte little-endian
    size and then the payload on the wire, and [ReadBytes] returns the payload
    when the frame arrives in one piece.  But [ReadBytes] reads the size with
    one [Read] and drops its count.  When the first byte of the frame arrives
    on its own, the size is decoded from that byte, and the rest of the
    header is returned as payload, without error.  When two frames arrive in
    one piece and the first payload has 4090 bytes, the buffer of the reader
    ends inside the second header, and the second call returns a wrong
    payload without error.  And a header that declares 32 MiB and arrives in
    two pieces is not rejected: an empty message is returned. *)
Theorem short_header_read_breaks_framing :
  WriteBytes payload idle = (None, mkBaseStream [] [] [] (frame payload)) ∧
  ReadBytes (mkBaseStream [] [frame payload] [] []) = (Some (Some payload, None), idle) ∧
  pending slowHeader = frame payload ∧
  ReadBytes slowHeader =
    (Some (Some [Byte.x00; Byte.x00], None),
     mkBaseStream [Byte.x00; Byte.x68; Byte.x69] [] [] []) ∧
  ReadBytes coalesced =
    (Some (Some (replicate 4090 Byte.x61), None),
     mkBaseStream [Byte.x02; Byte.x00] [ [Byte.x00; Byte.x00; Byte.x68; Byte.x69] ] [] []) ∧
  ReadBytes (ReadBytes coalesced).2 =
    (Some (Some [Byte.x00; Byte.x00], None), mkBaseStream payload [] [] []) ∧
  le_combine (pending slowOversize) = 32 * 1024 * 1024 ∧
  ReadBytes slowOversize = (Some (Some [], None), mkBaseStream [] [ [Byte.x02] ] [] []).
Proof. repeat split; vm_compute; reflexivity. Qed.
End FramingRuns.

(** ** Tally and hash chain *)

Section TallyFacts.

Import downloader downloader.BlockHashResults.


Lemma int_wrap_small z : - 2 ^ 63 <= z < 2 ^ 63 -> int_wrap z = z.
Proof. intros Hz. unfold int_wrap. rewrite Z.mod_small; lia. Qed.

Lemma size_filter_map_to_list {A} (Q : string * A -> Prop) `{!∀ x, Decision (Q x)}
    (m : gmap string A) :
  size (filter Q m) = length (filter Q (map_to_list m)).
Proof.
  rewrite <- length_map_to_list. apply Permutation_length.
  apply NoDup_Permutation.
  - apply NoDup_map_to_list.
  - apply NoDup_filter, NoDup_map_to_list.
  - intros [i x]. rewrite elem_of_map_to_list, map_lookup_filter_Some.
    rewrite list_elem_of_filter, elem_of_map_to_list. tauto.
Qed.

Lemma cnt_snoc W h l st h' :
  cnt W h (l ++ [(st, h')]) =
    (cnt W h l + if decide (counted W st ∧ h' = h) then 1 else 0)%nat.
Proof.
  unfold cnt. rewrite !filter_app, length_app. f_equal.
  rewrite filter_cons, filter_nil. cbn [fst].
  destruct (decide (counted W st)) as [Hc|Hc].
  - rewrite filter_cons, filter_nil. cbn [snd].
    destruct (decide (h' = h)); [rewrite decide_True by done|rewrite decide_False by tauto]; done.
  - rewrite filter_nil, decide_False by tauto. done.
Qed.

Lemma cnt_le_length W h l : (cnt W h l ≤ length l)%nat.
Proof.
  unfold cnt. etransitivity; [apply length_filter|apply length_filter].
Qed.

Lemma voteCount_cnt V W h l :
  l ≡ₚ map_to_list V -> voteCount V W h = cnt W h l.
Proof.
  intros Hl. unfold voteCount, countedVotes, cnt.
  rewrite map_filter_filter, size_filter_map_to_list, <- Hl.
  rewrite list_filter_filter. f_equal. apply list_filter_iff. intros [? ?]; cbn. tauto.
Qed.

Lemma not_counted_iff (W : gset string) st :
  (size W ≠ 0%nat ∧ st ∉ W) ↔ ¬ counted W st.
Proof.
  unfold counted. split.
  - intros [H1 H2] [H|H]; tauto.
  - intros H. split; intros H'; apply H; tauto.
Qed.

Lemma votes_of_insert vm h c h' :
  votes_of (<[h := c]> vm) h' = if decide (h = h') then c else votes_of vm h'.
Proof.
  unfold votes_of. rewrite lookup_insert. destruct (decide (h = h')); done.
Qed.

Lemma countVote_inv W l t e :
  Z.of_nat (length l) + 1 < 2 ^ 63 ->
  tally_inv W l t -> tally_inv W (l ++ [e]) (countVote W t e).
Proof.
  intros Hlen (Hv & Hmax & Hres). destruct e as [st h]. unfold countVote.
  destruct (decide (size W ≠ 0%nat ∧ st ∉ W)) as [Hn|Hn].
  { apply not_counted_iff in Hn.
    assert (Hc : ∀ h0, cnt W h0 (l ++ [(st, h)]) = cnt W h0 l).
    { intros h0. rewrite cnt_snoc, decide_False by tauto. lia. }
    unfold tally_inv. setoid_rewrite Hc. done. }
  assert (Hcounted : counted W st).
  { destruct (decide (counted W st)) as [|Hc]; [done|].
    apply not_counted_iff in Hc. done. }
  set (voteM1 := if decide (is_Some (voteM t !! h)) then voteM t else <[h:=0]> (voteM t)).
  assert (Hv1 : ∀ h0, votes_of voteM1 h0 = votes_of (voteM t) h0).
  { intros h0. unfold voteM1. destruct (decide (is_Some (voteM t !! h))) as [|Hnone]; [done|].
    rewrite votes_of_insert. destruct (decide (h = h0)) as [<-|]; [|done].
    unfold votes_of. apply eq_None_not_Some in Hnone. by rewrite Hnone. }
  pose proof (cnt_le_length W h l) as Hle.
  assert (Hw : int_wrap (votes_of voteM1 h + 1) = Z.of_nat (cnt W h l) + 1).
  { rewrite Hv1, Hv. apply int_wrap_small. lia. }
  rewrite Hw.
  assert (Hc : ∀ h0, Z.of_nat (cnt W h0 (l ++ [(st, h)])) =
                     if decide (h = h0) then Z.of_nat (cnt W h0 l) + 1 else Z.of_nat (cnt W h0 l)).
  { intros h0. rewrite cnt_snoc. destruct (decide (h = h0)) as [->|Hne].
    - rewrite decide_True by done. lia.
    - rewrite decide_False by tauto. lia. }
  assert (Hv2 : ∀ h0, votes_of (<[h:=Z.of_nat (cnt W h l) + 1]> voteM1) h0 =
                      Z.of_nat (cnt W h0 (l ++ [(st, h)]))).
  { intros h0. rewrite votes_of_insert, Hc. destruct (decide (h = h0)) as [->|]; [done|].
    by rewrite Hv1, Hv. }
  rewrite Hv2.
  destruct (Z.of_nat (cnt W h (l ++ [(st, h)])) >? maxCnt t) eqn:Hgt.
  - split; [|split]; cbn [voteM res maxCnt].
    + exact Hv2.
    + intros h0. rewrite (Hc h), decide_True in * by done. rewrite (Hc h0).
      destruct (decide (h = h0)) as [->|]; [lia|].
      specialize (Hmax h0). lia.
    + right. rewrite (Hc h), decide_True in * by done. split; [|done]. specialize (Hmax h). lia.
  - split; [|split]; cbn [voteM res maxCnt].
    + exact Hv2.
    + intros h0. rewrite (Hc h0). destruct (decide (h = h0)) as [<-|]; [|apply Hmax].
      rewrite (Hc h), decide_True in Hgt by done. lia.
    + rewrite (Hc h), decide_True in Hgt by done.
      destruct Hres as [[H0 He]|[Hpos He]].
      * specialize (Hmax h). lia.
      * right. split; [done|]. rewrite (Hc (res t)).
        destruct (decide (h = res t)) as [->|]; [lia|done].
Qed.

Lemma foldl_countVote_inv W l :
  Z.of_nat (length l) < 2 ^ 63 ->
  tally_inv W l (foldl (countVote W) (mkTally ∅ emptyHash 0) l).
Proof.
  induction l as [|e l IH] using rev_ind; intros Hlen.
  - split; [|split]; cbn; [done|done|by left].
  - rewrite length_app in Hlen. cbn in Hlen.
    rewrite foldl_snoc. apply countVote_inv; [lia|]. apply IH. lia.
Qed.

Lemma foldl_keepVoter W winner l acc st :
  st ∈ foldl (keepVoter W winner) acc l ↔
  st ∈ acc ∨ ((st, winner) ∈ l ∧ counted W st).
Proof.
  revert acc. induction l as [|[st' h] l IH]; intros acc; cbn [foldl].
  - rewrite elem_of_nil. tauto.
  - rewrite IH, elem_of_cons. unfold keepVoter, counted.
    repeat case_decide; set_unfold; naive_solver lia.
Qed.


Lemma countedVotes_lookup V W st h :
  countedVotes V W !! st = Some h ↔ V !! st = Some h ∧ counted W st.
Proof. unfold countedVotes. rewrite map_lookup_filter_Some. done. Qed.

Lemma voteCount_pos V W st h :
  countedVotes V W !! st = Some h -> (0 < voteCount V W h)%nat.
Proof.
  intros Hst. unfold voteCount.
  assert (Hne : filter (λ e : string * Z, e.2 = h) (countedVotes V W) ≠ ∅).
  { intros He. apply (map_filter_empty_not_lookup _ _ st h) in He; [|done]. by apply He. }
  apply map_size_non_empty_iff in Hne. lia.
Qed.

Lemma voteCount_zero V W h :
  countedVotes V W = ∅ -> voteCount V W h = 0%nat.
Proof. intros He. unfold voteCount. rewrite He, map_filter_empty. apply map_size_empty. Qed.

(** C1. The tally of one height.  For every vote table [V] and prior
    whitelist [W], whatever the order in which the loops visit [V]:
    (i) a vote is counted exactly when its stream is in [W], or [W] is empty;
    (ii) the winner has at least as many counted votes as any hash, and is
    the vote of a counted stream when there is one;
    (iii) the next whitelist is the set of the counted streams that voted for
    the winner: it lies in [dom V ∩ W] for a non-empty [W] and in [dom V]
    always, and each of its members voted for the winner;
    (iv) without a counted vote ([V] empty, or [W] non-empty and disjoint
    from [dom V]) the winner is [emptyHash] and the next whitelist is empty.
    The size of a Go map is an [int], which is the second hypothesis. *)
Theorem countHashMaxVote_tally
    (rangeMap : nat -> gmap string Z -> list (string * Z))
    (t : nat) (V : gmap string Z) (W : gset string) :
  enumerates rangeMap ->
  Z.of_nat (size V) < 2 ^ 63 ->
  let winner := (countHashMaxVote rangeMap t V W).1 in
  let nextWl := (countHashMaxVote rangeMap t V W).2 in
  (* (i) the counted votes *)
  (∀ st h, countedVotes V W !! st = Some h ↔
           V !! st = Some h ∧ (W = ∅ ∨ st ∈ W)) ∧
  (* (ii) the winner attains the maximum *)
  (∀ h, (voteCount V W h ≤ voteCount V W winner)%nat) ∧
  (countedVotes V W ≠ ∅ -> ∃ st, countedVotes V W !! st = Some winner) ∧
  (* (iii) the next whitelist *)
  (∀ st, st ∈ nextWl ↔ countedVotes V W !! st = Some winner) ∧
  (W ≠ ∅ -> nextWl ⊆ dom V ∩ W) ∧
  nextWl ⊆ dom V ∧
  (∀ st, st ∈ nextWl -> V !! st = Some winner) ∧
  (* (iv) no counted vote *)
  (countedVotes V W = ∅ -> winner = emptyHash ∧ nextWl = ∅) ∧
  (V = ∅ -> countedVotes V W = ∅) ∧
  (W ≠ ∅ -> W ## dom V -> countedVotes V W = ∅).
Proof.
  intros Hrange Hsize winner nextWl.
  pose proof (Hrange t V) as H1. pose proof (Hrange (S t) V) as H2.
  assert (Hlen : Z.of_nat (length (rangeMap t V)) < 2 ^ 63).
  { rewrite H1, length_map_to_list. done. }
  pose proof (foldl_countVote_inv W _ Hlen) as (Hv & Hmax & Hres).
  fold winner in Hres.
  change (res (foldl (countVote W) (mkTally ∅ emptyHash 0) (rangeMap t V))) with winner in Hres.
  assert (HW : ∀ st, counted W st ↔ (W = ∅ ∨ st ∈ W)).
  { intros st. unfold counted. rewrite size_empty_iff. unfold_leibniz. done. }
  assert (Hnext : ∀ st, st ∈ nextWl ↔ countedVotes V W !! st = Some winner).
  { intros st. unfold nextWl, countHashMaxVote. cbn [snd].
    rewrite foldl_keepVoter, countedVotes_lookup, H2, elem_of_map_to_list.
    set_solver. }
  assert (Hcount : ∀ h, Z.of_nat (voteCount V W h) <= Z.of_nat (voteCount V W winner) ∧
                        (countedVotes V W ≠ ∅ -> (0 < voteCount V W winner)%nat) ∧
                        (countedVotes V W = ∅ -> winner = emptyHash)).
  { intros h. rewrite !(voteCount_cnt V W _ _ H1).
    destruct Hres as [[H0 He]|[Hpos He]].
    - split; [|split].
      + pose proof (Hmax h). pose proof (Hmax winner). lia.
      + intros Hne. apply map_choose in Hne as (st & h' & Hst).
        apply voteCount_pos in Hst. rewrite (voteCount_cnt V W _ _ H1) in Hst.
        pose proof (Hmax h'). lia.
      + done.
    - split; [|split].
      + pose proof (Hmax h). lia.
      + intros _. lia.
      + intros Hemp. pose proof (voteCount_zero V W winner Hemp) as Hz.
        rewrite (voteCount_cnt V W _ _ H1) in Hz. lia. }
  split; [|split; [|split; [|split; [|split; [|split; [|split; [|split; [|split]]]]]]]].
  - intros st h. rewrite countedVotes_lookup, HW. done.
  - intros h. destruct (Hcount h) as [Hle _]. lia.
  - intros Hne. destruct (Hcount 0) as (_ & Hpos & _). specialize (Hpos Hne).
    unfold voteCount in Hpos.
    destruct (decide (filter (λ e : string * Z, e.2 = winner) (countedVotes V W) = ∅)) as [He|He].
    { rewrite He, map_size_empty in Hpos. lia. }
    apply map_choose in He as (st & h' & Hst).
    apply map_lookup_filter_Some in Hst as [Hst Heq]. cbn in Heq. subst h'. eauto.
  - exact Hnext.
  - intros HWne st Hst. apply Hnext, countedVotes_lookup in Hst as [Hst Hc].
    apply HW in Hc. rewrite elem_of_intersection, elem_of_dom. split; [eauto|].
    destruct Hc; done.
  - intros st Hst. apply Hnext, countedVotes_lookup in Hst as [Hst _].
    rewrite elem_of_dom. eauto.
  - intros st Hst. by apply Hnext, countedVotes_lookup in Hst as [Hst _].
  - intros Hemp. split; [by apply (Hcount 0)|].
    apply set_eq. intros st. rewrite Hnext, Hemp, lookup_empty. set_solver.
  - intros ->. unfold countedVotes. apply map_filter_empty.
  - intros HWne Hdisj. apply map_empty. intros st.
    destruct (countedVotes V W !! st) as [h|] eqn:E; [|done].
    apply countedVotes_lookup in E as [Hst Hc]. apply HW in Hc.
    destruct Hc as [?|Hin]; [done|].
    exfalso. apply (Hdisj st Hin). rewrite elem_of_dom. eauto.
Qed.

(** The winner is the zero hash or the vote of a counted stream, whatever the
    size of the table. *)
Lemma foldl_countVote_res W l t :
  (res t = emptyHash ∨ ∃ st, (st, res t) ∈ l ∧ counted W st) ->
  ∀ l', let t' := foldl (countVote W) t l' in
        res t' = emptyHash ∨ ∃ st, (st, res t') ∈ l ++ l' ∧ counted W st.
Proof.
  intros Ht l'. revert l t Ht. induction l' as [|[st h] l' IH]; intros l t Ht; cbn [foldl].
  - rewrite app_nil_r. done.
  - replace (l ++ (st, h) :: l') with ((l ++ [(st, h)]) ++ l') by (by rewrite <- app_assoc).
    apply IH. unfold countVote.
    destruct (decide (size W ≠ 0%nat ∧ st ∉ W)) as [Hn|Hn].
    { destruct Ht as [?|(st' & Hin & Hc)]; [by left|right].
      exists st'. rewrite elem_of_app. tauto. }
    assert (Hcounted : counted W st).
    { destruct (decide (counted W st)) as [|Hc]; [done|].
      apply not_counted_iff in Hc. done. }
    match goal with |- context [if ?b then _ else _] => destruct b end; cbn [res].
    + right. exists st. rewrite elem_of_app, list_elem_of_singleton. tauto.
    + destruct Ht as [?|(st' & Hin & Hc)]; [by left|right].
      exists st'. rewrite elem_of_app. tauto.
Qed.

Section ChainFacts.

Variable rangeMap : nat -> gmap string Z -> list (string * Z).
Hypothesis Hrange : enumerates rangeMap.

Lemma nextWl_spec t V W st :
  st ∈ (countHashMaxVote rangeMap t V W).2 ↔
  countedVotes V W !! st = Some (countHashMaxVote rangeMap t V W).1.
Proof.
  unfold countHashMaxVote. cbn [fst snd].
  rewrite foldl_keepVoter, countedVotes_lookup, (Hrange (S t) V), elem_of_map_to_list.
  set_solver.
Qed.

Lemma winner_voted t V W :
  (countHashMaxVote rangeMap t V W).1 ≠ emptyHash ->
  ∃ st, countedVotes V W !! st = Some (countHashMaxVote rangeMap t V W).1.
Proof.
  intros Hne. unfold countHashMaxVote in *. cbn [fst] in *.
  destruct (foldl_countVote_res W [] (mkTally ∅ emptyHash 0) (or_introl eq_refl)
              (rangeMap t V)) as [He|(st & Hin & Hc)]; [done|].
  exists st. rewrite countedVotes_lookup. split; [|done].
  rewrite app_nil_l in Hin.
  set (w := res _) in *. clearbody w.
  rewrite (Hrange t V), elem_of_map_to_list in Hin. done.
Qed.

Lemma nextWl_nonempty t V W :
  (countHashMaxVote rangeMap t V W).1 ≠ emptyHash ->
  (countHashMaxVote rangeMap t V W).2 ≠ ∅.
Proof.
  intros Hne. destruct (winner_voted t V W Hne) as [st Hst].
  apply nextWl_spec in Hst. set_solver.
Qed.

Lemma nextWl_subseteq t V W :
  W ≠ ∅ -> (countHashMaxVote rangeMap t V W).2 ⊆ W.
Proof.
  intros HW st Hst. apply nextWl_spec, countedVotes_lookup in Hst as [_ [Hs|Hin]]; [|done].
  apply size_empty_iff in Hs. unfold_leibniz. done.
Qed.

Lemma no_counted_vote_empty t V W :
  countedVotes V W = ∅ -> (countHashMaxVote rangeMap t V W).1 = emptyHash.
Proof.
  intros Hemp.
  destruct (decide ((countHashMaxVote rangeMap t V W).1 = emptyHash)) as [|Hne]; [done|].
  destruct (winner_voted t V W Hne) as [st Hst]. rewrite Hemp, lookup_empty in Hst. done.
Qed.

Lemma chainLoop_length rs : ∀ i wl hc,
  (length hc ≤ length (chainLoop rangeMap i rs wl hc).1 ≤ length hc + length rs)%nat.
Proof.
  induction rs as [|V rs IH]; intros i wl hc; cbn [chainLoop length fst].
  - lia.
  - destruct (countHashMaxVote rangeMap (2 * i) V wl) as [h nw].
    destruct (decide (h = emptyHash)); cbn [fst]; [lia|].
    specialize (IH (S i) nw (hc ++ [h])). rewrite length_app in IH. cbn in IH. lia.
Qed.

Lemma chainLoop_snoc rs x : ∀ i wl hc,
  chainLoop rangeMap i (rs ++ [x]) wl hc =
    if decide (length (chainLoop rangeMap i rs wl hc).1 = length hc + length rs)%nat
    then chainLoop rangeMap (i + length rs) [x]
           (chainLoop rangeMap i rs wl hc).2 (chainLoop rangeMap i rs wl hc).1
    else chainLoop rangeMap i rs wl hc.
Proof.
  induction rs as [|V rs IH]; intros i wl hc.
  - cbn [app chainLoop length fst snd]. rewrite decide_True by lia.
    by rewrite Nat.add_0_r.
  - cbn [app length]. cbn [chainLoop].
    destruct (countHashMaxVote rangeMap (2 * i) V wl) as [h nw].
    destruct (decide (h = emptyHash)).
    + cbn [fst snd]. rewrite decide_False by lia. done.
    + rewrite IH. rewrite length_app. cbn [length].
      replace (length hc + 1 + length rs)%nat with (length hc + S (length rs))%nat by lia.
      replace (S i + length rs)%nat with (i + S (length rs))%nat by lia.
      done.
Qed.

(** The state after one more iteration. *)
Lemma chainAfter_S r n V :
  results r !! n = Some V ->
  chainAfter rangeMap (S n) r =
    if decide (length (chainAfter rangeMap n r).1 = n)
    then
      let tl := countHashMaxVote rangeMap (2 * n) V (chainAfter rangeMap n r).2 in
      if decide (tl.1 = emptyHash) then chainAfter rangeMap n r
      else ((chainAfter rangeMap n r).1 ++ [tl.1], tl.2)
    else chainAfter rangeMap n r.
Proof.
  intros HV. unfold chainAfter. rewrite (take_S_r _ _ _ HV), chainLoop_snoc.
  apply lookup_lt_Some in HV.
  rewrite length_take, Nat.min_l by lia. cbn [length Nat.add].
  destruct (decide (length (chainLoop rangeMap 0 (take n (results r)) ∅ []).1 = n)); [|done].
  cbn [chainLoop].
  destruct (countHashMaxVote rangeMap (2 * n) V _) as [h nw]. cbn [fst snd].
  destruct (decide (h = emptyHash)); [|done].
  by destruct (chainLoop rangeMap 0 (take n (results r)) ∅ []).
Qed.

Lemma chainAfter_ge r n :
  (length (results r) ≤ n)%nat ->
  chainAfter rangeMap n r = chainLoop rangeMap 0 (results r) ∅ [].
Proof. intros Hn. unfold chainAfter. by rewrite take_ge. Qed.

Lemma chainAfter_length r n : (length (chainAfter rangeMap n r).1 ≤ n)%nat.
Proof.
  unfold chainAfter.
  pose proof (chainLoop_length (take n (results r)) 0 ∅ []) as H.
  rewrite length_take in H. cbn [length] in H. lia.
Qed.

(** Each iteration extends the chain by at most one hash. *)
Lemma chainAfter_step r n :
  (chainAfter rangeMap (S n) r = chainAfter rangeMap n r) ∨
  (∃ V, results r !! n = Some V ∧ length (chainAfter rangeMap n r).1 = n ∧
        let tl := countHashMaxVote rangeMap (2 * n) V (chainAfter rangeMap n r).2 in
        tl.1 ≠ emptyHash ∧
        chainAfter rangeMap (S n) r = ((chainAfter rangeMap n r).1 ++ [tl.1], tl.2)).
Proof.
  destruct (results r !! n) as [V|] eqn:HV.
  - rewrite (chainAfter_S r n V HV).
    destruct (decide (length (chainAfter rangeMap n r).1 = n)) as [Hl|]; [|by left].
    cbn zeta. destruct (decide (_ = emptyHash)) as [|Hne]; [by left|].
    right. exists V. done.
  - left. apply lookup_ge_None in HV. rewrite !chainAfter_ge by lia. done.
Qed.

Lemma chainAfter_prefix r n m :
  (n ≤ m)%nat -> (chainAfter rangeMap n r).1 `prefix_of` (chainAfter rangeMap m r).1.
Proof.
  induction 1 as [|m Hm IH]; [done|].
  etransitivity; [exact IH|].
  destruct (chainAfter_step r m) as [->|(V & _ & _ & _ & ->)]; [done|].
  cbn [fst]. by apply prefix_app_r.
Qed.

(** After a break the state stays as it is. *)
Lemma chainAfter_broken r n m :
  (n ≤ m)%nat -> (length (chainAfter rangeMap n r).1 < n)%nat ->
  chainAfter rangeMap m r = chainAfter rangeMap n r.
Proof.
  intros Hnm Hlt. induction Hnm as [|m Hm IH]; [done|].
  destruct (chainAfter_step r m) as [->|(V & _ & Hl & _)]; [done|].
  rewrite IH in Hl. lia.
Qed.

Lemma chainAfter_full r n :
  (n ≤ length (chainLoop rangeMap 0 (results r) ∅ []).1)%nat ->
  length (chainAfter rangeMap n r).1 = n.
Proof.
  intros Hn. pose proof (chainAfter_length r n) as Hle.
  destruct (decide (length (chainAfter rangeMap n r).1 = n)) as [|Hne]; [done|].
  assert (Hlt : (length (chainAfter rangeMap n r).1 < n)%nat) by lia.
  destruct (decide (n ≤ length (results r))%nat) as [Hn'|Hn'].
  - rewrite <- (chainAfter_ge r (length (results r))) in Hn by lia.
    rewrite (chainAfter_broken r n _ Hn' Hlt) in Hn. lia.
  - rewrite chainAfter_ge in Hlt by lia. lia.
Qed.

End ChainFacts.

Lemma chainAfter_whitelist_nonempty rangeMap r n :
  enumerates rangeMap ->
  (chainAfter rangeMap n r).1 ≠ [] -> (chainAfter rangeMap n r).2 ≠ ∅.
Proof.
  intros Hrange. induction n as [|n IH].
  - unfold chainAfter. rewrite take_0. cbn. done.
  - destruct (chainAfter_step rangeMap r n) as [->|(V & _ & _ & Hne & ->)]; [done|].
    cbn [snd]. intros _. by apply nextWl_nonempty.
Qed.

Lemma computeLongestHashChain_chainAfter rangeMap rangeSet r n :
  (length (results r) ≤ n)%nat ->
  computeLongestHashChain rangeMap rangeSet r =
    ((chainAfter rangeMap n r).1, rangeSet (chainAfter rangeMap n r).2).
Proof.
  intros Hn. unfold computeLongestHashChain. rewrite (chainAfter_ge rangeMap r n Hn).
  by destruct (chainLoop rangeMap 0 (results r) ∅ []).
Qed.

(** C2. The running whitelist of [computeLongestHashChain].  From the
    first resolved height on, the whitelist is non-empty and each further
    iteration leaves a subset of it; the function returns the chain and an
    enumeration of the whitelist of the last iteration; so the returned
    whitelist is non-empty whenever the returned chain is. *)
Theorem whitelist_non_increasing
    (rangeMap : nat -> gmap string Z -> list (string * Z))
    (rangeSet : gset string -> list string) (r : blockHashResults) :
  enumerates rangeMap ->
  enumeratesSet rangeSet ->
  (∀ n, (chainAfter rangeMap n r).1 ≠ [] ->
        (chainAfter rangeMap n r).2 ≠ ∅ ∧
        (chainAfter rangeMap (S n) r).2 ⊆ (chainAfter rangeMap n r).2) ∧
  (∀ n, (length (results r) ≤ n)%nat ->
        computeLongestHashChain rangeMap rangeSet r =
          ((chainAfter rangeMap n r).1, rangeSet (chainAfter rangeMap n r).2)) ∧
  ((computeLongestHashChain rangeMap rangeSet r).1 ≠ [] ->
   (computeLongestHashChain rangeMap rangeSet r).2 ≠ []).
Proof.
  intros Hrange Hset. split; [|split].
  - intros n Hne. pose proof (chainAfter_whitelist_nonempty rangeMap r n Hrange Hne) as Hwl.
    split; [done|].
    destruct (chainAfter_step rangeMap r n) as [->|(V & _ & _ & _ & ->)]; [done|].
    cbn [snd]. by apply nextWl_subseteq.
  - intros n Hn. by apply computeLongestHashChain_chainAfter.
  - rewrite (computeLongestHashChain_chainAfter rangeMap rangeSet r _ (Nat.le_refl _)).
    cbn [fst snd]. intros Hne Hnil.
    apply (chainAfter_whitelist_nonempty rangeMap r _ Hrange) in Hne.
    apply Hne. apply leibniz_equiv, elements_empty_inv.
    apply Permutation_nil. rewrite <- Hnil. apply Hset.
Qed.

(** C3. The chain of [computeLongestHashChain].  Its [i]-th hash is the
    winner of the tally of position [i] under the whitelist running there,
    and no such winner is [emptyHash]; the tally of the position right after
    the chain, if there is one, resolves to [emptyHash]; a position whose
    running whitelist is non-empty and has no vote in the table ends the
    chain; and when no position resolves to [emptyHash] the chain is as long
    as the window. *)
Theorem hash_chain_stops_at_first_empty
    (rangeMap : nat -> gmap string Z -> list (string * Z))
    (rangeSet : gset string -> list string) (r : blockHashResults) :
  enumerates rangeMap ->
  let hashChain := (computeLongestHashChain rangeMap rangeSet r).1 in
  let tallyAt i V := countHashMaxVote rangeMap (2 * i) V (chainAfter rangeMap i r).2 in
  (length hashChain ≤ length (results r))%nat ∧
  (∀ i V, (i < length hashChain)%nat -> results r !! i = Some V ->
          hashChain !! i = Some (tallyAt i V).1 ∧
          (tallyAt i V).1 ≠ emptyHash ∧
          (chainAfter rangeMap (S i) r).2 = (tallyAt i V).2) ∧
  (∀ V, results r !! length hashChain = Some V -> (tallyAt (length hashChain) V).1 = emptyHash) ∧
  (∀ i V, results r !! i = Some V ->
          (chainAfter rangeMap i r).2 ≠ ∅ ->
          (chainAfter rangeMap i r).2 ## dom V ->
          (length hashChain ≤ i)%nat) ∧
  ((∀ i V, results r !! i = Some V -> (tallyAt i V).1 ≠ emptyHash) ->
   length hashChain = length (results r)).
Proof.
  intros Hrange hashChain tallyAt.
  assert (Hfinal : hashChain = (chainLoop rangeMap 0 (results r) ∅ []).1).
  { unfold hashChain, computeLongestHashChain.
    by destruct (chainLoop rangeMap 0 (results r) ∅ []). }
  assert (Hlen : (length hashChain ≤ length (results r))%nat).
  { rewrite Hfinal. pose proof (chainLoop_length rangeMap (results r) 0 ∅ []) as H.
    cbn [length] in H. lia. }
  assert (Hpre : ∀ n, (chainAfter rangeMap n r).1 `prefix_of` hashChain).
  { intros n. rewrite Hfinal.
    destruct (decide (n ≤ length (results r))%nat) as [Hn|Hn].
    - rewrite <- (chainAfter_ge rangeMap r (length (results r))) by lia.
      by apply chainAfter_prefix.
    - rewrite chainAfter_ge by lia. done. }
  assert (Hresolved : ∀ i V, (i < length hashChain)%nat -> results r !! i = Some V ->
            hashChain !! i = Some (tallyAt i V).1 ∧ (tallyAt i V).1 ≠ emptyHash ∧
            (chainAfter rangeMap (S i) r).2 = (tallyAt i V).2).
  { intros i V Hi HV.
    assert (HSi : length (chainAfter rangeMap (S i) r).1 = S i).
    { apply chainAfter_full. rewrite <- Hfinal. lia. }
    destruct (chainAfter_step rangeMap r i) as [Heq|(V' & HV' & Hl & Hne & Heq)].
    { rewrite Heq in HSi. pose proof (chainAfter_length rangeMap r i). lia. }
    assert (V' = V) as -> by congruence.
    split; [|split]; [|done|by rewrite Heq].
    destruct (Hpre (S i)) as [k Hk]. rewrite Hk, Heq. cbn [fst].
    rewrite lookup_app_l by (rewrite length_app; cbn; lia).
    rewrite lookup_app_r by lia. rewrite Hl, Nat.sub_diag. done. }
  assert (Hstop : ∀ V, results r !! length hashChain = Some V ->
            (tallyAt (length hashChain) V).1 = emptyHash).
  { intros V HV.
    destruct (decide ((tallyAt (length hashChain) V).1 = emptyHash)) as [|Hne]; [done|].
    exfalso.
    assert (Hk : length (chainAfter rangeMap (length hashChain) r).1 = length hashChain).
    { apply chainAfter_full. rewrite <- Hfinal. lia. }
    pose proof (chainAfter_S rangeMap r _ V HV) as HS.
    rewrite decide_True in HS by done. cbn zeta in HS.
    rewrite decide_False in HS by done.
    destruct (Hpre (S (length hashChain))) as [k Hk'].
    rewrite HS in Hk'. cbn [fst] in Hk'.
    apply (f_equal length) in Hk'. rewrite !length_app, Hk in Hk'. cbn in Hk'. lia. }
  split; [done|]. split; [done|]. split; [done|]. split.
  - intros i V HV Hne Hdisj.
    destruct (decide (length hashChain ≤ i)%nat) as [|Hlt]; [done|].
    exfalso. destruct (Hresolved i V ltac:(lia) HV) as (_ & Hwin & _).
    apply Hwin. apply no_counted_vote_empty; [done|].
    apply map_empty. intros st.
    destruct (countedVotes V (chainAfter rangeMap i r).2 !! st) as [h|] eqn:E; [|done].
    apply countedVotes_lookup in E as [Hst [Hs|Hin]].
    + apply size_empty_iff in Hs. unfold_leibniz. done.
    + exfalso. apply (Hdisj st Hin). rewrite elem_of_dom. eauto.
  - intros Hall.
    destruct (decide (length hashChain = length (results r))) as [|Hne]; [done|].
    exfalso.
    destruct (lookup_lt_is_Some_2 (results r) (length hashChain) ltac:(lia)) as [V HV].
    apply (Hall _ V HV). by apply Hstop.
Qed.

End TallyFacts.


(** ** The float division of [divideCeil] *)

Section FloatFacts.

Import float64 downloader.

Lemma digits2_pos_bounds p :
  2 ^ (Z.pos (digits2_pos p) - 1) <= Z.pos p < 2 ^ Z.pos (digits2_pos p).
Proof.
  induction p as [p IH|p IH|]; cbn [digits2_pos].
  - rewrite Pos2Z.inj_succ, (Pos2Z.inj_xI p).
    replace (Z.succ (Z.pos (digits2_pos p)) - 1) with (Z.succ (Z.pos (digits2_pos p) - 1)) by lia.
    rewrite !Z.pow_succ_r by lia.
    destruct IH as [H1 H2]. revert H1 H2.
    generalize (2 ^ (Z.pos (digits2_pos p) - 1)) (2 ^ Z.pos (digits2_pos p)). intros; lia.
  - rewrite Pos2Z.inj_succ, (Pos2Z.inj_xO p).
    replace (Z.succ (Z.pos (digits2_pos p)) - 1) with (Z.succ (Z.pos (digits2_pos p) - 1)) by lia.
    rewrite !Z.pow_succ_r by lia.
    destruct IH as [H1 H2]. revert H1 H2.
    generalize (2 ^ (Z.pos (digits2_pos p) - 1)) (2 ^ Z.pos (digits2_pos p)). intros; lia.
  - cbn. lia.
Qed.

Lemma digits2_pos_eq p k :
  2 ^ (k - 1) <= Z.pos p < 2 ^ k -> Z.pos (digits2_pos p) = k.
Proof.
  intros [Hlo Hhi]. pose proof (digits2_pos_bounds p) as [Hlo' Hhi'].
  assert (0 < k).
  { destruct (decide (0 < k)); [done|]. rewrite Z.pow_neg_r in Hlo by lia.
    assert (k = 0) as -> by (destruct (decide (k = 0)); [done|]; rewrite Z.pow_neg_r in Hhi by lia; lia).
    cbn in Hhi. lia. }
  assert (Z.pos (digits2_pos p) - 1 < k).
  { apply (Z.pow_lt_mono_r_iff 2); lia. }
  assert (k - 1 < Z.pos (digits2_pos p)).
  { apply (Z.pow_lt_mono_r_iff 2); lia. }
  lia.
Qed.

Lemma fexp_normal e : -1021 <= e -> fexp prec emax e = e - 53.
Proof. intros He. unfold fexp, SpecFloat.emin, prec, emax. lia. Qed.

Lemma shr_fexp_53 m e l :
  Z.pos (digits2_pos m) = 53 -> -1000 <= e ->
  shr_fexp prec emax (Z.pos m) e l = (shr_record_of_loc (Z.pos m) l, e).
Proof.
  intros Hd He. unfold shr_fexp. cbn [Zdigits2]. rewrite Hd, fexp_normal by lia.
  replace (53 + e - 53 - e) with 0 by lia. reflexivity.
Qed.

Lemma shr_fexp_54 m e l :
  Z.pos (digits2_pos m) = 54 -> -1000 <= e ->
  shr_fexp prec emax (Z.pos m) e l = (shr_1 (shr_record_of_loc (Z.pos m) l), e + 1).
Proof.
  intros Hd He. unfold shr_fexp. cbn [Zdigits2]. rewrite Hd, fexp_normal by lia.
  replace (54 + e - 53 - e) with 1 by lia. reflexivity.
Qed.

Lemma loc_of_shr_record_of_loc m l : loc_of_shr_record (shr_record_of_loc m l) = l.
Proof. by destruct l as [|[]]. Qed.

Lemma shr_m_record_of_loc m l : shr_m (shr_record_of_loc m l) = m.
Proof. by destruct l as [|[]]. Qed.

Lemma shr_m_shr_1 m l : 0 <= m -> shr_m (shr_1 (shr_record_of_loc m l)) = m / 2.
Proof.
  intros Hm. rewrite <- Z.div2_div.
  destruct m as [|p|p]; [by destruct l as [|[]]| |lia].
  destruct p as [p|p|]; destruct l as [|[]]; reflexivity.
Qed.

Lemma round_nearest_even_bounds m l :
  m <= round_nearest_even m l <= m + 1 ∧ (l = loc_Exact -> round_nearest_even m l = m).
Proof.
  unfold round_nearest_even.
  destruct l as [|[]]; try destruct (Z.even m); (split; [lia|done]).
Qed.

(** The mantissa after the second alignment of [binary_round_aux]. *)
Lemma binary_round_aux_post z e :
  2 ^ 52 <= z <= 2 ^ 53 -> -1000 <= e <= 0 ->
  ∃ M E, (let '(mrs, e'') := shr_fexp prec emax z e loc_Exact in
          match shr_m mrs with
          | Z0 => S754_zero false
          | Zpos m => if Z.leb e'' (emax - prec) then S754_finite false m e'' else S754_infinity false
          | _ => S754_nan
          end) = S754_finite false M E ∧ e <= E <= e + 1 ∧ Z.pos M * 2 ^ (E - e) = z.
Proof.
  intros Hz He. destruct z as [|p|p]; [lia| |lia].
  destruct (decide (Z.pos p < 2 ^ 53)) as [Hlt|Hge].
  - rewrite shr_fexp_53 by (try apply digits2_pos_eq; lia). cbn [shr_record_of_loc shr_m].
    exists p, e. unfold emax, prec. destruct (e <=? 1024 - 53) eqn:El; [|lia].
    split; [done|]. split; [lia|]. rewrite Z.sub_diag. lia.
  - assert (Z.pos p = 2 ^ 53) as Hp by lia.
    injection Hp as ->.
    rewrite shr_fexp_54 by (try apply digits2_pos_eq; lia).
    cbn [shr_record_of_loc shr_1 shr_m].
    eexists _, (e + 1). unfold emax, prec. destruct (e + 1 <=? 1024 - 53) eqn:El; [|lia].
    split; [done|]. split; [lia|]. replace (e + 1 - e) with 1 by lia. reflexivity.
Qed.

Lemma shr_1_loc_even p l :
  l = loc_Exact ->
  loc_of_shr_record (shr_1 (shr_record_of_loc (Z.pos p~0) l)) = loc_Exact.
Proof. intros ->. reflexivity. Qed.

Lemma shr_1_loc_odd p l :
  l ≠ loc_Exact ->
  loc_of_shr_record (shr_1 (shr_record_of_loc (Z.pos p~1) l)) = loc_Inexact Gt.
Proof. destruct l as [|[]]; [done|reflexivity..]. Qed.

Lemma binary_round_aux_value q e l :
  2 ^ 52 <= q < 2 ^ 54 -> -1000 <= e <= -1 ->
  ∃ M E R,
    binary_round_aux prec emax false q e l = S754_finite false M E ∧
    e <= E <= e + 2 ∧ Z.pos M * 2 ^ (E - e) = R ∧
    (q < 2 ^ 53 -> q <= R <= q + 1 ∧ (l = loc_Exact -> R = q)) ∧
    (2 ^ 53 <= q ->
       2 * (q / 2) <= R <= 2 * (q / 2) + 2 ∧
       (Z.even q = true -> l = loc_Exact -> R = q) ∧
       (Z.odd q = true -> l ≠ loc_Exact -> R = q + 1)).
Proof.
  intros Hq He. destruct q as [|p|p]; [lia| |lia].
  destruct (decide (Z.pos p < 2 ^ 53)) as [Hlt|Hge].
  - pose proof (round_nearest_even_bounds (Z.pos p) l) as [Hz Hex].
    destruct (binary_round_aux_post (round_nearest_even (Z.pos p) l) e) as (M & E & Heq & HE & HM);
      [lia|lia|].
    exists M, E, (round_nearest_even (Z.pos p) l).
    split; [|split; [lia|split; [done|split; [done|lia]]]].
    rewrite <- Heq. unfold binary_round_aux.
    rewrite shr_fexp_53 by (try apply digits2_pos_eq; lia).
    rewrite loc_of_shr_record_of_loc, shr_m_record_of_loc. reflexivity.
  - set (l' := loc_of_shr_record (shr_1 (shr_record_of_loc (Z.pos p) l))).
    assert (Hdiv : 2 ^ 52 <= Z.pos p / 2 < 2 ^ 53).
    { split; [apply Z.div_le_lower_bound; lia|apply Z.div_lt_upper_bound; lia]. }
    pose proof (round_nearest_even_bounds (Z.pos p / 2) l') as [Hz Hex].
    destruct (binary_round_aux_post (round_nearest_even (Z.pos p / 2) l') (e + 1))
      as (M & E & Heq & HE & HM); [lia|lia|].
    exists M, E, (2 * round_nearest_even (Z.pos p / 2) l').
    split; [|split; [lia|split; [|split; [lia|]]]].
    + rewrite <- Heq. unfold binary_round_aux.
      rewrite shr_fexp_54 by (try apply digits2_pos_eq; lia).
      rewrite shr_m_shr_1 by lia. reflexivity.
    + rewrite <- HM. replace (E - e) with (1 + (E - (e + 1))) by lia.
      rewrite Z.pow_add_r by lia. change (2 ^ 1) with 2. lia.
    + intros _. split; [lia|]. split.
      * intros Hev Hl. destruct p as [p|p|]; [done| |done].
        unfold l'. rewrite shr_1_loc_even by done. cbn [round_nearest_even].
        rewrite (Pos2Z.inj_xO p).
        replace (2 * Z.pos p / 2) with (Z.pos p); [lia|].
        apply Z.div_unique with 0; lia.
      * intros Hodd Hl. destruct p as [p|p|]; [|done|lia].
        unfold l'. rewrite shr_1_loc_odd by done. cbn [round_nearest_even].
        rewrite (Pos2Z.inj_xI p).
        replace ((2 * Z.pos p + 1) / 2) with (Z.pos p); [lia|].
        apply Z.div_unique with 1; lia.
Qed.

Lemma new_location_exact n k : new_location n k = loc_Exact ↔ k = 0.
Proof.
  unfold new_location, new_location_even, new_location_odd.
  destruct (Z.even n); destruct (k =? 0) eqn:E; split; intros H; try done; try lia.
Qed.

Lemma pos_iter_xO p k : Z.pos (Pos.iter xO p k) = Z.pos p * 2 ^ Z.pos k.
Proof.
  induction k as [|k IH] using Pos.peano_ind.
  - cbn [Pos.iter]. rewrite (Pos2Z.inj_xO p). change (2 ^ 1) with 2. lia.
  - rewrite Pos.iter_succ, (Pos2Z.inj_xO (Pos.iter xO p k)), IH, Pos2Z.inj_succ.
    rewrite Z.pow_succ_r by lia. lia.
Qed.

Lemma of_int_normal x :
  0 < x < 2 ^ 53 ->
  ∃ m e, of_int x = S754_finite false m e ∧ Z.pos (digits2_pos m) = 53 ∧
         -52 <= e <= 0 ∧ Z.pos m = x * 2 ^ (- e).
Proof.
  intros Hx. destruct x as [|p|p]; [lia| |lia].
  pose proof (digits2_pos_bounds p) as [Hlo Hhi].
  set (d := Z.pos (digits2_pos p)) in *.
  assert (Hd : 1 <= d <= 53).
  { split; [unfold d; lia|].
    assert (d - 1 < 53); [|lia]. apply (Z.pow_lt_mono_r_iff 2); lia. }
  unfold of_int, binary_normalize, binary_round.
  fold d. rewrite Z.add_0_r, fexp_normal by lia. unfold shl_align.
  destruct (d - 53 - 0) as [|k|k] eqn:Ek; [|lia|].
  - assert (d = 53) as Hd53 by lia.
    exists p, 0. split; [|split; [done|split; [lia|cbn; lia]]].
    unfold binary_round_aux.
    rewrite shr_fexp_53 by (done || lia).
    rewrite loc_of_shr_record_of_loc, shr_m_record_of_loc. cbn [round_nearest_even].
    rewrite shr_fexp_53 by (done || lia). reflexivity.
  - assert (Hk : Z.pos k = 53 - d) by lia.
    assert (Hm : Z.pos (Pos.iter xO p k) = Z.pos p * 2 ^ (53 - d)).
    { rewrite pos_iter_xO, Hk. done. }
    assert (Hpw : 2 ^ (d - 1) * 2 ^ (53 - d) = 2 ^ 52 ∧ 2 ^ d * 2 ^ (53 - d) = 2 ^ 53).
    { rewrite <- !Z.pow_add_r by lia. split; f_equal; lia. }
    assert (Hpos : 0 < 2 ^ (53 - d)) by (apply Z.pow_pos_nonneg; lia).
    assert (Hdm : Z.pos (digits2_pos (Pos.iter xO p k)) = 53).
    { apply digits2_pos_eq. rewrite Hm. change (53 - 1) with 52.
      destruct Hpw as [<- <-]. split.
      - apply Z.mul_le_mono_nonneg_r; lia.
      - apply Z.mul_lt_mono_pos_r; lia. }
    exists (Pos.iter xO p k), (d - 53).
    split; [|split; [done|split; [lia|rewrite Hm; f_equal; f_equal; lia]]].
    unfold binary_round_aux.
    rewrite shr_fexp_53 by (done || lia).
    rewrite loc_of_shr_record_of_loc, shr_m_record_of_loc. cbn [round_nearest_even].
    rewrite shr_fexp_53 by (done || lia). cbn [shr_record_of_loc shr_m].
    unfold emax, prec. destruct (d - 53 <=? 1024 - 53) eqn:El; [done|lia].
Qed.

Lemma div_normal mx ex my ey :
  Z.pos (digits2_pos mx) = 53 -> Z.pos (digits2_pos my) = 53 ->
  -52 <= ex <= 0 -> -52 <= ey <= 0 ->
  div (S754_finite false mx ex) (S754_finite false my ey) =
    binary_round_aux prec emax false
      (Z.pos mx * 2 ^ 53 / Z.pos my) (ex - ey - 53)
      (new_location (Z.pos my) (Z.pos mx * 2 ^ 53 mod Z.pos my)).
Proof.
  intros Hdx Hdy Hex Hey. unfold div, SFdiv, SFdiv_core_binary. cbn [Zdigits2 xorb].
  rewrite Hdx, Hdy, fexp_normal by lia.
  rewrite Z.min_l by lia.
  replace (ex - ey - (53 + ex - (53 + ey) - 53)) with 53 by lia.
  cbv iota. rewrite Z.shiftl_mul_pow2 by lia.
  unfold Z.div, Z.modulo.
  destruct (Z.div_eucl (Z.pos mx * 2 ^ 53) (Z.pos my)) as [q r].
  replace (53 + ex - (53 + ey) - 53) with (ex - ey - 53) by lia. reflexivity.
Qed.

Lemma ceilDiv_spec x y : 0 < y -> (ceilDiv x y - 1) * y < x <= ceilDiv x y * y.
Proof.
  intros Hy. unfold ceilDiv.
  pose proof (Z.div_mod (x + y - 1) y ltac:(lia)) as Hdm.
  pose proof (Z.mod_pos_bound (x + y - 1) y Hy) as Hm.
  generalize dependent ((x + y - 1) / y). generalize dependent ((x + y - 1) mod y).
  intros. nia.
Qed.

(** The integer a finite positive value is rounded up to, from a bracket on
    its mantissa scaled to a lower exponent [e]. *)
Lemma ceil_finite_bracket M E e c :
  e <= E -> e <= 0 ->
  (c - 1) * 2 ^ (- e) < Z.pos M * 2 ^ (E - e) <= c * 2 ^ (- e) ->
  ceil_finite false M E = c.
Proof.
  intros HE He [Hlo Hhi]. unfold ceil_finite.
  assert (Hpe : 0 < 2 ^ (- e)) by (apply Z.pow_pos_nonneg; lia).
  destruct E as [|E|E].
  - rewrite Z.sub_0_l in *.
    apply Z.mul_lt_mono_pos_r in Hlo; [|done]. apply Z.mul_le_mono_pos_r in Hhi; [|done]. lia.
  - replace (Z.pos E - e) with (Z.pos E + - e) in * by lia.
    rewrite Z.pow_add_r in * by lia.
    assert (0 < 2 ^ Z.pos E) by (apply Z.pow_pos_nonneg; lia).
    generalize dependent (2 ^ Z.pos E). generalize dependent (2 ^ (- e)). intros. nia.
  - replace (- e) with ((Z.neg E - e) + - Z.neg E) in * by lia.
    rewrite Z.pow_add_r in * by lia.
    assert (Hp1 : 0 < 2 ^ (Z.neg E - e)) by (apply Z.pow_pos_nonneg; lia).
    assert (Hp2 : 0 < 2 ^ (- Z.neg E)) by (apply Z.pow_pos_nonneg; lia).
    assert (Hb : (c - 1) * 2 ^ (- Z.neg E) < Z.pos M <= c * 2 ^ (- Z.neg E)).
    { generalize dependent (2 ^ (Z.neg E - e)). generalize dependent (2 ^ (- Z.neg E)).
      intros. nia. }
    pose proof (Z.div_mod (- Z.pos M) (2 ^ (- Z.neg E)) ltac:(lia)) as Hdm.
    pose proof (Z.mod_pos_bound (- Z.pos M) (2 ^ (- Z.neg E)) Hp2) as Hm.
    clear Hlo Hhi Hpe Hp1.
    generalize dependent (- Z.pos M / 2 ^ (- Z.neg E)).
    generalize dependent (- Z.pos M mod 2 ^ (- Z.neg E)).
    generalize dependent (2 ^ (- Z.neg E)). intros. nia.
Qed.

Lemma to_int_of_int unrepresentable c :
  0 < c < 2 ^ 53 -> to_int unrepresentable (of_int c) = c.
Proof.
  intros Hc. destruct (of_int_normal c Hc) as (m & e & -> & _ & He & Hm).
  unfold to_int.
  assert (Hp : 0 < 2 ^ (- e)) by (apply Z.pow_pos_nonneg; lia).
  destruct e as [|e|e]; [| lia |].
  - change (2 ^ (- 0)) with 1 in Hm. rewrite Z.mul_1_r in Hm.
    change (2 ^ 0) with 1. rewrite Z.mul_1_r, Hm.
    destruct ((- 2 ^ 63 <=? c) && (c <? 2 ^ 63)) eqn:Er; [done|].
    apply andb_false_iff in Er as [Er|Er]; lia.
  - rewrite Hm, Z.quot_mul by lia.
    destruct ((- 2 ^ 63 <=? c) && (c <? 2 ^ 63)) eqn:Er; [done|].
    apply andb_false_iff in Er as [Er|Er]; lia.
Qed.

(** The arithmetic of rounding a quotient: [q] and [r] are quotient and
    remainder of the scaled division, [R] the rounded mantissa on the scale of
    [q], and [2 * T'] that scale's unit. *)
Lemma rounding_bracket q r b x y c T' P R :
  0 < b -> b < P -> 0 <= r < b -> q * b + r = x * P -> 2 * T' * b = y * P ->
  0 < T' -> 0 < y ->
  (c - 1) * y < x <= c * y ->
  (q < 2 ^ 53 -> q <= R <= q + 1 ∧ (r = 0 -> R = q)) ->
  (2 ^ 53 <= q ->
     2 * (q / 2) <= R <= 2 * (q / 2) + 2 ∧
     (Z.even q = true -> r = 0 -> R = q) ∧
     (Z.odd q = true -> r ≠ 0 -> R = q + 1)) ->
  (c - 1) * (2 * T') < R <= c * (2 * T').
Proof.
  intros Hb HbP Hr E1 E2 HT' Hy [Hlo Hhi] Hk0 Hk1.
  assert (H1 : q * b + r <= c * (2 * T') * b).
  { replace (c * (2 * T') * b) with (c * (y * P)) by (rewrite <- E2; ring).
    rewrite E1. assert (0 <= (c * y - x) * P) by (apply Z.mul_nonneg_nonneg; lia). lia. }
  assert (H2 : (c - 1) * (2 * T') * b + P <= q * b + r).
  { replace ((c - 1) * (2 * T') * b) with ((c - 1) * (y * P)) by (rewrite <- E2; ring).
    rewrite E1. assert (0 <= (x - (c - 1) * y - 1) * P) by (apply Z.mul_nonneg_nonneg; lia).
    lia. }
  assert (A1 : q <= c * (2 * T')).
  { apply (Z.mul_le_mono_pos_r _ _ b); lia. }
  assert (A2 : r ≠ 0 -> q + 1 <= c * (2 * T')).
  { intros Hr0. assert (q < c * (2 * T')); [|lia]. apply (Z.mul_lt_mono_pos_r b); lia. }
  assert (B1 : (c - 1) * (2 * T') + 1 <= q).
  { assert ((c - 1) * (2 * T') < q); [|lia]. apply (Z.mul_lt_mono_pos_r b); lia. }
  assert (B2 : q = (c - 1) * (2 * T') + 1 -> r ≠ 0).
  { intros -> ->. lia. }
  clear H1 H2 E1 E2 Hlo Hhi.
  destruct (decide (q < 2 ^ 53)) as [Hq|Hq].
  - destruct (Hk0 Hq) as [HR Hex].
    destruct (decide (r = 0)) as [Hr0|Hr0]; [rewrite (Hex Hr0); lia|].
    specialize (A2 Hr0). lia.
  - destruct (Hk1 ltac:(lia)) as (HR & Hev & Hodd).
    pose proof (Z.div_mod q 2 ltac:(lia)) as Hdm.
    pose proof (Zmod_even q) as Hme. rewrite <- Z.negb_odd in Hme.
    destruct (Z.odd q) eqn:Eo; cbn [negb] in Hme.
    + destruct (decide (r = 0)) as [Hr0|Hr0].
      * assert (q ≠ (c - 1) * (2 * T') + 1) by (intros ?; by apply B2). lia.
      * rewrite (Hodd eq_refl Hr0). lia.
    + assert (Hevq : Z.even q = true) by (rewrite <- Z.negb_odd, Eo; done).
      destruct (decide (r = 0)) as [Hr0|Hr0]; [rewrite (Hev Hevq Hr0); lia|].
      specialize (A2 Hr0). lia.
Qed.

Lemma divideCeil_exact unrepresentable x y :
  0 < x < 2 ^ 53 -> 0 < y < 2 ^ 53 ->
  GetBlocksByHashManager.divideCeil unrepresentable x y = ceilDiv x y.
Proof.
  intros Hx Hy. unfold GetBlocksByHashManager.divideCeil.
  destruct (of_int_normal x Hx) as (mx & ex & -> & Hdx & Hex & Hmx).
  destruct (of_int_normal y Hy) as (my & ey & -> & Hdy & Hey & Hmy).
  rewrite div_normal by done.
  pose proof (digits2_pos_bounds mx) as Hbx. rewrite Hdx in Hbx. change (53 - 1) with 52 in Hbx.
  pose proof (digits2_pos_bounds my) as Hby. rewrite Hdy in Hby. change (53 - 1) with 52 in Hby.
  set (q := Z.pos mx * 2 ^ 53 / Z.pos my).
  set (r := Z.pos mx * 2 ^ 53 mod Z.pos my).
  assert (Hq : 2 ^ 52 <= q < 2 ^ 54).
  { unfold q. split; [apply Z.div_le_lower_bound; lia|apply Z.div_lt_upper_bound; lia]. }
  destruct (binary_round_aux_value q (ex - ey - 53) (new_location (Z.pos my) r) Hq ltac:(lia))
    as (M & E & R & -> & HE & HM & Hk0 & Hk1).
  pose proof (ceilDiv_spec x y ltac:(lia)) as Hc.
  set (c := ceilDiv x y) in *.
  assert (Hc1 : 1 <= c <= x) by nia.
  (* the bracket on the rounded mantissa *)
  assert (HP : 2 ^ (- ex) * 2 ^ 53 = 2 ^ (53 - ex))
    by (rewrite <- Z.pow_add_r by lia; f_equal; lia).
  assert (HT : 2 * 2 ^ (52 - ex + ey) * 2 ^ (- ey) = 2 ^ (53 - ex)).
  { change 2 with (2 ^ 1) at 1. rewrite <- !Z.pow_add_r by lia. f_equal; lia. }
  assert (HT2 : 2 ^ (- (ex - ey - 53)) = 2 * 2 ^ (52 - ex + ey)).
  { change 2 with (2 ^ 1) at 2. rewrite <- !Z.pow_add_r by lia. f_equal; lia. }
  assert (HPge : 2 ^ 53 <= 2 ^ (53 - ex)) by (apply Z.pow_le_mono_r; lia).
  assert (HT' : 0 < 2 ^ (52 - ex + ey)) by (apply Z.pow_pos_nonneg; lia).
  assert (Hbr : (c - 1) * (2 * 2 ^ (52 - ex + ey)) < R <= c * (2 * 2 ^ (52 - ex + ey))).
  { assert (G1 : 0 <= r < Z.pos my) by (apply Z.mod_pos_bound; lia).
    assert (G2 : q * Z.pos my + r = x * 2 ^ (53 - ex)).
    { pose proof (Z.div_mod (Z.pos mx * 2 ^ 53) (Z.pos my) ltac:(lia)) as Hdm.
      fold q r in Hdm. rewrite Hmx in Hdm. rewrite <- HP. lia. }
    assert (G3 : 2 * 2 ^ (52 - ex + ey) * Z.pos my = y * 2 ^ (53 - ex)).
    { rewrite Hmy, <- HT. lia. }
    apply (rounding_bracket q r (Z.pos my) x y c (2 ^ (52 - ex + ey)) (2 ^ (53 - ex)));
      [lia|lia|exact G1|exact G2|exact G3|lia|lia|exact Hc| |].
    - intros Hlt. destruct (Hk0 Hlt) as [? Hex0]. split; [done|].
      intros Hr0. apply Hex0. by apply new_location_exact.
    - intros Hge. destruct (Hk1 Hge) as (? & Hev & Hodd). split; [done|]. split.
      + intros ? Hr0. apply Hev; [done|]. by apply new_location_exact.
      + intros ? Hr0. apply Hodd; [done|]. by rewrite new_location_exact. }
  rewrite <- HT2 in Hbr. rewrite <- HM in Hbr.
  assert (Hceil : ceil_finite false M E = c)
    by (apply (ceil_finite_bracket M E (ex - ey - 53)); lia).
  unfold Ceil. rewrite Hceil.
  destruct (c =? 0) eqn:Ec; [lia|].
  apply to_int_of_int. lia.
Qed.

End FloatFacts.

(** ** The fetch manager *)

Section ManagerFacts.

Import downloader downloader.GetBlocksByHashManager.

Context {Block : Type}.
Variable Block_Hash : Block -> Z.
Variable unrepresentable : spec_float -> Z.

Abbreviation manager := (getBlocksByHashManager (Block := Block)).

Lemma numBlocksPerRequest_bounds (m : manager) :
  numBlocksByHashesLowerCap <= numBlocksPerRequest unrepresentable m
    <= numBlocksByHashesUpperCap.
Proof.
  unfold numBlocksPerRequest, numBlocksByHashesLowerCap, numBlocksByHashesUpperCap.
  generalize (divideCeil unrepresentable (len (hashes m)) (Z.of_nat (slen (whitelist m)))).
  intros v. destruct (v <? 6) eqn:E1.
  - destruct (6 >? 10) eqn:E2; lia.
  - destruct (v >? 10) eqn:E2; lia.
Qed.

Lemma numBlocksPerRequest_clamp (m : manager) :
  numBlocksPerRequest unrepresentable m =
    clamp (divideCeil unrepresentable (len (hashes m)) (Z.of_nat (slen (whitelist m))))
          numBlocksByHashesLowerCap numBlocksByHashesUpperCap.
Proof.
  unfold numBlocksPerRequest, clamp, numBlocksByHashesLowerCap, numBlocksByHashesUpperCap.
  generalize (divideCeil unrepresentable (len (hashes m)) (Z.of_nat (slen (whitelist m)))).
  intros v. destruct (v <? 6) eqn:E1.
  - destruct (6 >? 10) eqn:E2; lia.
  - destruct (v >? 10) eqn:E2; lia.
Qed.

Lemma ceilDiv_antitone x y y' :
  0 < x -> 0 < y' <= y -> ceilDiv x y <= ceilDiv x y'.
Proof.
  intros Hx Hy.
  pose proof (ceilDiv_spec x y ltac:(lia)) as [H1 _].
  pose proof (ceilDiv_spec x y' ltac:(lia)) as [_ H2].
  assert (0 < ceilDiv x y').
  { destruct (decide (0 < ceilDiv x y')); [done|]. nia. }
  assert (ceilDiv x y - 1 < ceilDiv x y'); [|lia].
  apply (Z.mul_lt_mono_pos_r y); [lia|]. nia.
Qed.

(** C6. The batch size.  With a target and a whitelist that are not
    empty (and of lengths below 2^53, as the lengths of Go slices are),
    [numBlocksPerRequest] is [ceil(len(target) / len(whitelist))] clamped to
    the caps 6 and 10; it lies between the caps; and a manager with the same
    target and a shorter whitelist gets a batch size that is not smaller. *)
Theorem numBlocksPerRequest_dynamic (m : manager) :
  0 < len (hashes m) < 2 ^ 53 ->
  0 < Z.of_nat (slen (whitelist m)) < 2 ^ 53 ->
  numBlocksPerRequest unrepresentable m =
    clamp (ceilDiv (len (hashes m)) (Z.of_nat (slen (whitelist m)))) 6 10 ∧
  6 <= numBlocksPerRequest unrepresentable m <= 10 ∧
  (∀ m' : manager,
     hashes m' = hashes m ->
     (0 < slen (whitelist m') ≤ slen (whitelist m))%nat ->
     numBlocksPerRequest unrepresentable m <= numBlocksPerRequest unrepresentable m').
Proof.
  intros Hx Hy. split; [|split].
  - rewrite numBlocksPerRequest_clamp, divideCeil_exact by done. reflexivity.
  - apply numBlocksPerRequest_bounds.
  - intros m' Hh Hwl. rewrite !numBlocksPerRequest_clamp, Hh.
    rewrite !divideCeil_exact by lia.
    pose proof (ceilDiv_antitone (len (hashes m)) (Z.of_nat (slen (whitelist m)))
                  (Z.of_nat (slen (whitelist m'))) ltac:(lia) ltac:(lia)).
    unfold clamp. lia.
Qed.

Lemma getNextHashes_state (m : manager) : (getNextHashes unrepresentable m).2 = m.
Proof.
  unfold getNextHashes.
  destruct (numBlocksPerRequest unrepresentable m <? 0); [done|].
  destruct (Z.of_nat (slen (whitelist m)) =? 0); done.
Qed.

Lemma div_by_zero (x : spec_float) :
  float64.div x (float64.of_int 0) = S754_nan ∨
  ∃ s, float64.div x (float64.of_int 0) = S754_infinity s.
Proof. destruct x as [s|s| |s mx ex]; cbn; eauto. Qed.

(** C10. Without a stream on the whitelist, [getNextHashes] returns
    the error "empty white list" and the manager as it was, whatever integer
    the conversion of the quotient yields: the division is by zero, its
    result is an infinity or NaN, and the batch size computed from it is
    dropped. *)
Theorem getNextHashes_empty_whitelist (m : manager) :
  slen (whitelist m) = 0%nat ->
  getNextHashes unrepresentable m =
    (Some ([], [], Some (errors_New "empty white list")), m) ∧
  (∃ f, (f = S754_nan ∨ (∃ s, f = S754_infinity s)) ∧
        (divideCeil unrepresentable (len (hashes m)) (Z.of_nat (slen (whitelist m))) =
          unrepresentable f)).
Proof.
  intros Hwl. split.
  - unfold getNextHashes. pose proof (numBlocksPerRequest_bounds m) as Hb.
    unfold numBlocksByHashesLowerCap in Hb.
    destruct (numBlocksPerRequest unrepresentable m <? 0) eqn:E; [lia|].
    rewrite Hwl. reflexivity.
  - rewrite Hwl. unfold divideCeil. change (Z.of_nat 0) with 0.
    destruct (div_by_zero (float64.of_int (len (hashes m)))) as [Hd|[s Hd]];
      rewrite Hd; eexists; (split; [|reflexivity]); eauto.
Qed.

Lemma selectHashes_spec (m : manager) num hs acc :
  0 <= num -> len acc <= num ->
  selectHashes m num hs acc =
    acc ++ take (Z.to_nat num - length acc) (filter (eligible m) hs).
Proof.
  intros Hnum. revert acc. induction hs as [|h hs IH]; intros acc Hacc; cbn [selectHashes].
  - rewrite filter_nil, take_nil, app_nil_r. done.
  - unfold len in *. destruct (Z.of_nat (length acc) =? num) eqn:E.
    + replace (Z.to_nat num - length acc)%nat with 0%nat by lia.
      rewrite take_0, app_nil_r. done.
    + rewrite filter_cons.
      destruct (decide (eligible m h)) as [[He1 He2]|Hne].
      * rewrite bool_decide_eq_false_2 by done.
        rewrite bool_decide_eq_false_2 by (rewrite He2; by intros [? ?]).
        cbn [negb andb]. rewrite IH by (rewrite length_app; cbn; lia).
        rewrite length_app. cbn [length].
        replace (Z.to_nat num - length acc)%nat with (S (Z.to_nat num - (length acc + 1)))%nat by lia.
        cbn [take]. rewrite <- app_assoc. done.
      * assert (Hb : negb (bool_decide (h ∈ pendings m)) &&
                     negb (bool_decide (is_Some (results m !! h))) = false).
        { apply andb_false_iff. unfold eligible in Hne.
          destruct (decide (h ∈ pendings m)) as [Hin|Hin].
          - left. by rewrite bool_decide_eq_true_2.
          - right. rewrite bool_decide_eq_true_2; [done|].
            destruct (results m !! h) eqn:Er; [eauto|]. exfalso. by apply Hne. }
        rewrite Hb. apply IH. lia.
Qed.


(** With a stream on the whitelist, [getNextHashes] hands out the first
    eligible target hashes, up to the batch size, and a copy of the whitelist;
    the manager stays as it was. *)
Lemma getNextHashes_selects (m : manager) :
  slen (whitelist m) ≠ 0%nat ->
  getNextHashes unrepresentable m =
    (Some (take (Z.to_nat (numBlocksPerRequest unrepresentable m))
                (filter (eligible m) (hashes m)),
           elems (whitelist m), None), m).
Proof.
  intros Hwl. unfold getNextHashes. pose proof (numBlocksPerRequest_bounds m) as Hb.
  unfold numBlocksByHashesLowerCap in Hb.
  destruct (numBlocksPerRequest unrepresentable m <? 0) eqn:E; [lia|].
  destruct (Z.of_nat (slen (whitelist m)) =? 0) eqn:E0; [lia|].
  rewrite selectHashes_spec by (unfold len; cbn; lia).
  cbn [length app]. by rewrite Nat.sub_0_r.
Qed.

Lemma getResults_from_spec (m : manager) hs acc :
  (getResults_from m hs acc = (None, Some sanityNilBlock) ∧
   ∃ h, h ∈ hs ∧ block_of m h = None) ∨
  (∃ bs, getResults_from m hs acc = (Some (acc ++ bs), None) ∧
         Forall2 (fun h b => block_of m h = Some b) hs bs).
Proof.
  revert acc. induction hs as [|h hs IH]; intros acc; cbn [getResults_from].
  - right. exists []. rewrite app_nil_r. split; [done|constructor].
  - destruct (block_of m h) as [b|] eqn:Hb.
    + destruct (IH (acc ++ [b])) as [[Heq (h' & Hin & Hn)]|(bs & Heq & Hall)].
      * left. split; [done|]. exists h'. rewrite elem_of_cons. eauto.
      * right. exists (b :: bs). rewrite Heq, <- app_assoc. split; [done|].
        by constructor.
    + left. split; [done|]. exists h. rewrite elem_of_cons. eauto.
Qed.

Lemma checkBlocks_from_ok blocks : ∀ i hs r,
  (i + length blocks ≤ length hs)%nat ->
  checkBlocks_from Block_Hash i blocks hs = r ->
  (∃ e, r = Some (Some e)) ∨
  (r = Some None ∧
   ∀ j ob, blocks !! j = Some ob ->
           ∃ b, ob = Some b ∧ hs !! (i + j)%nat = Some (Block_Hash b)).
Proof.
  induction blocks as [|ob blocks IH]; intros i hs r Hlen Hr; cbn [checkBlocks_from] in Hr.
  - right. split; [done|]. intros j ob' Hj. by rewrite lookup_nil in Hj.
  - destruct ob as [b|]; [|left; eauto].
    cbn [length] in Hlen.
    destruct (hs !! i) as [h|] eqn:Hh; [|apply lookup_ge_None in Hh; lia].
    destruct (decide (Block_Hash b ≠ h)) as [Hne|Heq]; [left; eauto|].
    assert (Block_Hash b = h) as Hbh by (destruct (decide (Block_Hash b = h)); tauto).
    destruct (IH (S i) hs r ltac:(lia) Hr) as [?|[-> Hall]]; [by left|right].
    split; [done|]. intros [|j] ob' Hj; cbn in Hj.
    + injection Hj as <-. exists b. rewrite Nat.add_0_r, Hh, Hbh. done.
    + destruct (Hall j ob' Hj) as (b' & -> & Hb'). exists b'.
      replace (i + S j)%nat with (S i + j)%nat by lia. done.
Qed.

Lemma check_accepts blocks hs :
  checkGetBlockByHashesResult Block_Hash blocks hs = None ->
  length blocks = length hs ∧
  ∀ j ob, blocks !! j = Some ob -> ∃ b, ob = Some b ∧ hs !! j = Some (Block_Hash b).
Proof.
  unfold checkGetBlockByHashesResult, len.
  destruct (decide (Z.of_nat (length blocks) ≠ Z.of_nat (length hs))) as [|Hl]; [done|].
  assert (Hlen : length blocks = length hs) by lia.
  destruct (checkBlocks_from_ok blocks 0 hs _ ltac:(lia) eq_refl) as [[e He]|[He Hall]];
    rewrite He; [done|]. intros _. done.
Qed.

Lemma addResult_from_valid hs blocks st : ∀ i (m m' : manager),
  recordsValid Block_Hash m ->
  (∀ j h, hs !! j = Some h ->
          ∃ b, blocks !! (i + j)%nat = Some (Some b) ∧ Block_Hash b = h) ->
  addResult_from i hs blocks st m = Some m' ->
  recordsValid Block_Hash m'.
Proof.
  induction hs as [|h hs IH]; intros i m m' Hv Hall Hadd; cbn [addResult_from] in Hadd.
  - by injection Hadd as <-.
  - destruct (Hall 0%nat h eq_refl) as (b & Hb & Hbh). rewrite Nat.add_0_r in Hb.
    rewrite Hb in Hadd. apply (IH (S i) _ m') in Hadd; [done| |].
    + intros h' b'. unfold block_of. cbn [results].
      rewrite lookup_insert. destruct (decide (h = h')) as [<-|Hne]; cbn.
      * intros [= <-]. done.
      * apply Hv.
    + intros j h' Hj. destruct (Hall (S j) h' Hj) as (b' & Hb' & Hbh').
      exists b'. replace (S i + j)%nat with (i + S j)%nat by lia. done.
Qed.

Lemma managerState_valid (m : manager) :
  managerState Block_Hash unrepresentable m -> recordsValid Block_Hash m.
Proof.
  induction 1 as [hs wl|m Hm IH|m hs blocks st m' Hm IH Hcheck Hadd|m hs st Hm IH].
  - intros h b. unfold block_of. cbn. rewrite lookup_empty. done.
  - by rewrite getNextHashes_state.
  - apply check_accepts in Hcheck as [Hlen Hall].
    apply (addResult_from_valid hs blocks st 0 m m' IH); [|done].
    intros j h Hj. cbn [Nat.add].
    destruct (lookup_lt_is_Some_2 blocks j) as [ob Hob].
    { rewrite Hlen. by apply lookup_lt_Some in Hj. }
    destruct (Hall j ob Hob) as (b & -> & Hb). exists b. split; [done|]. congruence.
  - exact IH.
Qed.

(** C5. [getResults] fails with the sanity error exactly when a target
    hash has no record with a block; it returns one or the other; on success
    it returns as many blocks as there are target hashes, the [i]-th being
    the block recorded for the [i]-th target hash; and in a state that a
    cycle can reach, the hash of the [i]-th block is the [i]-th target
    hash. *)
Theorem getResults_aligned (m : manager) :
  (getResults m = (None, Some sanityNilBlock) ↔
   ∃ h, h ∈ hashes m ∧ block_of m h = None) ∧
  (getResults m = (None, Some sanityNilBlock) ∨ ∃ bs, getResults m = (Some bs, None)) ∧
  (∀ bs, getResults m = (Some bs, None) ->
     length bs = length (hashes m) ∧
     (∀ i h, hashes m !! i = Some h ->
             ∃ b r, bs !! i = Some b ∧ results m !! h = Some r ∧ block r = Some b) ∧
     (managerState Block_Hash unrepresentable m ->
      ∀ i b, bs !! i = Some b -> hashes m !! i = Some (Block_Hash b))).
Proof.
  unfold getResults.
  destruct (getResults_from_spec m (hashes m) []) as [[Heq Hex]|(bs & Heq & Hall)].
  - rewrite Heq. split; [tauto|]. split; [by left|]. intros bs [=].
  - rewrite Heq, app_nil_l. split; [|split].
    + split; [intros [=]|]. intros (h & Hin & Hn). exfalso.
      apply list_elem_of_lookup in Hin as [i Hi].
      destruct (Forall2_lookup_l _ _ _ _ _ Hall Hi) as (b & _ & Hb). congruence.
    + right. eauto.
    + intros bs' [= <-]. split; [by apply Forall2_length in Hall|]. split.
      * intros i h Hi. destruct (Forall2_lookup_l _ _ _ _ _ Hall Hi) as (b & Hb & Hbo).
        unfold block_of in Hbo. destruct (results m !! h) as [r|] eqn:Hr; [|done].
        exists b, r. done.
      * intros Hst i b Hi. destruct (Forall2_lookup_r _ _ _ _ _ Hall Hi) as (h & Hh & Hbo).
        rewrite Hh. f_equal. symmetry. by apply (managerState_valid m Hst).
Qed.

Lemma index_of_None target l : index_of target l = None -> filter (fun x => x ≠ target) l = l.
Proof.
  induction l as [|x l IH]; cbn [index_of]; [done|].
  destruct (decide (x = target)) as [|Hne]; [done|].
  destruct (index_of target l); [done|]. intros _.
  rewrite filter_cons. destruct (decide (x ≠ target)); [|done]. by rewrite IH.
Qed.

Lemma index_of_Some target l i :
  index_of target l = Some i ->
  (i < length l)%nat ∧
  filter (fun x => x ≠ target) (take i l ++ drop (S i) l) = filter (fun x => x ≠ target) l.
Proof.
  revert i. induction l as [|x l IH]; intros i; cbn [index_of]; [done|].
  destruct (decide (x = target)) as [->|Hne].
  - intros [= <-]. cbn [length]. split; [lia|].
    cbn [take firstn drop skipn app]. rewrite filter_cons.
    destruct (decide (target ≠ target)); done.
  - destruct (index_of target l) as [j|]; [|done]. intros [= <-].
    destruct (IH j eq_refl) as [Hj Hf]. cbn [length take firstn drop skipn app]. split; [lia|].
    rewrite !filter_cons. destruct (decide (x ≠ target)); [|done]. by rewrite Hf.
Qed.

Lemma elems_slice_remove (i : nat) (wl : slice string) :
  (i < slen wl ≤ length (sarray wl))%nat ->
  elems (slice_remove i wl) = take i (elems wl) ++ drop (S i) (elems wl) ∧
  length (sarray (slice_remove i wl)) = length (sarray wl).
Proof.
  intros Hi. unfold slice_remove, elems. cbn [sarray slen].
  assert (Hl1 : length (take i (sarray wl)) = i) by (rewrite length_take; lia).
  assert (Hl2 : length (drop (S i) (take (slen wl) (sarray wl))) = (slen wl - S i)%nat).
  { rewrite length_drop, length_take. lia. }
  split.
  - rewrite app_assoc, take_app_length'; [|rewrite length_app; lia].
    rewrite take_take. f_equal. f_equal. lia.
  - rewrite !length_app, Hl1, Hl2, length_drop. lia.
Qed.

Lemma removeStreamID_loop_spec target : ∀ fuel (wl : slice string),
  (slen wl ≤ length (sarray wl))%nat -> (slen wl < fuel)%nat ->
  elems (removeStreamID_loop fuel target wl) = filter (fun x => x ≠ target) (elems wl) ∧
  length (sarray (removeStreamID_loop fuel target wl)) = length (sarray wl) ∧
  (slen (removeStreamID_loop fuel target wl) ≤ slen wl)%nat.
Proof.
  induction fuel as [|fuel IH]; intros wl Hcap Hfuel; [lia|].
  cbn [removeStreamID_loop].
  destruct (index_of target (elems wl)) as [i|] eqn:Hidx.
  - apply index_of_Some in Hidx as [Hi Hf].
    assert (Hlen : length (elems wl) = slen wl) by (unfold elems; rewrite length_take; lia).
    rewrite decide_False by lia.
    destruct (elems_slice_remove i wl ltac:(lia)) as [He Hl].
    destruct (IH (slice_remove i wl)) as (H1 & H2 & H3).
    { rewrite Hl. cbn [slice_remove slen]. lia. }
    { cbn [slice_remove slen]. lia. }
    rewrite H1, H2, He, Hf, Hl. split; [done|]. split; [done|].
    cbn [slice_remove slen] in H3. lia.
  - by rewrite (index_of_None _ _ Hidx).
Qed.


End ManagerFacts.

(** ** The helper *)

Section HelperFacts.

Import downloader downloader.GetBlocksByHashManager.

Context {Block P C : Type}.
Context `{!syncProtocol Block P} `{!insertHelper Block C}.

Lemma removeStreams_app (sts1 sts2 : list string) (p : P) :
  removeStreams (sts1 ++ sts2) p = removeStreams sts2 (removeStreams sts1 p).
Proof. unfold removeStreams. apply foldl_app. Qed.

(** C8. When the peer layer delivers a listing without error,
    [doGetBlockHashesRequest] compares its length with the number of heights
    asked for.  On a difference it calls [RemoveStream] on the stream and
    returns an error, and the goroutine leaves the table of votes as it was;
    on equality it returns the listing as delivered and removes nothing. *)
Theorem doGetBlockHashesRequest_length (bns hs : list Z) (st : string) (p p1 : P) :
  GetBlockHashes bns p = ((hs, st, None), p1) ->
  (len hs ≠ len bns ->
     doGetBlockHashesRequest bns p =
       (([], st, Some (errors_New "unexpected get block hashes result delivered")),
        RemoveStream st p1) ∧
     ∀ r, hashWorker bns (r, p) = Some (r, RemoveStream st p1)) ∧
  (len hs = len bns ->
     doGetBlockHashesRequest bns p = ((hs, st, None), p1)).
Proof.
  intros Hget. split.
  - intros Hne.
    assert (Hreq : doGetBlockHashesRequest bns p =
              (([], st, Some (errors_New "unexpected get block hashes result delivered")),
               RemoveStream st p1)).
    { unfold doGetBlockHashesRequest. rewrite Hget. by rewrite decide_True. }
    split; [done|]. intros r. unfold hashWorker. cbn [snd fst]. by rewrite Hreq.
  - intros Heq. unfold doGetBlockHashesRequest. rewrite Hget. by rewrite decide_False by lia.
Qed.

Variable Concurrency : nat.
Variable getHashChain : Z -> P -> option ((list Z * list string * option error) * P).
Variable getBlocksByHashes :
  list Z -> list string -> P ->
  option ((option (list Block) * option error) * list string * P).

(** What the insert phase of [doShortRangeSync] does on a failure, under any
    schedule of the two phases before it. *)
Lemma doShortRangeSync_insert_failure (d : Downloader P C)
    hashChain whitelist p1 blocks whitelist' p2 n e c1 :
  checkPrerequisites Concurrency (proto d) = None ->
  getHashChain (CurrentBlock_NumberU64 (chain d)) (proto d) =
    Some ((hashChain, whitelist, None), p1) ->
  hashChain ≠ [] ->
  getBlocksByHashes hashChain whitelist p1 = Some ((Some blocks, None), whitelist', p2) ->
  verifyAndInsertBlocks blocks (chain d) = ((n, Some e), c1) ->
  doShortRangeSync Concurrency getHashChain getBlocksByHashes d =
    Some ((n, Some (errors_Wrap e "InsertChain")),
          mkDownloader
            (if errors_As_sigVerifyError e then p2 else removeStreams whitelist' p2)
            c1
            (finishSyncing
               (setTargetBN
                  (uint64_wrap (CurrentBlock_NumberU64 (chain d) + len hashChain - 1))
                  (startSyncing (dstatus d))))).
Proof.
  intros Hpre Hchain Hne Hfetch Hins. unfold doShortRangeSync.
  rewrite Hpre, Hchain.
  destruct (len hashChain =? 0) eqn:El.
  { apply Z.eqb_eq in El. unfold len in El. destruct hashChain; [done|].
    cbn [length] in El. lia. }
  rewrite Hfetch. cbv beta iota zeta. cbn [default from_option]. unfold id. rewrite Hins.
  destruct (errors_As_sigVerifyError e); reflexivity.
Qed.


End HelperFacts.

Section Runs.

Import downloader downloader.GetBlocksByHashManager samples.

(** C7. A run in which the failing insertion leaves a stream of the
    hash-chain whitelist in place.  The hash chain phase returns the
    whitelist [a; b].  The fetch phase drops [a] from the manager's whitelist
    after a deadline, which moves [b] down in the array that the caller's
    slice shares; the insertion then fails, not for a signature, and
    [removeStreams] is called on [b; b]: [RemoveStream] is called twice for
    [b] and never for [a], which stays among the streams. *)
Theorem insert_failure_spares_dropped_stream :
  getHashChain_sequential inOrder inOrderSet 2 100 (proto cycleStart) =
    Some (([10], ["a"; "b"]%string, None),
          mkScriptedPeers ["a"; "b"]%string []
            [ ([], "a"%string, Some context_DeadlineExceeded); ([Some 10], "b"%string, None) ] []) ∧
  doShortRangeSync_sequential blockHash float64.amd64_unrepresentable
      inOrder inOrderSet 2 10 cycleStart =
    Some ((0, Some (errors_Wrap (errorString "invalid merkle root") "InsertChain")),
          mkDownloader (mkScriptedPeers ["a"%string] [] [] ["b"; "b"]%string)
                       (mkScriptedChain 100 (0, Some (errorString "invalid merkle root")))
                       (mkStatus false 100)).
Proof. split; vm_compute; reflexivity. Qed.

(** Without a removal in the fetch phase both streams of the whitelist are
    evicted. *)
Example insert_failure_evicts_whitelist :
  doShortRangeSync_sequential blockHash float64.amd64_unrepresentable
      inOrder inOrderSet 2 10 cycleServed =
    Some ((0, Some (errors_Wrap (errorString "invalid merkle root") "InsertChain")),
          mkDownloader (mkScriptedPeers [] [] [] ["a"; "b"]%string)
                       (mkScriptedChain 100 (0, Some (errorString "invalid merkle root")))
                       (mkStatus false 100)).
Proof. vm_compute. reflexivity. Qed.

(** A signature failure after two blocks: the count and the error are
    returned, and no stream is evicted. *)
Example sig_verify_failure_evicts_nothing :
  doShortRangeSync_sequential blockHash float64.amd64_unrepresentable
      inOrder inOrderSet 2 10 cycleSigVerify =
    Some ((2, Some (errors_Wrap (sigVerifyError "invalid signature") "InsertChain")),
          mkDownloader (mkScriptedPeers ["a"; "b"]%string [] [] [])
                       (mkScriptedChain 102 (2, Some (sigVerifyError "invalid signature")))
                       (mkStatus false 102)).
Proof. vm_compute. reflexivity. Qed.

(** C4. [getNextHashes] on a fresh manager: it hands out both target
    hashes with a copy of the whitelist, and leaves [pendings] empty, so the
    next call hands out the same hashes again. *)
Theorem getNextHashes_marks_nothing :
  getNextHashes float64.amd64_unrepresentable freshManager =
    (Some ([10; 11], ["a"%string], None), freshManager) ∧
  pendings (getNextHashes float64.amd64_unrepresentable freshManager).2 = ∅ ∧
  getNextHashes float64.amd64_unrepresentable
    (getNextHashes float64.amd64_unrepresentable freshManager).2 =
    (Some ([10; 11], ["a"%string], None), freshManager).
Proof. repeat split; vm_compute; reflexivity. Qed.


End Runs.
(** ** The properties at the sample inputs *)

Section Witnesses.

Import downloader downloader.BlockHashResults downloader.GetBlocksByHashManager samples.

Lemma inOrder_enumerates : enumerates inOrder.
Proof. intros t m. reflexivity. Qed.

Lemma inOrderSet_enumerates : enumeratesSet inOrderSet.
Proof. intros s. reflexivity. Qed.

Example tally_votes2 :
  countHashMaxVote inOrder 0 votes2 ∅ = (11, {[ "p1"%string; "p2"%string ]}).
Proof. vm_compute. reflexivity. Qed.

Example chain_listings :
  computeLongestHashChain inOrder inOrderSet listings =
    ([10; 11], ["p1"%string; "p2"%string]).
Proof. vm_compute. reflexivity. Qed.

Lemma countHashMaxVote_tally_witness :
  enumerates inOrder ∧ Z.of_nat (size votes2) < 2 ^ 63 ∧
  ∀ h, (voteCount votes2 ∅ h ≤
        voteCount votes2 ∅ (countHashMaxVote inOrder 0 votes2 ∅).1)%nat.
Proof.
  assert (H1 : enumerates inOrder) by (intros t m; reflexivity).
  assert (H2 : Z.of_nat (size votes2) < 2 ^ 63) by (vm_compute; reflexivity).
  split; [exact H1|]. split; [exact H2|].
  exact (proj1 (proj2 (countHashMaxVote_tally inOrder 0 votes2 ∅ H1 H2))).
Defined.

Lemma whitelist_non_increasing_witness :
  enumerates inOrder ∧ enumeratesSet inOrderSet ∧
  ((computeLongestHashChain inOrder inOrderSet listings).1 ≠ [] ->
   (computeLongestHashChain inOrder inOrderSet listings).2 ≠ []).
Proof.
  assert (H1 : enumerates inOrder) by (intros t m; reflexivity).
  assert (H2 : enumeratesSet inOrderSet) by (intros s; reflexivity).
  split; [exact H1|]. split; [exact H2|].
  exact (proj2 (proj2 (whitelist_non_increasing inOrder inOrderSet listings H1 H2))).
Defined.

Lemma hash_chain_stops_at_first_empty_witness :
  enumerates inOrder ∧
  (length (computeLongestHashChain inOrder inOrderSet listings).1
   ≤ length (BlockHashResults.results listings))%nat.
Proof.
  assert (H1 : enumerates inOrder) by (intros t m; reflexivity).
  split; [exact H1|].
  exact (proj1 (hash_chain_stops_at_first_empty inOrder inOrderSet listings H1)).
Defined.

Example divideCeil_20_3 : divideCeil float64.amd64_unrepresentable 20 3 = 7.
Proof. vm_compute. reflexivity. Qed.

Lemma servedManager_state :
  managerState blockHash float64.amd64_unrepresentable servedManager.
Proof.
  apply (ms_addResult blockHash float64.amd64_unrepresentable
           (newGetBlocksByHashManager [10] (slice_of ["b"%string]))
           [10] [Some 10] "b"%string).
  - apply ms_new.
  - reflexivity.
  - vm_compute. reflexivity.
Defined.

Lemma getResults_aligned_witness :
  managerState blockHash float64.amd64_unrepresentable servedManager ∧
  getResults servedManager = (Some [10], None) ∧
  hashes servedManager !! 0%nat = Some (blockHash 10).
Proof.
  assert (H1 : getResults servedManager = (Some [10], None)) by (vm_compute; reflexivity).
  split; [exact servedManager_state|]. split; [exact H1|].
  destruct (getResults_aligned blockHash float64.amd64_unrepresentable servedManager)
    as (_ & _ & Hok).
  destruct (Hok [10] H1) as (_ & _ & Hhash).
  exact (Hhash servedManager_state 0%nat 10 eq_refl).
Defined.

Lemma numBlocksPerRequest_dynamic_witness :
  0 < len (hashes freshManager) < 2 ^ 53 ∧
  0 < Z.of_nat (slen (whitelist freshManager)) < 2 ^ 53 ∧
  numBlocksPerRequest float64.amd64_unrepresentable freshManager = clamp (ceilDiv 2 1) 6 10.
Proof.
  assert (H1 : 0 < len (hashes freshManager) < 2 ^ 53) by (vm_compute; split; reflexivity).
  assert (H2 : 0 < Z.of_nat (slen (whitelist freshManager)) < 2 ^ 53)
    by (vm_compute; split; reflexivity).
  split; [exact H1|]. split; [exact H2|].
  exact (proj1 (numBlocksPerRequest_dynamic float64.amd64_unrepresentable freshManager H1 H2)).
Defined.

Lemma getNextHashes_empty_whitelist_witness :
  slen (whitelist strandedManager) = 0%nat ∧
  getNextHashes float64.amd64_unrepresentable strandedManager =
    (Some ([], [], Some (errors_New "empty white list")), strandedManager).
Proof.
  assert (H1 : slen (whitelist strandedManager) = 0%nat) by reflexivity.
  split; [exact H1|].
  exact (proj1 (getNextHashes_empty_whitelist float64.amd64_unrepresentable strandedManager H1)).
Defined.

Lemma doGetBlockHashesRequest_length_witness :
  GetBlockHashes (Block := Hash) [101; 102; 103] shortAnswer =
    (([10; 11], "a"%string, None), mkScriptedPeers ["a"%string] [] [] []) ∧
  len [10; 11] ≠ len [101; 102; 103] ∧
  doGetBlockHashesRequest (Block := Hash) [101; 102; 103] shortAnswer =
    (([], "a"%string, Some (errors_New "unexpected get block hashes result delivered")),
     mkScriptedPeers [] [] [] ["a"%string]).
Proof.
  assert (H1 : GetBlockHashes (Block := Hash) [101; 102; 103] shortAnswer =
                 (([10; 11], "a"%string, None), mkScriptedPeers ["a"%string] [] [] []))
    by reflexivity.
  assert (H2 : len [10; 11] ≠ len [101; 102; 103]) by (vm_compute; discriminate).
  split; [exact H1|]. split; [exact H2|].
  exact (proj1 (proj1 (doGetBlockHashesRequest_length _ _ _ _ _ H1) H2)).
Defined.

End Witnesses.

(** * Further properties *)

(** ** Framing: short inputs and sequences of messages *)

Section FramingEdges.
Import sttypes notions.

(** X1. [intToBytes] keeps the low 32 bits of its argument: the four bytes
    it makes of [v], followed by anything, decode to [v mod 2^32].
    [bytesToInt] reads the first four bytes only; its value is below 2^32 and
    encodes to those four bytes again.  On fewer than four bytes it panics. *)
Theorem bytesToInt_intToBytes_wrap (v : Z) (rest : list byte) :
  bytesToInt (intToBytes v ++ rest) = Some (v mod 2 ^ 32) ∧
  (∀ b0 b1 b2 b3 tl n, bytesToInt (b0 :: b1 :: b2 :: b3 :: tl) = Some n ->
     0 <= n < 2 ^ 32 ∧ intToBytes n = [b0; b1; b2; b3]) ∧
  (∀ b, (length b < 4)%nat -> bytesToInt b = None).
Proof.
  split; [|split].
  - unfold bytesToInt, intToBytes, uint32_wrap.
    change (PutUint32 (v mod 2 ^ 32) ++ rest) with
      (byte.of_Z (v mod 2 ^ 32) :: byte.of_Z (Z.shiftr (v mod 2 ^ 32) 8) ::
       byte.of_Z (Z.shiftr (v mod 2 ^ 32) 16) :: byte.of_Z (Z.shiftr (v mod 2 ^ 32) 24) :: rest).
    rewrite Uint32_le_combine.
    change [byte.of_Z (v mod 2 ^ 32); byte.of_Z (Z.shiftr (v mod 2 ^ 32) 8);
            byte.of_Z (Z.shiftr (v mod 2 ^ 32) 16); byte.of_Z (Z.shiftr (v mod 2 ^ 32) 24)]
      with (PutUint32 (v mod 2 ^ 32)).
    rewrite PutUint32_le_split, le_combine_split.
    change (Z.of_nat 4 * 8) with 32. by rewrite Z.mod_mod by lia.
  - intros b0 b1 b2 b3 tl n Hn. unfold bytesToInt in Hn.
    rewrite Uint32_le_combine in Hn. injection Hn as <-.
    pose proof (le_combine_bound [b0; b1; b2; b3]) as Hb.
    change (8 * Z.of_nat (length [b0; b1; b2; b3])) with 32 in Hb.
    split; [done|]. unfold intToBytes, uint32_wrap.
    rewrite Z.mod_small by done. rewrite PutUint32_le_split.
    apply (split_le_combine [b0; b1; b2; b3]).
  - intros b Hb. by destruct b as [|? [|? [|? [|? ?]]]]; cbn in Hb; try lia.
Qed.

(** X2. [ReadBytes] on an input that ends too early.  At the end of the
    input it returns no buffer and [io.EOF] wrapped as "read size".  When the
    size arrives in one piece and announces [n] bytes, within the limit, and
    fewer follow, in whatever pieces, it returns the bytes that came, padded
    with zeros to [n], and the error of [io.ReadFull] wrapped as "read
    content": [io.EOF] when nothing followed the size, [io.ErrUnexpectedEOF]
    otherwise; no input is left. *)
Theorem ReadBytes_short_input (st : BaseStream) :
  (rd_buf st = [] -> raw_in st = [] ->
     ReadBytes st = (Some (None, Some (errors_Wrap io_EOF "read size")), st)) ∧
  (∀ n body, 0 <= n <= maxMsgBytes -> (length body < Z.to_nat n)%nat ->
     (4 ≤ length (firstDelivery st))%nat ->
     pending st = intToBytes n ++ body ->
     ∃ st',
       ReadBytes st =
         (Some (Some (body ++ replicate (Z.to_nat n - length body) Byte.x00),
                Some (errors_Wrap (if decide (body = []) then io_EOF else io_ErrUnexpectedEOF)
                                  "read content")), st') ∧
       pending st' = [] ∧ rw_buf st' = rw_buf st ∧ rw_out st' = rw_out st).
Proof.
  split; [apply ReadBytes_eof|].
  intros n body Hn Hlen Hfd Hp. pose proof maxMsgBytes_lt as Hmax.
  assert (Hne : rd_buf st ≠ [] ∨ raw_in st ≠ []).
  { unfold firstDelivery in Hfd. destruct (rd_buf st); [|by left].
    destruct (raw_in st); [cbn in Hfd; lia|by right]. }
  destruct (ReadBytes_spec st Hne) as (st' & Hb' & Ho' & Hspec).
  assert (Hh : take 4 (firstDelivery st) = intToBytes n).
  { destruct (firstDelivery_prefix st) as [k Hk].
    assert (take 4 (pending st) = take 4 (firstDelivery st))
      by (rewrite Hk, take_app_le by lia; done).
    rewrite <- H, Hp. by rewrite (take_app_length' (intToBytes n)). }
  rewrite Hh, le_combine_intToBytes in Hspec by lia.
  destruct (n >? maxMsgBytes) eqn:E; [lia|].
  rewrite Hp, (drop_app_length' (intToBytes n)) in Hspec by done.
  rewrite take_ge, drop_ge in Hspec by lia.
  destruct Hspec as [Heq Hpend]. exists st'. split; [|done].
  rewrite Heq. unfold fullErr.
  replace (Z.to_nat n <=? length body)%nat with false by (symmetry; apply Nat.leb_gt; lia).
  destruct body; reflexivity.
Qed.

(** X3. [ReadBytes] drops the count that the [Read] of the size returns.
    When fewer than 4 bytes are within reach of that [Read], the size is
    decoded from those bytes alone, padded with zeros, and is then within the
    limit; the bytes behind them, the rest of the size among them, are read
    as the content: as many as that size says, padded with zeros and with the
    error of [io.ReadFull] wrapped as "read content" when the input ends
    before. *)
Theorem ReadBytes_short_header (st : BaseStream) :
  rd_buf st ≠ [] ∨ raw_in st ≠ [] ->
  (length (firstDelivery st) < 4)%nat ->
  let size := Z.to_nat (le_combine (firstDelivery st)) in
  let tail := drop (length (firstDelivery st)) (pending st) in
  0 <= le_combine (firstDelivery st) <= maxMsgBytes ∧
  ∃ st',
    ReadBytes st =
      (Some (Some (take size tail ++ replicate (size - length tail) Byte.x00),
             if (size <=? length tail)%nat then None
             else Some (errors_Wrap (if decide (tail = []) then io_EOF
                                     else io_ErrUnexpectedEOF) "read content")),
       st') ∧
    pending st' = drop size tail ∧ rw_buf st' = rw_buf st ∧ rw_out st' = rw_out st.
Proof.
  intros Hne Hlen size tail.
  destruct (ReadBytes_spec st Hne) as (st' & Hb' & Ho' & Hspec).
  rewrite (take_ge (firstDelivery st)) in Hspec by lia.
  destruct (bytesToInt_padded (firstDelivery st) ltac:(lia)) as (_ & Hrange & Hlt).
  specialize (Hlt Hlen).
  assert (Hmax : 2 ^ 24 <= maxMsgBytes) by (vm_compute; discriminate).
  split; [lia|].
  destruct (le_combine (firstDelivery st) >? maxMsgBytes) eqn:E; [lia|].
  fold size tail in Hspec. destruct Hspec as [Heq Hpend].
  exists st'. split; [|done]. rewrite Heq. unfold fullErr.
  destruct (size <=? length tail)%nat eqn:El; [done|].
  apply Nat.leb_gt in El. cbn [fmap option_fmap option_map].
  destruct tail as [|t tl] eqn:Et.
  - rewrite take_nil. by rewrite decide_True.
  - rewrite decide_False by done. destruct size; [cbn in El; lia|]. done.
Qed.

(** X4. The framing is prefix free: when two payloads within the limit,
    each framed and followed by further bytes, give the same bytes, the
    payloads are equal and so are the bytes that follow. *)
Theorem frame_uniquely_decodable (b1 b2 r1 r2 : list byte) :
  len b1 <= maxMsgBytes -> len b2 <= maxMsgBytes ->
  frame b1 ++ r1 = frame b2 ++ r2 -> b1 = b2 ∧ r1 = r2.
Proof.
  intros H1 H2 Heq. pose proof maxMsgBytes_lt as Hmax.
  unfold frame in Heq. rewrite <- !app_assoc in Heq.
  apply app_inj_1 in Heq as [Hh Ht]; [|done].
  assert (Hl : len b1 = len b2).
  { rewrite <- (le_combine_intToBytes (len b1)), <- (le_combine_intToBytes (len b2))
      by (unfold len in *; lia). by rewrite Hh. }
  apply app_inj_1 in Ht; [done|]. unfold len in Hl. lia.
Qed.

(** X5. Messages through a stream.  Two calls of [WriteBytes] put the two
    frames on the wire in order, behind what was there.  [ReadBytes] returns
    the payload of a frame whose size arrives in one piece, whatever the
    pieces the rest arrives in, and leaves what follows the frame.  When
    every frame arrives as a piece of its own, two calls return the two
    payloads in order. *)
Theorem two_messages_in_order (b1 b2 : list byte) (st : BaseStream) :
  len b1 <= maxMsgBytes -> len b2 <= maxMsgBytes ->
  WriteBytes b2 (WriteBytes b1 st).2 =
    (None, mkBaseStream (rd_buf st) (raw_in st) []
             (rw_out st ++ rw_buf st ++ frame b1 ++ frame b2)) ∧
  (∀ rest, (4 ≤ length (firstDelivery st))%nat -> pending st = frame b1 ++ rest ->
     ∃ st', ReadBytes st = (Some (Some b1, None), st') ∧ pending st' = rest ∧
            rw_buf st' = rw_buf st ∧ rw_out st' = rw_out st) ∧
  (∀ rest buf out,
     ReadBytes (mkBaseStream [] (frame b1 :: frame b2 :: rest) buf out) =
       (Some (Some b1, None), mkBaseStream [] (frame b2 :: rest) buf out) ∧
     ReadBytes (mkBaseStream [] (frame b2 :: rest) buf out) =
       (Some (Some b2, None), mkBaseStream [] rest buf out)).
Proof.
  intros H1 H2. split; [|split].
  - rewrite (WriteBytes_ok b1 st H1). cbn [snd].
    rewrite (WriteBytes_ok b2 _ H2). cbn [rd_buf raw_in rw_buf rw_out app].
    unfold frame. by rewrite <- !app_assoc.
  - intros rest Hfd Hp. by apply ReadBytes_whole_header.
  - intros rest buf out. split; by apply ReadBytes_delivery.
Qed.
End FramingEdges.

(** ** The vote table *)

Section VoteFacts.
Import downloader downloader.BlockHashResults notions.

Lemma filter_two_length {A} (P Q : A -> Prop) `{!∀ x, Decision (P x)} `{!∀ x, Decision (Q x)}
    (l : list A) :
  (∀ x, P x -> Q x -> False) ->
  (length (filter P l) + length (filter Q l) ≤ length l)%nat.
Proof.
  intros Hdisj. induction l as [|x l IH]; [done|].
  rewrite !filter_cons. destruct (decide (P x)) as [Hp|]; destruct (decide (Q x)) as [Hq|];
    cbn [length]; try lia. exfalso. eauto.
Qed.

Lemma voteCount_two V W h h' :
  h ≠ h' -> (voteCount V W h + voteCount V W h' ≤ size (countedVotes V W))%nat.
Proof.
  intros Hne. unfold voteCount. rewrite !size_filter_map_to_list, <- length_map_to_list.
  apply filter_two_length. intros [st x]; cbn. congruence.
Qed.

(** X6. A hash with more than half of the counted votes wins the tally,
    in whatever order [range] visits the map, and the next whitelist is the
    set of the streams whose counted vote is that hash. *)
Theorem majority_wins
    (rangeMap : nat -> gmap string Z -> list (string * Z))
    (t : nat) (V : gmap string Z) (W : gset string) (h : Z) :
  enumerates rangeMap ->
  Z.of_nat (size V) < 2 ^ 63 ->
  (size (countedVotes V W) < 2 * voteCount V W h)%nat ->
  (countHashMaxVote rangeMap t V W).1 = h ∧
  ∀ st, st ∈ (countHashMaxVote rangeMap t V W).2 ↔ countedVotes V W !! st = Some h.
Proof.
  intros Hrange Hsize Hmaj.
  assert (Hw : (countHashMaxVote rangeMap t V W).1 = h).
  { pose proof (Hrange t V) as H1.
    assert (Hlen : Z.of_nat (length (rangeMap t V)) < 2 ^ 63)
      by (rewrite H1, length_map_to_list; done).
    pose proof (foldl_countVote_inv W _ Hlen) as (_ & Hmax & Hres).
    unfold countHashMaxVote. cbn [fst].
    set (w := res _) in *. 
    destruct (decide (w = h)) as [|Hne]; [done|]. exfalso.
    pose proof (Hmax h) as Hh. rewrite <- (voteCount_cnt V W h _ H1) in Hh.
    destruct Hres as [[H0 _]|[Hpos He]]; [lia|].
    rewrite <- (voteCount_cnt V W w _ H1) in He.
    pose proof (voteCount_two V W h w ltac:(congruence)). lia. }
  split; [done|]. intros st. rewrite <- Hw. by apply nextWl_spec.
Qed.

(** X7. When no stream has the empty hash as its vote, [countHashMaxVote]
    returns the empty hash exactly when no vote is counted. *)
Theorem tally_empty_iff_no_vote
    (rangeMap : nat -> gmap string Z -> list (string * Z))
    (t : nat) (V : gmap string Z) (W : gset string) :
  enumerates rangeMap ->
  Z.of_nat (size V) < 2 ^ 63 ->
  (∀ st, V !! st ≠ Some emptyHash) ->
  ((countHashMaxVote rangeMap t V W).1 = emptyHash ↔ countedVotes V W = ∅).
Proof.
  intros Hrange Hsize Hne. split; [|by apply no_counted_vote_empty].
  intros He. apply map_empty. intros st.
  destruct (countedVotes V W !! st) as [h|] eqn:E; [|done]. exfalso.
  pose proof (Hrange t V) as H1.
  assert (Hlen : Z.of_nat (length (rangeMap t V)) < 2 ^ 63)
    by (rewrite H1, length_map_to_list; done).
  pose proof (foldl_countVote_inv W _ Hlen) as (_ & Hmax & Hres).
  unfold countHashMaxVote in He. cbn [fst] in He. rewrite He in Hres.
  destruct Hres as [[H0 _]|[Hpos Hcnt]].
  - pose proof (voteCount_pos V W st h E) as Hp.
    rewrite (voteCount_cnt V W h _ H1) in Hp. specialize (Hmax h). lia.
  - rewrite <- (voteCount_cnt V W emptyHash _ H1) in Hcnt.
    assert (Hnz : voteCount V W emptyHash ≠ 0%nat) by lia.
    unfold voteCount in Hnz. apply map_size_non_empty_iff in Hnz.
    apply map_choose in Hnz as (st' & h' & Hst').
    apply map_lookup_filter_Some in Hst' as [Hst' Heq]. cbn in Heq. subst h'.
    apply countedVotes_lookup in Hst' as [Hst' _]. by apply (Hne st').
Qed.

Lemma chainAfter_whitelist_mono rangeMap r n m :
  enumerates rangeMap ->
  (n ≤ m)%nat -> (chainAfter rangeMap n r).1 ≠ [] ->
  (chainAfter rangeMap m r).2 ⊆ (chainAfter rangeMap n r).2.
Proof.
  intros Hrange Hnm Hne. induction Hnm as [|m Hm IH]; [done|].
  etransitivity; [|exact IH].
  assert (Hne' : (chainAfter rangeMap m r).1 ≠ []).
  { destruct (chainAfter_prefix rangeMap r n m Hm) as [k Hk]. rewrite Hk.
    destruct (chainAfter rangeMap n r).1; [done|]. done. }
  destruct (chainAfter_step rangeMap r m) as [->|(V & _ & _ & _ & ->)]; [done|].
  cbn [snd]. apply nextWl_subseteq; [done|].
  by apply chainAfter_whitelist_nonempty.
Qed.

(** X8. Every stream of the whitelist that [computeLongestHashChain]
    returns has voted for every hash of the chain it returns: at each
    position of the chain the table holds the chain's hash as the vote of
    that stream. *)
Theorem whitelist_agrees_on_chain
    (rangeMap : nat -> gmap string Z -> list (string * Z))
    (rangeSet : gset string -> list string) (r : blockHashResults) :
  enumerates rangeMap ->
  enumeratesSet rangeSet ->
  ∀ st i h,
    st ∈ (computeLongestHashChain rangeMap rangeSet r).2 ->
    (computeLongestHashChain rangeMap rangeSet r).1 !! i = Some h ->
    ∃ V, results r !! i = Some V ∧ V !! st = Some h.
Proof.
  intros Hrange Hset st i h.
  rewrite (computeLongestHashChain_chainAfter rangeMap rangeSet r _ (Nat.le_refl _)).
  cbn [fst snd]. set (N := length (results r)). intros Hst Hi.
  rewrite (Hset _), elem_of_elements in Hst.
  assert (HiN : (i < length (chainAfter rangeMap N r).1)%nat) by (by apply lookup_lt_Some in Hi).
  assert (Hfin : chainAfter rangeMap N r = chainLoop rangeMap 0 (results r) ∅ [])
    by (by apply chainAfter_ge).
  assert (HSi : length (chainAfter rangeMap (S i) r).1 = S i).
  { apply chainAfter_full. rewrite <- Hfin. lia. }
  pose proof (chainAfter_length rangeMap r N) as HN.
  destruct (chainAfter_step rangeMap r i) as [Heq|(V & HV & Hl & Hne & Heq)].
  { rewrite Heq in HSi. pose proof (chainAfter_length rangeMap r i). lia. }
  exists V. split; [done|].
  assert (Hsub : (chainAfter rangeMap N r).2 ⊆ (chainAfter rangeMap (S i) r).2).
  { apply chainAfter_whitelist_mono; [done|lia|]. rewrite Heq. cbn [fst].
    by destruct (chainAfter rangeMap i r).1. }
  apply Hsub in Hst. rewrite Heq in Hst. cbn [snd] in Hst.
  apply (nextWl_spec rangeMap Hrange), countedVotes_lookup in Hst as [Hst _].
  rewrite Hst. f_equal.
  destruct (chainAfter_prefix rangeMap r (S i) N ltac:(lia)) as [k Hk].
  rewrite Hk, Heq in Hi. cbn [fst] in Hi.
  rewrite lookup_app_l in Hi by (rewrite length_app; cbn; lia).
  rewrite lookup_app_r in Hi by lia. rewrite Hl, Nat.sub_diag in Hi. cbn [lookup list_lookup] in Hi.
  by injection Hi.
Qed.

Lemma recordedPrefix_no_empty hashes h : h ∈ recordedPrefix hashes -> h ≠ emptyHash.
Proof.
  induction hashes as [|h0 hashes IH]; cbn [recordedPrefix]; [by intros ?%elem_of_nil|].
  destruct (decide (h0 = emptyHash)); [by intros ?%elem_of_nil|].
  rewrite elem_of_cons. intros [->|]; eauto.
Qed.

Lemma recordedPrefix_length hashes : (length (recordedPrefix hashes) ≤ length hashes)%nat.
Proof.
  induction hashes as [|h hashes IH]; cbn [recordedPrefix length]; [done|].
  destruct (decide (h = emptyHash)); cbn [length]; lia.
Qed.

Lemma addResult_from_spec stid hashes : ∀ i rs,
  ((i + length (recordedPrefix hashes) ≤ length rs)%nat ->
   ∃ rs', addResult_from i hashes stid rs = Some rs' ∧ length rs' = length rs ∧
          ∀ j, rs' !! j =
               if decide (i ≤ j)%nat then
                 match recordedPrefix hashes !! (j - i)%nat with
                 | Some h => <[stid := h]> <$> rs !! j
                 | None => rs !! j
                 end
               else rs !! j) ∧
  ((i ≤ length rs < i + length (recordedPrefix hashes))%nat ->
   addResult_from i hashes stid rs = None).
Proof.
  induction hashes as [|h hashes IH]; intros i rs; cbn [addResult_from recordedPrefix].
  - split; [|cbn; lia]. intros _. exists rs. split; [done|]. split; [done|].
    intros j. rewrite lookup_nil. by destruct (decide _).
  - destruct (decide (h = emptyHash)) as [|Hne].
    { split; [|cbn; lia]. intros _. exists rs. split; [done|]. split; [done|].
      intros j. rewrite lookup_nil. by destruct (decide _). }
    cbn [length]. split.
    + intros Hlen. destruct (lookup_lt_is_Some_2 rs i ltac:(lia)) as [V HV]. rewrite HV.
      destruct (IH (S i) (<[i := <[stid := h]> V]> rs)) as [Hok _].
      destruct Hok as (rs' & Heq & Hl & Hlook); [rewrite length_insert; lia|].
      exists rs'. split; [done|]. split; [by rewrite Hl, length_insert|].
      intros j. rewrite Hlook.
      destruct (decide (S i ≤ j)%nat) as [Hj|Hj].
      * rewrite decide_True by lia. rewrite list_lookup_insert_ne by lia.
        replace (j - i)%nat with (S (j - S i)) by lia. done.
      * destruct (decide (i ≤ j)%nat) as [Hij|Hij].
        -- assert (j = i) as -> by lia. rewrite Nat.sub_diag. cbn.
           rewrite list_lookup_insert_eq by lia. by rewrite HV.
        -- by rewrite list_lookup_insert_ne by lia.
    + intros Hlen. destruct (rs !! i) as [V|] eqn:HV; [|done].
      apply lookup_lt_Some in HV. apply IH. rewrite length_insert. lia.
Qed.

(** X9. [addResult] of the hash results records the hashes of a listing
    that come before its first empty hash, each at its position under the id
    of the stream, and leaves every other entry as it was.  It panics exactly
    when those hashes are more than the table has positions.  It never records
    an empty hash. *)
Theorem addResult_records (hashes : list Z) (stid : string) (r : blockHashResults) :
  ((length (recordedPrefix hashes) ≤ length (results r))%nat ->
   ∃ r', addResult hashes stid r = Some r' ∧ bns r' = bns r ∧
         length (results r') = length (results r) ∧
         ∀ j, results r' !! j =
              match recordedPrefix hashes !! j with
              | Some h => <[stid := h]> <$> results r !! j
              | None => results r !! j
              end) ∧
  ((length (results r) < length (recordedPrefix hashes))%nat ->
   addResult hashes stid r = None) ∧
  (∀ r', noEmptyVote (results r) -> addResult hashes stid r = Some r' ->
         noEmptyVote (results r')).
Proof.
  destruct (addResult_from_spec stid hashes 0 (results r)) as [Hok Hpanic].
  assert (H1 : (length (recordedPrefix hashes) ≤ length (results r))%nat ->
     ∃ r', addResult hashes stid r = Some r' ∧ bns r' = bns r ∧
         length (results r') = length (results r) ∧
         ∀ j, results r' !! j =
              match recordedPrefix hashes !! j with
              | Some h => <[stid := h]> <$> results r !! j
              | None => results r !! j
              end).
  { intros Hlen. destruct (Hok ltac:(lia)) as (rs' & Heq & Hl & Hlook).
    exists (mkBlockHashResults (bns r) rs'). unfold addResult. rewrite Heq.
    split; [done|]. split; [done|]. split; [done|]. intros j. cbn [results].
    rewrite Hlook, decide_True by lia. by rewrite Nat.sub_0_r. }
  split; [done|]. split.
  - intros Hlen. unfold addResult. by rewrite Hpanic by lia.
  - intros r' Hinv Hadd.
    destruct (decide (length (recordedPrefix hashes) ≤ length (results r))%nat) as [Hlen|Hlen].
    2:{ unfold addResult in Hadd. rewrite Hpanic in Hadd by lia. done. }
    destruct (H1 Hlen) as (r'' & Heq & _ & _ & Hlook). rewrite Heq in Hadd. injection Hadd as ->.
    intros V st [j Hj]%list_elem_of_lookup. rewrite Hlook in Hj.
    destruct (recordedPrefix hashes !! j) as [h|] eqn:Hh.
    + destruct (results r !! j) as [V0|] eqn:HV0; [|done]. cbn in Hj. injection Hj as <-.
      rewrite lookup_insert. destruct (decide (stid = st)) as [|Hne].
      * intros [= ->]. eapply recordedPrefix_no_empty; [|done].
        apply list_elem_of_lookup. eauto.
      * apply (Hinv V0). apply list_elem_of_lookup. eauto.
    + apply (Hinv V). apply list_elem_of_lookup. eauto.
Qed.

End VoteFacts.

(** ** The fetch manager and the states of a fetch phase *)

Section FetchCycleFacts.
Import downloader downloader.GetBlocksByHashManager notions.

Context {Block : Type}.
Variable Block_Hash : Block -> Z.
Variable unrepresentable : spec_float -> Z.
Abbreviation manager := (getBlocksByHashManager (Block := Block)).

(** X10. [removeStreamID] removes every occurrence of the stream from the
    whitelist and keeps the other streams in their order; the backing array
    keeps its length, and the other fields of the manager stay as they
    were. *)
Theorem removeStreamID_removes_all (target : string) (m : manager) :
  (slen (whitelist m) ≤ length (sarray (whitelist m)))%nat ->
  elems (whitelist (removeStreamID target m)) =
    filter (fun x => x ≠ target) (elems (whitelist m)) ∧
  (target ∉ elems (whitelist (removeStreamID target m))) ∧
  length (sarray (whitelist (removeStreamID target m))) = length (sarray (whitelist m)) ∧
  (slen (whitelist (removeStreamID target m)) ≤ slen (whitelist m))%nat ∧
  hashes (removeStreamID target m) = hashes m ∧
  pendings (removeStreamID target m) = pendings m ∧
  results (removeStreamID target m) = results m.
Proof.
  intros Hcap. unfold removeStreamID. cbn [whitelist hashes pendings results].
  destruct (removeStreamID_loop_spec target (S (slen (whitelist m))) (whitelist m) Hcap
              ltac:(lia)) as (H1 & H2 & H3).
  rewrite H1. split; [done|]. split; [|done].
  rewrite list_elem_of_filter. tauto.
Qed.

Lemma index_of_not_in target l : target ∉ l -> index_of target l = None.
Proof.
  induction l as [|x l IH]; cbn [index_of]; [done|].
  rewrite not_elem_of_cons. intros [Hne Hl].
  rewrite decide_False by done. by rewrite IH.
Qed.

Lemma index_of_app target l1 l2 :
  target ∉ l1 -> index_of target (l1 ++ target :: l2) = Some (length l1).
Proof.
  induction l1 as [|x l1 IH]; cbn [index_of app length].
  - intros _. by rewrite decide_True.
  - rewrite not_elem_of_cons. intros [Hne Hl].
    rewrite decide_False by done. by rewrite IH.
Qed.

Lemma drop_last {A} (x : A) (l : list A) :
  ∃ y, last (x :: l) = Some y ∧ drop (length l) (x :: l) = [y].
Proof.
  revert x. induction l as [|z l IH]; intros x; [by exists x|].
  destruct (IH z) as (y & Hy & Hd). exists y. split; [done|]. done.
Qed.

(** X11. The backing array after a removal.  When the whitelist fills its
    array and holds the target once, the streams behind the target move one
    place down and the last place keeps what it held: the array then ends
    with its last stream twice, or, when the target was last, still with the
    target. *)
Theorem removeStreamID_shared_array (target : string) (l1 l2 : list string) (m : manager) :
  whitelist m = slice_of (l1 ++ target :: l2) ->
  target ∉ l1 -> target ∉ l2 ->
  ∃ y, last (target :: l2) = Some y ∧
       whitelist (removeStreamID target m) =
         mkSlice (l1 ++ l2 ++ [y]) (length l1 + length l2).
Proof.
  intros Hwl H1 H2. destruct (drop_last target l2) as (y & Hy & Hd).
  exists y. split; [done|].
  unfold removeStreamID. cbn [whitelist]. rewrite Hwl.
  assert (Hlen : length (l1 ++ target :: l2) = S (length l1 + length l2))
    by (rewrite length_app; cbn; lia).
  unfold slice_of. rewrite Hlen. cbn [slen].
  cbn [removeStreamID_loop]. unfold elems at 1. cbn [slen sarray].
  rewrite <- Hlen at 1. rewrite firstn_all, index_of_app by done.
  rewrite decide_False by lia.
  assert (Hrem : slice_remove (length l1)
            (mkSlice (l1 ++ target :: l2) (S (length l1 + length l2))) =
          mkSlice (l1 ++ l2 ++ [y]) (length l1 + length l2)).
  { unfold slice_remove, elems. cbn [slen sarray].
    rewrite <- Hlen at 1. rewrite firstn_all.
    rewrite take_app_length.
    replace (S (length l1)) with (length (l1 ++ [target])) by (rewrite length_app; cbn; lia).
    replace (l1 ++ target :: l2) with ((l1 ++ [target]) ++ l2) at 1 by (by rewrite <- app_assoc).
    rewrite drop_app_length.
    replace (S (length l1 + length l2) - 1)%nat with (length l1 + length l2)%nat by lia.
    rewrite drop_app_add'; [|done]. rewrite Hd. done. }
  rewrite Hrem. destruct (length l1 + length l2)%nat eqn:E.
  - destruct l1, l2; try done.
  - cbn [removeStreamID_loop]. unfold elems. cbn [slen sarray].
    rewrite <- E. rewrite app_assoc.
    rewrite take_app_length'; [|by rewrite length_app].
    rewrite index_of_not_in; [done|]. rewrite elem_of_app. tauto.
Qed.

Lemma foldl_difference (p : gset Z) (hs : list Z) :
  foldl (fun p hash => p ∖ {[hash]}) p hs = p ∖ list_to_set hs.
Proof.
  revert p. induction hs as [|h hs IH]; intros p; cbn [foldl].
  - rewrite list_to_set_nil. set_solver.
  - rewrite IH, list_to_set_cons. set_solver.
Qed.

(** X12. [handleResultError] takes the hashes of the batch out of
    [pendings] and the stream out of the whitelist; it leaves the records and
    the target hashes alone, and every other stream stays on the
    whitelist. *)
Theorem handleResultError_effect (hs : list Z) (st : string) (m : manager) :
  (pendings (handleResultError hs st m) = pendings m ∖ list_to_set hs) ∧
  results (handleResultError hs st m) = results m ∧
  hashes (handleResultError hs st m) = hashes m ∧
  whitelist (handleResultError hs st m) = whitelist (removeStreamID st m) ∧
  ((slen (whitelist m) ≤ length (sarray (whitelist m)))%nat ->
   (st ∉ elems (whitelist (handleResultError hs st m))) ∧
   ∀ x, x ≠ st -> (x ∈ elems (whitelist (handleResultError hs st m)) ↔ x ∈ elems (whitelist m))).
Proof.
  unfold handleResultError. cbn [pendings results hashes whitelist].
  rewrite foldl_difference. split; [done|]. split; [done|]. split; [done|]. split; [done|].
  intros Hcap. unfold removeStreamID. cbn [whitelist].
  destruct (removeStreamID_loop_spec st (S (slen (whitelist m))) (whitelist m) Hcap
              ltac:(lia)) as (He & _).
  rewrite He. split; [rewrite list_elem_of_filter; tauto|].
  intros x Hx. rewrite list_elem_of_filter. tauto.
Qed.

Lemma removeStreamID_loop_array target : ∀ fuel (wl : slice string) x,
  x ∈ sarray (removeStreamID_loop fuel target wl) -> x ∈ sarray wl.
Proof.
  induction fuel as [|fuel IH]; intros wl x; cbn [removeStreamID_loop]; [done|].
  destruct (index_of target (elems wl)) as [i|]; [|done].
  intros Hx. apply IH in Hx. destruct (decide (i = slen wl)); [done|].
  unfold slice_remove, elems in Hx. cbn [sarray] in Hx.
  rewrite !elem_of_app in Hx. destruct Hx as [Hx|[Hx|Hx]].
  - by apply (subseteq_take i (sarray wl)).
  - by apply (subseteq_take (slen wl) (sarray wl)), (subseteq_drop (S i)).
  - by apply (subseteq_drop (slen wl - 1) (sarray wl)).
Qed.

Lemma addResult_from_effect (blocks : list (option Block)) (st : string) :
  ∀ hs i (m : manager),
  (i + length hs ≤ length blocks)%nat ->
  ∃ m', addResult_from i hs blocks st m = Some m' ∧
        hashes m' = hashes m ∧ whitelist m' = whitelist m ∧
        (pendings m' = pendings m ∖ list_to_set hs) ∧
        (∀ h, h ∉ hs -> results m' !! h = results m !! h) ∧
        (∀ h, h ∈ hs -> ∃ j b, hs !! j = Some h ∧ blocks !! (i + j)%nat = Some b ∧
                               results m' !! h = Some (mkBlockResult b st)).
Proof.
  induction hs as [|h hs IH]; intros i m Hlen; cbn [addResult_from].
  - exists m. repeat split; try done.
    + rewrite list_to_set_nil. set_solver.
    + intros h Hh. by apply elem_of_nil in Hh.
  - cbn [length] in Hlen.
    destruct (lookup_lt_is_Some_2 blocks i ltac:(lia)) as [b Hb]. rewrite Hb.
    destruct (IH (S i) (mkManager (hashes m) (pendings m ∖ {[h]})
                          (<[h := mkBlockResult b st]> (results m)) (whitelist m))
                 ltac:(lia)) as (m' & Hadd & Hh & Hw & Hp & Hout & Hin).
    cbn [hashes whitelist pendings results] in *.
    exists m'. split; [done|]. split; [done|]. split; [done|]. split; [|split].
    + rewrite Hp, list_to_set_cons. set_solver.
    + intros h' Hh'. apply not_elem_of_cons in Hh' as [Hne Hh'].
      rewrite Hout by done. by rewrite lookup_insert_ne.
    + intros h' Hh'. destruct (decide (h' ∈ hs)) as [Hhs|Hhs].
      * destruct (Hin h' Hhs) as (j & b' & Hj & Hbj & Hr).
        exists (S j), b'. split; [done|]. split; [|done].
        by replace (i + S j)%nat with (S i + j)%nat by lia.
      * apply elem_of_cons in Hh' as [->|?]; [|done].
        exists 0%nat, b. split; [done|]. rewrite Nat.add_0_r. split; [done|].
        rewrite Hout by done. by rewrite lookup_insert_eq.
Qed.

Lemma addResult_from_panic (blocks : list (option Block)) (st : string) :
  ∀ hs i (m : manager),
  (i ≤ length blocks < i + length hs)%nat ->
  addResult_from i hs blocks st m = None.
Proof.
  induction hs as [|h hs IH]; intros i m Hlen; cbn [addResult_from length] in *; [lia|].
  destruct (blocks !! i) as [b|] eqn:Hb; [|done].
  apply lookup_lt_Some in Hb. apply IH. lia.
Qed.

(** X13. [addResult] of the manager.  With at least as many blocks as
    hashes, it records for every hash of the batch a block of the delivery
    at a position of that hash, under the id of the stream, takes the batch
    out of [pendings] and leaves the other records, the target and the
    whitelist as they were.  With fewer blocks than hashes it panics.  After
    [checkGetBlockByHashesResult] accepted the blocks it does not panic. *)
Theorem addResult_effect (hs : list Z) (blocks : list (option Block)) (st : string)
    (m : manager) :
  ((length hs ≤ length blocks)%nat ->
   ∃ m', addResult hs blocks st m = Some m' ∧
         hashes m' = hashes m ∧ whitelist m' = whitelist m ∧
         (pendings m' = pendings m ∖ list_to_set hs) ∧
         (∀ h, h ∉ hs -> results m' !! h = results m !! h) ∧
         (∀ h, h ∈ hs -> ∃ j b, hs !! j = Some h ∧ blocks !! j = Some b ∧
                                results m' !! h = Some (mkBlockResult b st))) ∧
  ((length blocks < length hs)%nat -> addResult hs blocks st m = None) ∧
  (checkGetBlockByHashesResult Block_Hash blocks hs = None ->
   is_Some (addResult hs blocks st m)).
Proof.
  split; [|split].
  - intros Hlen. apply (addResult_from_effect blocks st hs 0 m Hlen).
  - intros Hlen. apply addResult_from_panic. lia.
  - intros Hc. apply check_accepts in Hc as [Hlen _].
    destruct (addResult_from_effect blocks st hs 0 m ltac:(lia)) as (m' & Hadd & _).
    by exists m'.
Qed.

Lemma checkBlocks_from_Forall2 (blocks : list (option Block)) :
  ∀ i hs,
  Forall2 (fun ob h => ∃ b, ob = Some b ∧ Block_Hash b = h) blocks (drop i hs) ->
  checkBlocks_from Block_Hash i blocks hs = Some None.
Proof.
  induction blocks as [|ob blocks IH]; intros i hs Hall; cbn [checkBlocks_from]; [done|].
  apply Forall2_cons_inv_l in Hall as (h & tl & (b & -> & Hb) & Hall & Hd).
  assert (Hi : hs !! i = Some h).
  { pose proof (lookup_drop hs i 0) as Hl. rewrite Hd, Nat.add_0_r in Hl. done. }
  rewrite Hi. rewrite decide_False by (intros Hne; by apply Hne).
  apply IH. replace (S i) with (i + 1)%nat by lia.
  rewrite <- drop_drop, Hd. done.
Qed.

Lemma check_accepts_Forall2 (blocks : list (option Block)) (hs : list Z) :
  checkGetBlockByHashesResult Block_Hash blocks hs = None ->
  Forall2 (fun ob h => ∃ b, ob = Some b ∧ Block_Hash b = h) blocks hs.
Proof.
  intros Hc. apply check_accepts in Hc as [Hlen Hall].
  apply Forall2_same_length_lookup_2; [done|].
  intros j ob h Hob Hh. destruct (Hall j ob Hob) as (b & -> & Hb).
  exists b. split; [done|]. congruence.
Qed.

Lemma Forall2_check_accepts (blocks : list (option Block)) (hs : list Z) :
  Forall2 (fun ob h => ∃ b, ob = Some b ∧ Block_Hash b = h) blocks hs ->
  checkGetBlockByHashesResult Block_Hash blocks hs = None.
Proof.
  intros Hall. unfold checkGetBlockByHashesResult, len.
  rewrite decide_False by (apply Forall2_length in Hall; lia).
  by rewrite checkBlocks_from_Forall2.
Qed.

Lemma checkBlocks_from_error (blocks : list (option Block)) :
  ∀ i hs e, checkBlocks_from Block_Hash i blocks hs = Some (Some e) ->
  e = errors_New "nil block found" ∨ e = errors_New "unexpected block hash".
Proof.
  induction blocks as [|ob blocks IH]; intros i hs e; cbn [checkBlocks_from]; [done|].
  destruct ob as [b|]; [|intros [= <-]; by left].
  destruct (hs !! i) as [h|]; [|done].
  destruct (decide (Block_Hash b ≠ h)); [intros [= <-]; by right|]. apply IH.
Qed.

(** X14. [checkGetBlockByHashesResult] accepts exactly the deliveries that
    hold, position by position, a block with the hash asked for.  A delivery
    of another length is rejected as "unexpected number of getBlocksByHashes
    result", and one of the right length as "nil block found" or "unexpected
    block hash". *)
Theorem checkGetBlockByHashesResult_accepts (blocks : list (option Block)) (hs : list Z) :
  (checkGetBlockByHashesResult Block_Hash blocks hs = None ↔
   Forall2 (fun ob h => ∃ b, ob = Some b ∧ Block_Hash b = h) blocks hs) ∧
  (length blocks ≠ length hs ->
   checkGetBlockByHashesResult Block_Hash blocks hs =
     Some (errors_New "unexpected number of getBlocksByHashes result")) ∧
  (∀ e, checkGetBlockByHashesResult Block_Hash blocks hs = Some e ->
        length blocks = length hs ->
        e = errors_New "nil block found" ∨ e = errors_New "unexpected block hash").
Proof.
  split; [split; [apply check_accepts_Forall2|apply Forall2_check_accepts]|]. split.
  - intros Hne. unfold checkGetBlockByHashesResult, len. rewrite decide_True by lia. done.
  - intros e. unfold checkGetBlockByHashesResult, len. intros Hc Hlen.
    rewrite decide_False in Hc by lia.
    destruct (checkBlocks_from Block_Hash 0 blocks hs) as [[e'|]|] eqn:Hcb; try done.
    injection Hc as <-. by apply (checkBlocks_from_error blocks 0 hs).
Qed.

Lemma batch_empty_iff (m : manager) :
  take (Z.to_nat (numBlocksPerRequest unrepresentable m))
       (filter (eligible m) (hashes m)) = [] ↔
  ∀ h, h ∈ hashes m -> h ∈ pendings m ∨ is_Some (results m !! h).
Proof.
  pose proof (numBlocksPerRequest_bounds unrepresentable m) as Hb.
  unfold numBlocksByHashesLowerCap, numBlocksByHashesUpperCap in Hb.
  set (B := numBlocksPerRequest unrepresentable m) in *.
  destruct (filter (eligible m) (hashes m)) as [|h0 tl] eqn:Ef.
  - rewrite take_nil. split; [|done]. intros _ h Hh.
    destruct (decide (eligible m h)) as [He|Hne].
    + assert (Hin : h ∈ filter (eligible m) (hashes m)) by (by apply list_elem_of_filter).
      rewrite Ef in Hin. by apply elem_of_nil in Hin.
    + unfold eligible in Hne.
      destruct (decide (h ∈ pendings m)); [by left|right].
      destruct (results m !! h); [done|]. tauto.
  - destruct (Z.to_nat B) as [|n] eqn:En; [lia|]. cbn [take firstn].
    split; [done|]. intros Hall.
    assert (Hin : h0 ∈ filter (eligible m) (hashes m)) by (rewrite Ef; left).
    apply list_elem_of_filter in Hin as [[He1 He2] Hin].
    destruct (Hall h0 Hin) as [?|[? Hs]]; [done|congruence].
Qed.

(** X15. The batch of [getNextHashes].  With a stream on the whitelist it
    returns, without error and without a change of the manager, the first
    target hashes, in the order of the target, that are neither pending nor
    recorded, up to the batch size: at most 10 hashes, and none exactly when
    every target hash is pending or recorded. *)
Theorem getNextHashes_batch (m : manager) :
  slen (whitelist m) ≠ 0%nat ->
  ∃ batch,
    getNextHashes unrepresentable m = (Some (batch, elems (whitelist m), None), m) ∧
    batch = take (Z.to_nat (numBlocksPerRequest unrepresentable m))
                 (filter (eligible m) (hashes m)) ∧
    (length batch ≤ 10)%nat ∧
    batch `sublist_of` hashes m ∧
    (∀ h, h ∈ batch -> (h ∉ pendings m) ∧ results m !! h = None) ∧
    (batch = [] ↔ ∀ h, h ∈ hashes m -> h ∈ pendings m ∨ is_Some (results m !! h)).
Proof.
  intros Hwl. eexists. split; [by apply getNextHashes_selects|]. split; [done|].
  pose proof (numBlocksPerRequest_bounds unrepresentable m) as Hb.
  unfold numBlocksByHashesLowerCap, numBlocksByHashesUpperCap in Hb.
  set (B := numBlocksPerRequest unrepresentable m) in *.
  split; [rewrite length_take; lia|]. split; [|split].
  - etrans; [apply sublist_take|apply sublist_filter].
  - intros h Hh. apply elem_of_take in Hh as (i & Hi & _).
    apply list_elem_of_lookup_2, list_elem_of_filter in Hi as [He _]. exact He.
  - apply batch_empty_iff.
Qed.

Lemma getNextHashes_batch_in (m : manager) hs wl :
  (getNextHashes unrepresentable m).1 = Some (hs, wl, None) ->
  ∀ h, h ∈ hs -> h ∈ hashes m.
Proof.
  destruct (decide (slen (whitelist m) = 0%nat)) as [Hz|Hnz].
  - unfold getNextHashes.
    destruct (numBlocksPerRequest unrepresentable m <? 0); [done|].
    rewrite Hz. cbn. done.
  - rewrite getNextHashes_selects by done. cbn [fst]. intros [= <- _] h Hh.
    apply elem_of_take in Hh as (i & Hi & _).
    apply list_elem_of_lookup_2, list_elem_of_filter in Hi as [_ Hi]. exact Hi.
Qed.

Lemma cycleState_inv (target : list Z) (wl0 : list string) (m : manager) :
  cycleState Block_Hash unrepresentable target wl0 m ->
  hashes m = target ∧ pendings m = ∅ ∧
  (∀ h r, results m !! h = Some r ->
          h ∈ target ∧ ∃ b, block r = Some b ∧ Block_Hash b = h) ∧
  elems (whitelist m) `sublist_of` wl0 ∧
  length (sarray (whitelist m)) = length wl0 ∧
  (slen (whitelist m) ≤ length wl0)%nat ∧
  (∀ x, x ∈ sarray (whitelist m) -> x ∈ wl0).
Proof.
  induction 1 as [|m0 m hs wl blocks st m' Hm0 IH0 Hm IH Hnext Hcheck Hadd
                  |m0 m hs wl st Hm0 IH0 Hm IH Hnext].
  - cbn. split; [done|]. split; [done|]. split; [intros h r; by rewrite lookup_empty|].
    unfold elems, slice_of. cbn. rewrite firstn_all. done.
  - destruct IH0 as (Hh0 & _). destruct IH as (Hh & Hp & Hr & Hw).
    apply check_accepts in Hcheck as [Hlen Hall].
    destruct (addResult_from_effect blocks st hs 0 m ltac:(lia))
      as (m'' & Hadd' & Hh' & Hw' & Hp' & Hout & Hin).
    unfold addResult in Hadd. rewrite Hadd in Hadd'. injection Hadd' as <-.
    rewrite Hh', Hw', Hp', Hp. split; [done|]. split; [set_solver|]. split; [|done].
    intros h r Hlk. destruct (decide (h ∈ hs)) as [Hhs|Hhs].
    + split.
      { rewrite <- Hh0. by apply (getNextHashes_batch_in m0 hs wl). }
      destruct (Hin h Hhs) as (j & ob & Hj & Hob & Hrj). cbn [Nat.add] in Hob.
      destruct (Hall j ob Hob) as (b & -> & Hb).
      rewrite Hrj in Hlk. injection Hlk as <-. exists b. split; [done|]. congruence.
    + rewrite Hout in Hlk by done. by apply Hr.
  - destruct IH as (Hh & Hp & Hr & Hsub & Hlen & Hcap & Harr).
    unfold handleResultError, removeStreamID. cbn [hashes pendings results whitelist].
    rewrite foldl_difference, Hp.
    destruct (removeStreamID_loop_spec st (S (slen (whitelist m))) (whitelist m)
                ltac:(lia) ltac:(lia)) as (He & Hl & Hs).
    split; [done|]. split; [set_solver|]. split; [done|].
    rewrite He, Hl. split; [|split; [done|split; [lia|]]].
    + etrans; [apply sublist_filter|done].
    + intros x Hx. apply Harr. by eapply removeStreamID_loop_array.
Qed.

(** X16. In every state of a fetch phase, under any interleaving of the
    goroutines: the target is the hash chain the phase started with,
    [pendings] is empty, and every record is filed under a hash of the target
    and holds a block with that hash. *)
Theorem cycle_records_validated_blocks (target : list Z) (wl0 : list string) (m : manager) :
  cycleState Block_Hash unrepresentable target wl0 m ->
  hashes m = target ∧ pendings m = ∅ ∧
  ∀ h r, results m !! h = Some r ->
         h ∈ target ∧ ∃ b, block r = Some b ∧ Block_Hash b = h.
Proof. intros Hm. destruct (cycleState_inv target wl0 m Hm) as (? & ? & ? & _). done. Qed.

(** X17. In every state of a fetch phase the whitelist of the manager is
    what is left of the whitelist the phase started with, in its order; the
    backing array keeps its length and holds streams of that whitelist
    only. *)
Theorem cycle_whitelist_shrinks (target : list Z) (wl0 : list string) (m : manager) :
  cycleState Block_Hash unrepresentable target wl0 m ->
  elems (whitelist m) `sublist_of` wl0 ∧
  length (sarray (whitelist m)) = length wl0 ∧
  (slen (whitelist m) ≤ length wl0)%nat ∧
  (∀ x, x ∈ sarray (whitelist m) -> x ∈ wl0).
Proof.
  intros Hm. destruct (cycleState_inv target wl0 m Hm) as (_ & _ & _ & ? & ? & ? & ?).
  done.
Qed.

Lemma size_list_to_set_le (l : list Z) : (size (list_to_set (C := gset Z) l) ≤ length l)%nat.
Proof.
  induction l as [|x l IH]; [by rewrite list_to_set_nil, size_empty|].
  rewrite list_to_set_cons. cbn [length].
  rewrite size_union_alt, size_singleton.
  assert (size (list_to_set l ∖ {[x]} : gset Z) ≤ size (list_to_set l : gset Z))%nat
    by (apply subseteq_size; set_solver).
  lia.
Qed.

Lemma size_list_to_set_NoDup (l : list Z) :
  size (list_to_set (C := gset Z) l) = length l -> NoDup l.
Proof.
  induction l as [|x l IH]; [constructor|].
  rewrite list_to_set_cons. cbn [length]. intros Hs.
  pose proof (size_list_to_set_le l) as Hle.
  destruct (decide (x ∈ l)) as [Hin|Hnin].
  - replace ({[x]} ∪ list_to_set l : gset Z) with (list_to_set l : gset Z) in Hs
      by (apply leibniz_equiv; set_solver). lia.
  - rewrite size_union in Hs by set_solver. rewrite size_singleton in Hs.
    constructor; [done|]. apply IH. lia.
Qed.

Lemma isDone_results_aligned (target : list Z) (wl0 : list string) (m : manager) :
  cycleState Block_Hash unrepresentable target wl0 m ->
  ∀ bs e, getResults m = (bs, e) ->
          (∃ l, bs = Some l ∧ e = None ∧ Block_Hash <$> l = target) ∨
          (bs = None ∧ e = Some sanityNilBlock).
Proof.
  intros Hm. destruct (cycleState_inv target wl0 m Hm) as (Hh & Hp & Hr & _).
  assert (Hal : ∀ hs bs, Forall2 (fun h b => block_of m h = Some b) hs bs ->
                         Block_Hash <$> bs = hs).
  { intros hs0 bs0 Hall. induction Hall as [|h b hs bs Hb Hall IH]; [done|].
    cbn [fmap list_fmap]. f_equal; [|exact IH].
    unfold block_of in Hb. destruct (results m !! h) as [r|] eqn:Hlk; [|done].
    destruct (Hr h r Hlk) as (_ & b' & Hb' & Hbh). congruence. }
  unfold getResults. rewrite Hh.
  pose proof (getResults_from_spec m target []) as Hspec. cbn [app] in Hspec.
  intros bs e Hg. destruct Hspec as [[Heq' _]|(bs' & Heq' & Hall)].
  - right. rewrite Heq' in Hg. by injection Hg as <- <-.
  - left. rewrite Heq' in Hg. injection Hg as <- <-. exists bs'. split; [done|].
    split; [done|]. by apply Hal.
Qed.

(** X18. In a state of a fetch phase in which [isDone] holds, the target
    has no hash twice and [getResults] returns the blocks of the target
    hashes, in the order of the target.  For a target without a hash twice,
    [isDone] holds whenever [getResults] succeeds. *)
Theorem isDone_getResults (target : list Z) (wl0 : list string) (m : manager) :
  cycleState Block_Hash unrepresentable target wl0 m ->
  (isDone m = true ->
   NoDup target ∧
   ∃ bs, getResults m = (Some bs, None) ∧ Block_Hash <$> bs = target) ∧
  (NoDup target -> (∃ bs, getResults m = (Some bs, None)) -> isDone m = true).
Proof.
  intros Hm. destruct (cycleState_inv target wl0 m Hm) as (Hh & Hp & Hr & _).
  assert (Hdom : dom (results m) ⊆ (list_to_set target : gset Z)).
  { intros h Hd. apply elem_of_dom in Hd as [r Hlk]. apply elem_of_list_to_set.
    by apply Hr in Hlk as [? _]. }
  assert (Hsome : ∀ h b, block_of m h = Some b -> Block_Hash b = h).
  { intros h b. unfold block_of. destruct (results m !! h) as [r|] eqn:Hlk; [|done].
    intros Hb. destruct (Hr h r Hlk) as (_ & b' & Hb' & Hbh). congruence. }
  assert (Hal : ∀ hs bs, Forall2 (fun h b => block_of m h = Some b) hs bs ->
                         Block_Hash <$> bs = hs).
  { intros hs0 bs0 Hall. induction Hall as [|h b hs bs Hb Hall IH]; [done|].
    cbn [fmap list_fmap]. f_equal; [by apply Hsome|exact IH]. }
  unfold isDone, getResults. rewrite Hh.
  pose proof (getResults_from_spec m target []) as Hspec. cbn [app] in Hspec.
  split.
  - intros Hd. apply bool_decide_eq_true_1 in Hd.
    rewrite <- size_dom in Hd.
    pose proof (size_list_to_set_le target) as Hle.
    pose proof Hdom as Hle'. apply subseteq_size in Hle'.
    assert (Heq : dom (results m) = (list_to_set target : gset Z)).
    { apply set_subseteq_size_eq; [done|lia]. }
    split; [apply size_list_to_set_NoDup; lia|].
    destruct Hspec as [[_ (h & Hin & Hn)]|(bs & Heq' & Hall)].
    + exfalso. assert (Hd' : h ∈ dom (results m)) by (rewrite Heq; by apply elem_of_list_to_set).
      apply elem_of_dom in Hd' as [r Hlk]. unfold block_of in Hn. rewrite Hlk in Hn.
      destruct (Hr h r Hlk) as (_ & b & Hb & _). congruence.
    + exists bs. split; [done|]. by apply Hal.
  - intros Hnd [bs Hbs]. apply bool_decide_eq_true_2.
    destruct Hspec as [[Heq' _]|(bs' & Heq' & Hall)]; [congruence|].
    rewrite <- size_dom, <- (size_list_to_set (C := gset Z) target) by done.
    f_equal. apply set_eq. intros h. split; [apply Hdom|].
    intros Hin. apply elem_of_list_to_set, list_elem_of_lookup in Hin as [i Hi].
    destruct (Forall2_lookup_l _ _ _ _ _ Hall Hi) as (b & _ & Hb).
    unfold block_of in Hb. apply elem_of_dom. destruct (results m !! h); [done|done].
Qed.

(** X19. In a state of a fetch phase with a stream on the whitelist,
    [getNextHashes] returns an empty batch exactly when every target hash has
    a record.  When the target has no hash twice that is exactly when
    [isDone] holds; when it has a hash twice, [isDone] never holds. *)
Theorem cycle_hands_out_work (target : list Z) (wl0 : list string) (m : manager) :
  cycleState Block_Hash unrepresentable target wl0 m ->
  slen (whitelist m) ≠ 0%nat ->
  ∃ batch, (getNextHashes unrepresentable m).1 = Some (batch, elems (whitelist m), None) ∧
    (batch = [] ↔ ∀ h, h ∈ target -> is_Some (results m !! h)) ∧
    (NoDup target -> (batch = [] ↔ isDone m = true)) ∧
    (¬ NoDup target -> isDone m = false).
Proof.
  intros Hm Hwl. destruct (cycleState_inv target wl0 m Hm) as (Hh & Hp & Hr & _).
  pose proof (getNextHashes_selects unrepresentable m Hwl) as Hnext.
  pose proof (batch_empty_iff m) as Hempty.
  set (batch := take _ _) in *.
  assert (Hdom : dom (results m) ⊆ (list_to_set target : gset Z)).
  { intros h Hd. apply elem_of_dom in Hd as [r Hlk]. apply elem_of_list_to_set.
    by apply Hr in Hlk as [? _]. }
  assert (Hiff : batch = [] ↔ ∀ h, h ∈ target -> is_Some (results m !! h)).
  { rewrite Hempty, Hh, Hp. split; intros Hall h Hin; [|right; by apply Hall].
    destruct (Hall h Hin) as [Hx|Hx]; [set_solver|done]. }
  exists batch. rewrite Hnext. split; [done|]. split; [done|].
  unfold isDone. rewrite Hh. split.
  - intros Hnd. rewrite Hiff, bool_decide_eq_true.
    rewrite <- size_dom, <- (size_list_to_set (C := gset Z) target) by done. split.
    + intros Hall. f_equal. apply set_eq. intros h. split; [apply Hdom|].
      intros Hin. apply elem_of_dom, Hall. by apply elem_of_list_to_set in Hin.
    + intros Hs h Hin.
      assert (Heq : dom (results m) = (list_to_set target : gset Z)).
      { apply set_subseteq_size_eq; [done|lia]. }
      apply elem_of_dom. rewrite Heq. by apply elem_of_list_to_set.
  - intros Hnd. apply bool_decide_eq_false_2. intros Hs. apply Hnd.
    apply size_list_to_set_NoDup.
    pose proof (size_list_to_set_le target) as Hle.
    pose proof Hdom as Hle'. apply subseteq_size in Hle'.
    rewrite size_dom in Hle'. lia.
Qed.
End FetchCycleFacts.

(** ** The batch size at its caps *)

Section CapFacts.
Import downloader downloader.GetBlocksByHashManager float64.
Context {Block : Type}.
Variable unrepresentable : spec_float -> Z.
Abbreviation manager := (getBlocksByHashManager (Block := Block)).

Lemma divideCeil_zero y : 0 < y < 2 ^ 53 -> divideCeil unrepresentable 0 y = 0.
Proof.
  intros Hy. unfold divideCeil.
  destruct (of_int_normal y Hy) as (m & e & -> & _).
  reflexivity.
Qed.

(** X20. The caps of the batch size, for a whitelist that is not empty
    (lengths below 2^53): the batch size is the lower cap 6 exactly when the
    target has at most 6 hashes per stream, which includes the empty target,
    and the upper cap 10 exactly when it has more than 9 per stream. *)
Theorem numBlocksPerRequest_thresholds (m : manager) :
  len (hashes m) < 2 ^ 53 ->
  0 < Z.of_nat (slen (whitelist m)) < 2 ^ 53 ->
  (numBlocksPerRequest unrepresentable m = numBlocksByHashesLowerCap ↔
   len (hashes m) <= 6 * Z.of_nat (slen (whitelist m))) ∧
  (numBlocksPerRequest unrepresentable m = numBlocksByHashesUpperCap ↔
   9 * Z.of_nat (slen (whitelist m)) < len (hashes m)).
Proof.
  intros Hx Hy. rewrite numBlocksPerRequest_clamp.
  unfold numBlocksByHashesLowerCap, numBlocksByHashesUpperCap, clamp.
  assert (H0 : 0 <= len (hashes m)) by (unfold len; lia).
  generalize dependent (len (hashes m)). generalize dependent (Z.of_nat (slen (whitelist m))).
  intros y Hy x Hx H0.
  destruct (decide (x = 0)) as [->|Hne].
  - rewrite divideCeil_zero by done. lia.
  - rewrite divideCeil_exact by lia.
    pose proof (ceilDiv_spec x y ltac:(lia)) as Hc.
    generalize dependent (ceilDiv x y). intros c Hc. split; split; intros H; nia.
Qed.
End CapFacts.

(** ** The requests and the phases of a cycle *)

Section PhaseFacts.
Import downloader downloader.BlockHashResults downloader.GetBlocksByHashManager.
Import notions.

Context {Block P C : Type}.
Context `{!syncProtocol Block P} `{!insertHelper Block C}.
Variable Block_Hash : Block -> Z.
Variable unrepresentable : spec_float -> Z.
Variable rangeMap : nat -> gmap string Z -> list (string * Z).
Variable rangeSet : gset string -> list string.
Variable Concurrency : nat.

(** X21. The outcomes of [doGetBlocksByHashesRequest].  An error of the peer
    layer is passed on with the stream and without blocks, and no stream is
    removed.  A delivery without error is returned as it is when it holds,
    position by position, a block with the hash asked for; otherwise the
    stream is removed and an error returned without blocks. *)
Theorem doGetBlocksByHashesRequest_outcomes (hs : list Z) (wl : list string) (p : P)
    (blocks : list (option Block)) (st : string) (err : option error) (p1 : P) :
  GetBlocksByHashes hs wl p = ((blocks, st, err), p1) ->
  match err with
  | Some e => doGetBlocksByHashesRequest Block_Hash hs wl p = (([], st, Some e), p1)
  | None =>
      (Forall2 (fun ob h => ∃ b, ob = Some b ∧ Block_Hash b = h) blocks hs ∧
       doGetBlocksByHashesRequest Block_Hash hs wl p = ((blocks, st, None), p1)) ∨
      (¬ Forall2 (fun ob h => ∃ b, ob = Some b ∧ Block_Hash b = h) blocks hs ∧
       ∃ e, doGetBlocksByHashesRequest Block_Hash hs wl p =
              (([], st, Some e), RemoveStream st p1))
  end.
Proof.
  intros Hget. unfold doGetBlocksByHashesRequest. rewrite Hget.
  destruct err as [e|]; [done|].
  destruct (checkGetBlockByHashesResult Block_Hash blocks hs) as [e|] eqn:Hc.
  - right. split; [|by exists e]. intros Hall.
    apply (Forall2_check_accepts Block_Hash) in Hall. congruence.
  - left. split; [|done]. by apply check_accepts_Forall2.
Qed.

Lemma prepare_loop_window limit : ∀ (n : nat) bn acc fuel,
  0 <= bn -> bn + Z.of_nat n = limit + 1 -> limit < 2 ^ 64 - 1 -> (n < fuel)%nat ->
  prepare_loop fuel bn limit acc = Some (acc ++ seqZ bn (Z.of_nat n)).
Proof.
  induction n as [|n IH]; intros bn acc fuel Hbn Hn Hlim Hfuel;
    (destruct fuel as [|fuel]; [lia|]); cbn [prepare_loop].
  - rewrite (proj2 (Z.leb_gt bn limit)) by lia. cbn. by rewrite app_nil_r.
  - rewrite (proj2 (Z.leb_le bn limit)) by lia.
    assert (Hw : uint64_wrap (bn + 1) = bn + 1).
    { unfold uint64_wrap. apply Z.mod_small. lia. }
    rewrite Hw, (IH (bn + 1)) by lia.
    rewrite <- app_assoc. f_equal. rewrite (seqZ_cons bn) by lia.
    replace (Z.succ bn) with (bn + 1) by lia.
    replace (Z.pred (Z.of_nat (S n))) with (Z.of_nat n) by lia. done.
Qed.

(** X22. [prepareBlockHashNumbers] returns the 20 heights above the current
    one.  At the end of the range of [uint64] it differs: from the greatest
    height it returns the heights 0 to 19; from the 19 heights below it
    returns none; and from [2^64 - 21] the loop does not end, its bound being
    the greatest [uint64]. *)
Theorem prepareBlockHashNumbers_window (curNumber : Z) :
  0 <= curNumber < 2 ^ 64 ->
  (curNumber + 20 < 2 ^ 64 - 1 ->
   prepareBlockHashNumbers curNumber = Some (seqZ (curNumber + 1) 20)) ∧
  (curNumber + 20 = 2 ^ 64 - 1 -> prepareBlockHashNumbers curNumber = None) ∧
  (2 ^ 64 - 1 < curNumber + 20 -> curNumber < 2 ^ 64 - 1 ->
   prepareBlockHashNumbers curNumber = Some []) ∧
  (curNumber = 2 ^ 64 - 1 -> prepareBlockHashNumbers curNumber = Some (seqZ 0 20)) ∧
  (∀ fuel bn acc, 0 <= bn < 2 ^ 64 -> prepare_loop fuel bn (2 ^ 64 - 1) acc = None).
Proof.
  intros Hc. unfold prepareBlockHashNumbers, numBlockHashesPerRequest.
  change (Z.to_nat 20) with 20%nat. split; [|split; [|split; [|split]]]; cycle 4.
  { induction fuel as [|fuel IH]; intros bn acc Hbn; cbn [prepare_loop]; [done|].
    rewrite (proj2 (Z.leb_le bn (2 ^ 64 - 1))) by lia. apply IH.
    unfold uint64_wrap. apply Z.mod_pos_bound. lia. }
  - intros Hlt. unfold uint64_wrap. rewrite !Z.mod_small by lia.
    rewrite (prepare_loop_window (curNumber + 20) 20) by lia. done.
  - intros Heq. replace curNumber with (2 ^ 64 - 21) by lia. vm_compute. reflexivity.
  - intros Hgt Hlt. unfold uint64_wrap.
    rewrite (Z.mod_small (curNumber + 1)) by lia.
    replace ((curNumber + 20) mod 2 ^ 64) with (curNumber + 20 - 2 ^ 64).
    2:{ apply (Z.mod_unique _ _ 1); lia. }
    cbn [prepare_loop]. rewrite (proj2 (Z.leb_gt _ _)) by lia. done.
  - intros ->. vm_compute. reflexivity.
Qed.

Lemma hashWorker_keeps_shape (bns : list Z) (rs : blockHashResults) (p : P) :
  length (BlockHashResults.results rs) = length bns ->
  ∃ rs' p', hashWorker bns (rs, p) = Some (rs', p') ∧
            length (BlockHashResults.results rs') = length bns.
Proof.
  intros Hlen. unfold hashWorker. cbn [fst snd].
  unfold doGetBlockHashesRequest.
  destruct (GetBlockHashes bns p) as [[[hs st] [e|]] p1]; [by eauto|].
  destruct (decide (len hs ≠ len bns)) as [Hne|Heq]; [by eauto|].
  assert (Hl : length hs = length bns) by (unfold len in Heq; lia).
  unfold BlockHashResults.addResult.
  destruct (addResult_from_spec st hs 0 (BlockHashResults.results rs)) as [Hok _].
  destruct Hok as (rs' & Heq' & Hl' & _).
  { pose proof (recordedPrefix_length hs). lia. }
  rewrite Heq'. cbn. eexists _, _. split; [done|]. cbn. lia.
Qed.

Lemma repeatWorker_hashWorker (bns : list Z) : ∀ n (rs : blockHashResults) (p : P),
  length (BlockHashResults.results rs) = length bns ->
  ∃ rs' p', repeatWorker n (hashWorker bns) (rs, p) = Some (rs', p') ∧
            length (BlockHashResults.results rs') = length bns.
Proof.
  induction n as [|n IH]; intros rs p Hlen; cbn [repeatWorker]; [by eauto|].
  destruct (hashWorker_keeps_shape bns rs p Hlen) as (rs1 & p1 & -> & Hl1).
  by apply IH.
Qed.

(** X23. [getHashChain], its goroutines run one after the other, returns
    for every behaviour of the peers: the length check of
    [doGetBlockHashesRequest] keeps [addResult] within the table.  The chain
    it returns has at most 20 hashes, and with an error (that of the context)
    it returns no chain and no whitelist. *)
Theorem getHashChain_sequential_returns (curBN : Z) (p : P) :
  0 <= curBN -> curBN + 20 < 2 ^ 64 - 1 ->
  ∃ hashChain wl err p',
    getHashChain_sequential rangeMap rangeSet Concurrency curBN p =
      Some ((hashChain, wl, err), p') ∧
    (length hashChain ≤ 20)%nat ∧
    (err ≠ None -> hashChain = [] ∧ wl = [] ∧ err = ctx_Err p').
Proof.
  intros H0 Hlt. unfold getHashChain_sequential.
  assert (Hbns : prepareBlockHashNumbers curBN = Some (seqZ (curBN + 1) 20)).
  { unfold prepareBlockHashNumbers, numBlockHashesPerRequest, uint64_wrap.
    change (Z.to_nat 20) with 20%nat. rewrite !Z.mod_small by lia.
    rewrite (prepare_loop_window (curBN + 20) 20) by lia. done. }
  rewrite Hbns. set (bns := seqZ (curBN + 1) 20).
  assert (Hl : length bns = 20%nat) by (unfold bns; by rewrite length_seqZ).
  destruct (repeatWorker_hashWorker bns Concurrency (newBlockHashResults bns) p)
    as (rs & p' & -> & Hlen).
  { unfold newBlockHashResults. cbn. by rewrite length_map. }
  destruct (ctx_Err p') as [e|] eqn:He.
  - eexists [], [], (Some e), p'. split; [done|]. split; [cbn; lia|]. done.
  - rewrite (computeLongestHashChain_chainAfter rangeMap rangeSet rs 20) by lia.
    eexists _, _, None, p'. split; [done|]. split; [|done].
    cbn [fst]. apply chainAfter_length.
Qed.

Lemma doGetBlocksByHashesRequest_ok (hs : list Z) (wl : list string) (p p1 : P)
    (blocks : list (option Block)) (st : string) :
  doGetBlocksByHashesRequest Block_Hash hs wl p = ((blocks, st, None), p1) ->
  checkGetBlockByHashesResult Block_Hash blocks hs = None.
Proof.
  unfold doGetBlocksByHashesRequest.
  destruct (GetBlocksByHashes hs wl p) as [[[bs st'] [e|]] p']; [done|].
  destruct (checkGetBlockByHashesResult Block_Hash bs hs) as [e|] eqn:Hc; [done|].
  by intros [= <- _ _].
Qed.

Lemma getNextHashes_error (m : getBlocksByHashManager (Block := Block)) hs wl e :
  (getNextHashes unrepresentable m).1 = Some (hs, wl, Some e) ->
  e = errors_New "empty white list" ∧ slen (whitelist m) = 0%nat.
Proof.
  unfold getNextHashes.
  destruct (numBlocksPerRequest unrepresentable m <? 0); [done|].
  destruct (Z.of_nat (slen (whitelist m)) =? 0) eqn:E; [|done].
  cbn [fst]. intros [= _ _ <-]. split; [done|]. lia.
Qed.

Lemma fetchWorker_cycleState (target : list Z) (wl0 : list string) :
  ∀ fuel (s s' : fetchState (Block := Block) (P := P)),
  cycleState Block_Hash unrepresentable target wl0 (fmgr s) ->
  fetchWorker Block_Hash unrepresentable fuel s = Some s' ->
  cycleState Block_Hash unrepresentable target wl0 (fmgr s') ∧
  cancelled s' = true ∧
  (gErr s' = gErr s ∨ gErr s' = Some (errors_New "empty white list")).
Proof.
  induction fuel as [|fuel IH]; intros s s' Hm; cbn [fetchWorker]; [done|].
  destruct (isDone (fmgr s)); [intros [= <-]; cbn; by eauto|].
  pose proof (getNextHashes_state unrepresentable (fmgr s)) as Hst.
  destruct (getNextHashes unrepresentable (fmgr s)) as [[[[hs wl] err]|] m1] eqn:Hnext;
    [|done].
  cbn [snd] in Hst. subst m1.
  assert (Hnext' : (getNextHashes unrepresentable (fmgr s)).1 = Some (hs, wl, err))
    by (by rewrite Hnext).
  destruct err as [e|].
  { intros [= <-]. cbn. split; [done|]. split; [done|]. right.
    by apply getNextHashes_error in Hnext' as [-> _]. }
  destruct (len hs =? 0).
  { destruct (cancelled s || bool_decide (is_Some (ctx_Err (fproto s)))).
    - intros [= <-]. cbn. by eauto.
    - intros Hw. by apply IH in Hw. }
  destruct (doGetBlocksByHashesRequest Block_Hash hs wl (fproto s))
    as [[[blocks st] [e|]] p1] eqn:Hreq.
  - intros Hw. apply IH in Hw; [done|]. cbn [fmgr].
    by apply (cs_handleResultError _ _ _ _ (fmgr s) (fmgr s) hs wl st).
  - destruct (GetBlocksByHashManager.addResult hs blocks st (fmgr s)) as [m2|] eqn:Hadd;
      [|done].
    intros Hw. apply IH in Hw; [done|]. cbn [fmgr].
    apply (cs_addResult _ _ _ _ (fmgr s) (fmgr s) hs wl blocks st m2); try done.
    by apply doGetBlocksByHashesRequest_ok in Hreq.
Qed.

Lemma repeatWorker_cycleState (target : list Z) (wl0 : list string) fuel :
  ∀ n (s s' : fetchState (Block := Block) (P := P)),
  cycleState Block_Hash unrepresentable target wl0 (fmgr s) ->
  repeatWorker n (fetchWorker Block_Hash unrepresentable fuel) s = Some s' ->
  cycleState Block_Hash unrepresentable target wl0 (fmgr s') ∧
  (gErr s' = gErr s ∨ gErr s' = Some (errors_New "empty white list")).
Proof.
  induction n as [|n IH]; intros s s' Hm; cbn [repeatWorker].
  - intros [= <-]. by eauto.
  - destruct (fetchWorker Block_Hash unrepresentable fuel s) as [s1|] eqn:Hw; [|done].
    apply (fetchWorker_cycleState target wl0) in Hw as (Hm1 & _ & Hg1); [|done].
    intros Hr. apply IH in Hr as (Hm' & Hg'); [|done]. split; [done|].
    destruct Hg' as [->| ->]; [done|by right].
Qed.

Lemma filter_length_le {A} (F G : A -> Prop) `{!∀ x, Decision (F x)} `{!∀ x, Decision (G x)}
    (l : list A) :
  (∀ x, G x -> F x) -> (length (filter G l) ≤ length (filter F l))%nat.
Proof.
  intros Himp. induction l as [|x l IH]; [done|]. rewrite !filter_cons.
  destruct (decide (G x)) as [Hq|]; destruct (decide (F x)) as [|Hp]; cbn [length]; try lia.
  exfalso. by apply Hp, Himp.
Qed.

Lemma filter_length_lt {A} (F G : A -> Prop) `{!∀ x, Decision (F x)} `{!∀ x, Decision (G x)}
    (l : list A) (x0 : A) :
  (∀ x, G x -> F x) -> x0 ∈ l -> F x0 -> ¬ G x0 ->
  (length (filter G l) < length (filter F l))%nat.
Proof.
  intros Himp Hin Hp Hq. induction l as [|x l IH]; [by apply elem_of_nil in Hin|].
  rewrite !filter_cons. pose proof (filter_length_le F G l Himp) as Hle.
  apply elem_of_cons in Hin as [<-|Hin].
  - destruct (decide (F x0)); [|done]. destruct (decide (G x0)); [done|].
    cbn [length]. lia.
  - specialize (IH Hin).
    destruct (decide (G x)) as [Hqx|]; destruct (decide (F x)) as [|Hpx]; cbn [length]; try lia.
    exfalso. by apply Hpx, Himp.
Qed.

Lemma cycle_eligible_missing (target : list Z) (wl0 : list string)
    (m : getBlocksByHashManager (Block := Block)) :
  cycleState Block_Hash unrepresentable target wl0 m ->
  hashes m = target ∧ filter (eligible m) (hashes m) = missing m ∧
  (length (missing m) ≤ length target)%nat.
Proof.
  intros Hm. destruct (cycleState_inv Block_Hash unrepresentable target wl0 m Hm)
    as (Hh & Hp & _).
  split; [done|]. split.
  - unfold missing. apply list_filter_iff. intros h. unfold eligible. rewrite Hp.
    split; [intros [_ Hn]; exact Hn|]. intros Hn. split; [apply not_elem_of_empty|exact Hn].
  - unfold missing. rewrite Hh. apply length_filter.
Qed.

Lemma cycle_missing_isDone (target : list Z) (wl0 : list string)
    (m : getBlocksByHashManager (Block := Block)) :
  cycleState Block_Hash unrepresentable target wl0 m ->
  NoDup target ->
  (missing m = [] ↔ isDone m = true).
Proof.
  intros Hm Hnd. destruct (cycleState_inv Block_Hash unrepresentable target wl0 m Hm)
    as (Hh & Hp & Hr & _).
  assert (Hdom : dom (results m) ⊆ (list_to_set target : gset Z)).
  { intros h Hd. apply elem_of_dom in Hd as [r Hlk]. apply elem_of_list_to_set.
    by apply Hr in Hlk as [? _]. }
  assert (Hall : missing m = [] ↔ ∀ h, h ∈ target -> is_Some (results m !! h)).
  { unfold missing. rewrite Hh. split.
    - intros Hnil h Hin. destruct (results m !! h) eqn:E; [done|].
      assert (Hx : h ∈ filter (fun h => results m !! h = None) target)
        by (by apply list_elem_of_filter).
      rewrite Hnil in Hx. by apply elem_of_nil in Hx.
    - intros Hrec. destruct (filter _ target) as [|h tl] eqn:E; [done|].
      assert (Hx : h ∈ filter (fun h => results m !! h = None) target) by (rewrite E; left).
      apply list_elem_of_filter in Hx as [Hn Hin]. destruct (Hrec h Hin) as [? ?]. congruence. }
  rewrite Hall. unfold isDone. rewrite Hh, bool_decide_eq_true.
  rewrite <- size_dom, <- (size_list_to_set (C := gset Z) target) by done. split.
  - intros Hrec. f_equal. apply set_eq. intros h. split; [apply Hdom|].
    intros Hin. apply elem_of_dom, Hrec. by apply elem_of_list_to_set in Hin.
  - intros Hs h Hin.
    assert (Heq : dom (results m) = (list_to_set target : gset Z)).
    { apply set_subseteq_size_eq; [done|lia]. }
    apply elem_of_dom. rewrite Heq. by apply elem_of_list_to_set.
Qed.

Section WithServing.

Variable target : list Z.
Variable wl0 : list string.
Hypothesis Hnd : NoDup target.
Hypothesis Hserve : ∀ hs wl (p : P), hs ≠ [] ->
  ∃ blocks st p', GetBlocksByHashes hs wl p = ((blocks, st, None), p') ∧
                  checkGetBlockByHashesResult Block_Hash blocks hs = None.

(** With a target without a hash twice and peers that serve every request,
    a goroutine of [getBlocksByHashes] returns within as many iterations as
    hashes are missing, plus one. *)
Lemma fetchWorker_served : ∀ n fuel (s : fetchState (Block := Block) (P := P)),
  cycleState Block_Hash unrepresentable target wl0 (fmgr s) ->
  (length (missing (fmgr s)) ≤ n)%nat -> (n < fuel)%nat ->
  ∃ s', fetchWorker Block_Hash unrepresentable fuel s = Some s' ∧
        (slen (whitelist (fmgr s)) ≠ 0%nat ->
         isDone (fmgr s') = true ∧ gErr s' = gErr s ∧
         whitelist (fmgr s') = whitelist (fmgr s)).
Proof.
  induction n as [|n IH]; intros fuel s Hm Hmiss Hfuel;
    (destruct fuel as [|fuel]; [lia|]); cbn [fetchWorker].
  - assert (Hd : isDone (fmgr s) = true).
    { apply (cycle_missing_isDone target wl0); [done|done|].
      destruct (missing (fmgr s)); [done|cbn in Hmiss; lia]. }
    rewrite Hd. eexists. split; [done|]. intros _. done.
  - destruct (isDone (fmgr s)) eqn:Hd; [eexists; split; [done|]; intros _; done|].
    destruct (decide (slen (whitelist (fmgr s)) = 0%nat)) as [Hz|Hnz].
    { unfold getNextHashes.
      pose proof (numBlocksPerRequest_bounds unrepresentable (fmgr s)) as Hb.
      unfold numBlocksByHashesLowerCap in Hb.
      destruct (numBlocksPerRequest unrepresentable (fmgr s) <? 0) eqn:E; [lia|].
      rewrite Hz. cbn. eexists. split; [done|]. done. }
    rewrite (getNextHashes_selects unrepresentable (fmgr s) Hnz).
    destruct (cycle_eligible_missing target wl0 (fmgr s) Hm) as (Hh & Hel & _).
    rewrite Hel.
    pose proof (numBlocksPerRequest_bounds unrepresentable (fmgr s)) as Hb.
    unfold numBlocksByHashesLowerCap in Hb.
    set (B := Z.to_nat (numBlocksPerRequest unrepresentable (fmgr s))).
    assert (HB : (0 < B)%nat) by (unfold B; lia).
    destruct (missing (fmgr s)) as [|h0 tl] eqn:Emiss.
    { exfalso. apply (cycle_missing_isDone target wl0 (fmgr s) Hm Hnd) in Emiss. congruence. }
    set (batch := take B (h0 :: tl)).
    assert (Hbne : batch ≠ []) by (unfold batch; destruct B; [lia|done]).
    assert (Hlen0 : (len batch =? 0) = false).
    { apply Z.eqb_neq. unfold len. destruct batch; [done|cbn; lia]. }
    rewrite Hlen0.
    destruct (Hserve batch (elems (whitelist (fmgr s))) (fproto s) Hbne)
      as (blocks & st & p1 & Hget & Hcheck).
    unfold doGetBlocksByHashesRequest. rewrite Hget, Hcheck.
    pose proof Hcheck as Hcheck'. apply check_accepts in Hcheck' as [Hlen _].
    destruct (addResult_from_effect blocks st batch 0 (fmgr s) ltac:(lia))
      as (m2 & Hadd & Hh2 & Hw2 & Hp2 & Hout & Hin).
    unfold GetBlocksByHashManager.addResult. rewrite Hadd.
    assert (Hm2 : cycleState Block_Hash unrepresentable target wl0 m2).
    { apply (cs_addResult _ _ _ _ (fmgr s) (fmgr s) batch (elems (whitelist (fmgr s)))
               blocks st m2); try done.
      rewrite (getNextHashes_selects unrepresentable (fmgr s) Hnz), Hel. done. }
    destruct (IH fuel (mkFetchState m2 p1 (gErr s) (cancelled s))) as (s' & Hw & Hres).
    + done.
    + cbn [fmgr]. assert (Hlt : (length (missing m2) < length (missing (fmgr s)))%nat).
      { unfold missing. rewrite Hh2.
        apply (filter_length_lt _ _ _ h0).
        - intros h Hn. destruct (decide (h ∈ batch)) as [Hb'|Hb'].
          + destruct (Hin h Hb') as (? & ? & _ & _ & Hr). congruence.
          + by rewrite <- (Hout h Hb').
        - assert (Hx : h0 ∈ missing (fmgr s)) by (rewrite Emiss; left).
          unfold missing in Hx. by apply list_elem_of_filter in Hx as [_ ?].
        - assert (Hx : h0 ∈ missing (fmgr s)) by (rewrite Emiss; left).
          unfold missing in Hx. by apply list_elem_of_filter in Hx as [? _].
        - assert (Hb' : h0 ∈ batch) by (unfold batch; destruct B; [lia|left]).
          destruct (Hin h0 Hb') as (? & ? & _ & _ & Hr). congruence. }
      rewrite Emiss in Hlt. cbn [length] in *. lia.
    + lia.
    + exists s'. split; [done|]. intros _. cbn [fmgr gErr] in Hres.
      rewrite Hw2 in Hres. by apply Hres.
Qed.

Lemma repeatWorker_served fuel : ∀ n (s : fetchState (Block := Block) (P := P)),
  cycleState Block_Hash unrepresentable target wl0 (fmgr s) ->
  (length target < fuel)%nat ->
  ∃ s', repeatWorker n (fetchWorker Block_Hash unrepresentable fuel) s = Some s' ∧
        (slen (whitelist (fmgr s)) ≠ 0%nat -> (0 < n)%nat ->
         isDone (fmgr s') = true ∧ gErr s' = gErr s).
Proof.
  induction n as [|n IH]; intros s Hm Hfuel; cbn [repeatWorker].
  - eexists. split; [done|]. lia.
  - destruct (cycle_eligible_missing target wl0 (fmgr s) Hm) as (_ & _ & Hle).
    destruct (fetchWorker_served (length target) fuel s Hm Hle Hfuel) as (s1 & Hw & Hres).
    rewrite Hw.
    pose proof (fetchWorker_cycleState target wl0 fuel s s1 Hm Hw)
      as (Hm1 & _ & _).
    destruct (IH s1 Hm1 Hfuel) as (s' & Hr & Hres'). exists s'. split; [done|].
    intros Hnz _. destruct (Hres Hnz) as (Hd1 & Hg1 & Hw1).
    destruct n as [|n].
    + cbn [repeatWorker] in Hr. injection Hr as <-. done.
    + rewrite Hw1 in Hres'. destruct (Hres' Hnz ltac:(lia)) as [Hd' Hg']. split; [done|].
      congruence.
Qed.

End WithServing.
(** X24. What [getBlocksByHashes], its goroutines run one after the other,
    returns, and when it does.  Whenever it returns, it returns either blocks
    without error, which then have the hashes of the target in the order of
    the target, or no blocks with the error "empty white list", "SANITY: nil
    block found" or that of the context; and the array of the caller's
    whitelist keeps its length and holds streams of that whitelist only.  It
    does return, each goroutine within as many iterations as the target has
    hashes and one more, when the target has no hash twice and the peers
    serve every request with blocks that pass the check; with a whitelist
    that is not empty, a goroutine at least and no error of the context, it
    then returns the blocks. *)
Theorem getBlocksByHashes_sequential_result (fuel : nat) (hs : list Z)
    (whitelist : list string) (p : P) :
  (∀ blocks err arr p',
     getBlocksByHashes_sequential Block_Hash unrepresentable Concurrency fuel hs whitelist p =
       Some ((blocks, err), arr, p') ->
     length arr = length whitelist ∧ (∀ x, x ∈ arr -> x ∈ whitelist) ∧
     ((∃ l, blocks = Some l ∧ err = None ∧ Block_Hash <$> l = hs) ∨
      (blocks = None ∧
       (err = Some (errors_New "empty white list") ∨ err = Some sanityNilBlock ∨
        (err = ctx_Err p' ∧ err ≠ None))))) ∧
  (NoDup hs ->
   (∀ hs' wl (q : P), hs' ≠ [] ->
      ∃ blocks st q', GetBlocksByHashes hs' wl q = ((blocks, st, None), q') ∧
                      checkGetBlockByHashesResult Block_Hash blocks hs' = None) ->
   (length hs < fuel)%nat ->
   ∃ blocks err arr p',
     getBlocksByHashes_sequential Block_Hash unrepresentable Concurrency fuel hs whitelist p =
       Some ((blocks, err), arr, p') ∧
     (whitelist ≠ [] -> (0 < Concurrency)%nat -> ctx_Err p' = None ->
      ∃ l, blocks = Some l ∧ err = None ∧ Block_Hash <$> l = hs)).
Proof.
  split.
  - intros blocks err arr p'. unfold getBlocksByHashes_sequential.
    destruct (repeatWorker Concurrency (fetchWorker Block_Hash unrepresentable fuel) _)
      as [s|] eqn:Hrun; [|done].
    apply (repeatWorker_cycleState hs whitelist) in Hrun as [Hm Hg]; [|apply cs_new].
    cbn [gErr] in Hg.
    destruct (cycleState_inv Block_Hash unrepresentable hs whitelist (fmgr s) Hm)
      as (_ & _ & _ & _ & Hlen & _ & Harr).
    destruct (gErr s) as [e|] eqn:Hge.
    { intros [= <- <- <- <-]. split; [done|]. split; [done|]. right. split; [done|].
      left. destruct Hg as [Hg|Hg]; [done|]. by rewrite Hg. }
    destruct (ctx_Err (fproto s)) as [e|] eqn:Hctx.
    { intros [= <- <- <- <-]. split; [done|]. split; [done|]. right. split; [done|].
      right. right. by rewrite Hctx. }
    intros [= Hres <- <-]. split; [done|]. split; [done|].
    destruct (isDone_results_aligned Block_Hash unrepresentable hs whitelist (fmgr s) Hm
                blocks err Hres) as [(l & -> & -> & Hal)|[-> ->]].
    + left. by exists l.
    + right. split; [done|]. right. by left.
  - intros Hnd Hserve Hfuel. unfold getBlocksByHashes_sequential.
    set (s0 := mkFetchState (newGetBlocksByHashManager hs (slice_of whitelist)) p None false).
    assert (Hm0 : cycleState Block_Hash unrepresentable hs whitelist (fmgr s0))
      by apply cs_new.
    destruct (repeatWorker_served hs whitelist Hnd Hserve fuel Concurrency s0 Hm0 Hfuel)
      as (s & Hrun & Hdone).
    rewrite Hrun.
    pose proof (repeatWorker_cycleState hs whitelist fuel Concurrency s0 s Hm0 Hrun)
      as [Hm _].
    destruct (gErr s) as [e|] eqn:Hge.
    { eexists _, _, _, _. split; [done|]. intros Hwl Hc _. exfalso.
      destruct Hdone as [_ Hg]; [unfold s0; cbn; by destruct whitelist|done|].
      unfold s0 in Hg. cbn [gErr] in Hg. congruence. }
    destruct (ctx_Err (fproto s)) as [e|] eqn:Hctx.
    { eexists _, _, _, _. split; [done|]. intros _ _ Hc. congruence. }
    destruct (getResults (fmgr s)) as [bs e] eqn:Hres.
    eexists _, _, _, _. split; [done|]. intros Hwl Hc _.
    destruct Hdone as [Hd _]; [unfold s0; cbn; by destruct whitelist|done|].
    destruct (isDone_results_aligned Block_Hash unrepresentable hs whitelist (fmgr s) Hm
                bs e Hres) as [(l & -> & -> & Hal)|[-> ->]]; [by exists l|].
    exfalso. apply (cycle_missing_isDone hs whitelist (fmgr s) Hm Hnd) in Hd.
    destruct (cycleState_inv Block_Hash unrepresentable hs whitelist (fmgr s) Hm)
      as (Hh & _ & Hr & _).
    unfold getResults in Hres.
    destruct (getResults_from_spec (fmgr s) (hashes (fmgr s)) [])
      as [[_ (h & Hin & Hn)]|(bs' & Heq & _)]; [|congruence].
    unfold block_of in Hn. destruct (results (fmgr s) !! h) as [r|] eqn:Hlk.
    + destruct (Hr h r Hlk) as (_ & b & Hb & _). congruence.
    + assert (Hx : h ∈ missing (fmgr s)) by (unfold missing; by apply list_elem_of_filter).
      rewrite Hd in Hx. by apply elem_of_nil in Hx.
Qed.

(** X27. A cycle that returns without error, its goroutines run one after
    the other in both phases.  Either the hash chain was empty: the count is
    0 and chain and status are untouched.  Or the blocks handed to
    [verifyAndInsertBlocks] have the hashes of the hash chain, in its order;
    the count returned is the length of the hash chain, whatever count the
    insertion reported; and the downloader is marked as not syncing. *)
Theorem doShortRangeSync_sequential_success (fuel : nat) (d d' : Downloader P C) (n : Z) :
  doShortRangeSync_sequential Block_Hash unrepresentable rangeMap rangeSet Concurrency fuel d =
    Some ((n, None), d') ->
  (n = 0 ∧ chain d' = chain d ∧ dstatus d' = dstatus d ∧
   ∃ wl, getHashChain_sequential rangeMap rangeSet Concurrency
           (CurrentBlock_NumberU64 (chain d)) (proto d) = Some (([], wl, None), proto d')) ∨
  (∃ hashChain wl p1 blocks k,
     getHashChain_sequential rangeMap rangeSet Concurrency
       (CurrentBlock_NumberU64 (chain d)) (proto d) = Some ((hashChain, wl, None), p1) ∧
     hashChain ≠ [] ∧
     Block_Hash <$> blocks = hashChain ∧
     verifyAndInsertBlocks blocks (chain d) = ((k, None), chain d') ∧
     n = len hashChain ∧
     isSyncing (dstatus d') = false).
Proof.
  unfold doShortRangeSync_sequential, doShortRangeSync.
  destruct (checkPrerequisites Concurrency (proto d)) as [e|]; [done|].
  destruct (getHashChain_sequential _ _ _ _ _) as [[[[hc wl] [e|]] p1]|]; [done| |done].
  destruct (len hc =? 0) eqn:El.
  { intros [= <- <-]. left. apply Z.eqb_eq in El. unfold len in El.
    destruct hc; [|cbn [length] in El; lia]. split; [done|]. split; [done|].
    split; [done|]. by exists wl. }
  assert (Hne : hc ≠ []) by (intros ->; done).
  destruct (getBlocksByHashes_sequential _ _ _ _ _ _ _) as [[[[blocks [e|]] wl'] p2]|] eqn:Hf;
    [done| |done].
  assert (Hal : ∃ l, blocks = Some l ∧ Block_Hash <$> l = hc).
  { unfold getBlocksByHashes_sequential in Hf.
    destruct (repeatWorker Concurrency (fetchWorker Block_Hash unrepresentable fuel) _)
      as [s|] eqn:Hrun; [|done].
    apply (repeatWorker_cycleState hc wl) in Hrun as [Hm _]; [|apply cs_new].
    destruct (gErr s); [done|]. destruct (ctx_Err (fproto s)); [done|].
    injection Hf as Hres _ _.
    destruct (isDone_results_aligned Block_Hash unrepresentable hc wl (fmgr s) Hm
                blocks None Hres) as [(l & -> & _ & Hl)|[_ ?]]; [|done].
    by exists l. }
  destruct Hal as (l & -> & Hl). cbv beta iota zeta. cbn [default from_option]. unfold id.
  destruct (verifyAndInsertBlocks l (chain d)) as [[k [e|]] c1] eqn:Hins; [done|].
  intros [= <- <-]. right. exists hc, wl, p1, l, k.
  split; [done|]. split; [done|]. split; [done|]. split; [done|]. split; [|done].
  unfold len. by rewrite <- Hl, length_fmap.
Qed.

Variable getHashChain : Z -> P -> option ((list Z * list string * option error) * P).
Variable getBlocksByHashes :
  list Z -> list string -> P ->
  option ((option (list Block) * option error) * list string * P).

(** X25. The returns of [doShortRangeSync], under any schedule of its two
    phases.  An error is wrapped as "prerequisite", "getHashChain",
    "getBlocksByHashes" or "InsertChain"; with the first three the count is 0
    and the chain untouched, with the last one the count and the cause are
    those of [verifyAndInsertBlocks].  Without error the cycle either found
    nothing to sync, or inserted and returns the number of blocks it
    fetched. *)
Theorem doShortRangeSync_errors (d d' : Downloader P C) (n : Z) (err : option error) :
  doShortRangeSync Concurrency getHashChain getBlocksByHashes d = Some ((n, err), d') ->
  match err with
  | Some e =>
      ∃ cause msg, e = errors_Wrap cause msg ∧
        ((msg = "prerequisite"%string ∧ n = 0 ∧ d' = d) ∨
         (msg = "getHashChain"%string ∧ n = 0 ∧ chain d' = chain d ∧
          dstatus d' = dstatus d) ∨
         (msg = "getBlocksByHashes"%string ∧ n = 0 ∧ chain d' = chain d) ∨
         (msg = "InsertChain"%string ∧
          ∃ blocks, verifyAndInsertBlocks blocks (chain d) = ((n, Some cause), chain d')))
  | None =>
      (n = 0 ∧ chain d' = chain d ∧ dstatus d' = dstatus d) ∨
      (∃ blocks k, verifyAndInsertBlocks blocks (chain d) = ((k, None), chain d') ∧
                   n = len blocks)
  end.
Proof.
  unfold doShortRangeSync.
  destruct (checkPrerequisites Concurrency (proto d)) as [e|].
  { intros [= <- <- <-]. eexists _, _. split; [done|]. left. done. }
  destruct (getHashChain _ _) as [[[[hc wl] [e|]] p1]|]; [| |done].
  { intros [= <- <- <-]. eexists _, _. split; [done|]. right. left. done. }
  destruct (len hc =? 0).
  { intros [= <- <- <-]. left. done. }
  destruct (getBlocksByHashes hc wl p1) as [[[[blocks [e|]] wl'] p2]|]; [| |done].
  { intros [= <- <- <-]. eexists _, _. split; [done|]. right. right. left. done. }
  cbv beta iota zeta.
  destruct (verifyAndInsertBlocks (default [] blocks) (chain d)) as [[k [e|]] c1] eqn:Hins.
  - intros [= <- <- <-]. eexists _, _. split; [done|]. right. right. right.
    split; [done|]. by exists (default [] blocks).
  - intros [= <- <- <-]. right. by exists (default [] blocks), k.
Qed.

(** X26. The status after [doShortRangeSync], under any schedule of its two
    phases.  Either it is as before the cycle; or the hash chain was not
    empty, the cycle marked the sync as in progress and announced as target
    the current height plus the length of the chain minus one, and the status
    is what the deferred [finishSyncing] leaves of the status so published:
    the downloader is then marked as not syncing. *)
Theorem doShortRangeSync_status (d d' : Downloader P C) (n : Z) (err : option error) :
  doShortRangeSync Concurrency getHashChain getBlocksByHashes d = Some ((n, err), d') ->
  dstatus d' = dstatus d ∨
  (∃ hashChain whitelist p1 published,
     getHashChain (CurrentBlock_NumberU64 (chain d)) (proto d) =
       Some ((hashChain, whitelist, None), p1) ∧
     hashChain ≠ [] ∧
     published =
       setTargetBN (uint64_wrap (CurrentBlock_NumberU64 (chain d) + len hashChain - 1))
                   (startSyncing (dstatus d)) ∧
     isSyncing published = true ∧
     targetBN published =
       uint64_wrap (CurrentBlock_NumberU64 (chain d) + len hashChain - 1) ∧
     dstatus d' = finishSyncing published ∧
     isSyncing (dstatus d') = false).
Proof.
  unfold doShortRangeSync.
  destruct (checkPrerequisites Concurrency (proto d)) as [e|].
  { intros [= <- <- <-]. by left. }
  destruct (getHashChain _ _) as [[[[hc wl] [e|]] p1]|]; [| |done].
  { intros [= <- <- <-]. by left. }
  destruct (len hc =? 0) eqn:El.
  { intros [= <- <- <-]. by left. }
  assert (Hne : hc ≠ []) by (intros ->; done).
  destruct (getBlocksByHashes hc wl p1) as [[[[blocks [e|]] wl'] p2]|]; [| |done].
  { intros [= <- <- <-]. right. by eexists _, _, _, _. }
  cbv beta iota zeta.
  destruct (verifyAndInsertBlocks (default [] blocks) (chain d)) as [[k [e|]] c1] eqn:Hins.
  - intros [= <- <- <-]. right. by eexists _, _, _, _.
  - intros [= <- <- <-]. right. by eexists _, _, _, _.
Qed.
End PhaseFacts.

(** ** The further properties at sample inputs *)

Section FurtherWitnesses.

Import downloader downloader.BlockHashResults downloader.GetBlocksByHashManager.
Import samples notions.

Lemma bytesToInt_intToBytes_wrap_witness :
  sttypes.bytesToInt (sttypes.intToBytes (2 ^ 32 + 5) ++ payload) = Some 5 ∧
  sttypes.bytesToInt [Byte.x68] = None.
Proof.
  destruct (bytesToInt_intToBytes_wrap (2 ^ 32 + 5) payload) as (H1 & _ & H3).
  split; [exact H1|]. apply H3. simpl. lia.
Defined.

Lemma ReadBytes_short_input_witness :
  ∃ st',
    sttypes.ReadBytes
      (sttypes.mkBaseStream [] [sttypes.intToBytes 3; [Byte.x68]; [Byte.x69]] [] []) =
      (Some (Some (payload ++ [Byte.x00]),
             Some (errors_Wrap io_ErrUnexpectedEOF "read content")), st') ∧
    pending st' = [].
Proof.
  destruct (proj2 (ReadBytes_short_input
                     (sttypes.mkBaseStream [] [sttypes.intToBytes 3; [Byte.x68]; [Byte.x69]]
                        [] []))
              3 payload ltac:(vm_compute; split; discriminate) ltac:(simpl; lia)
              ltac:(simpl; lia) eq_refl) as (st' & Heq & Hp & _).
  exists st'. split; [exact Heq|exact Hp].
Defined.

Lemma ReadBytes_short_header_witness :
  (length (firstDelivery slowHeader) < 4)%nat ∧
  pending slowHeader = frame payload ∧
  ∃ st',
    sttypes.ReadBytes slowHeader = (Some (Some [Byte.x00; Byte.x00], None), st') ∧
    pending st' = [Byte.x00; Byte.x68; Byte.x69].
Proof.
  assert (H1 : sttypes.rd_buf slowHeader ≠ [] ∨ sttypes.raw_in slowHeader ≠ [])
    by (right; discriminate).
  assert (H2 : (length (firstDelivery slowHeader) < 4)%nat) by (simpl; lia).
  split; [exact H2|]. split; [reflexivity|].
  destruct (ReadBytes_short_header slowHeader H1 H2) as (_ & st' & Heq & Hp & _).
  exists st'. split; [exact Heq|exact Hp].
Defined.

Lemma frame_uniquely_decodable_witness :
  len payload <= sttypes.maxMsgBytes ∧
  frame payload ++ [Byte.x01] = frame payload ++ [Byte.x01] ∧
  payload = payload ∧ [Byte.x01] = [Byte.x01].
Proof.
  assert (H : len payload <= sttypes.maxMsgBytes) by (vm_compute; discriminate).
  split; [exact H|]. split; [reflexivity|].
  exact (frame_uniquely_decodable payload payload [Byte.x01] [Byte.x01] H H eq_refl).
Defined.

Lemma two_messages_in_order_witness :
  len payload <= sttypes.maxMsgBytes ∧
  sttypes.WriteBytes payload (sttypes.WriteBytes payload idle).2 =
    (None, sttypes.mkBaseStream [] [] [] (frame payload ++ frame payload)) ∧
  sttypes.ReadBytes (sttypes.mkBaseStream [] [frame payload; frame payload] [] []) =
    (Some (Some payload, None), sttypes.mkBaseStream [] [frame payload] [] []).
Proof.
  assert (H : len payload <= sttypes.maxMsgBytes) by (vm_compute; discriminate).
  destruct (two_messages_in_order payload payload idle H H) as (Hw & _ & Hr).
  split; [exact H|]. split; [exact Hw|].
  exact (proj1 (Hr [] [] [])).
Defined.
Lemma majority_wins_witness :
  (size (countedVotes votes2 ∅) < 2 * voteCount votes2 ∅ 11)%nat ∧
  (countHashMaxVote inOrder 0 votes2 ∅).1 = 11.
Proof.
  assert (H1 : enumerates inOrder) by (intros t m; reflexivity).
  assert (H2 : Z.of_nat (size votes2) < 2 ^ 63) by (vm_compute; reflexivity).
  assert (H3 : (size (countedVotes votes2 ∅) < 2 * voteCount votes2 ∅ 11)%nat)
    by (vm_compute; lia).
  split; [exact H3|].
  exact (proj1 (majority_wins inOrder 0 votes2 ∅ 11 H1 H2 H3)).
Defined.

Lemma tally_empty_iff_no_vote_witness :
  (∀ st, votes2 !! st ≠ Some emptyHash) ∧
  ((countHashMaxVote inOrder 0 votes2 ∅).1 = emptyHash ↔ countedVotes votes2 ∅ = ∅).
Proof.
  assert (H1 : enumerates inOrder) by (intros t m; reflexivity).
  assert (H2 : Z.of_nat (size votes2) < 2 ^ 63) by (vm_compute; reflexivity).
  assert (H3 : ∀ st, votes2 !! st ≠ Some emptyHash).
  { assert (Hall : map_Forall (fun _ h => h ≠ emptyHash) votes2)
      by (apply (bool_decide_unpack _); vm_compute; exact I).
    intros st Hst. exact (Hall st _ Hst eq_refl). }
  split; [exact H3|].
  exact (tally_empty_iff_no_vote inOrder 0 votes2 ∅ H1 H2 H3).
Defined.

Lemma whitelist_agrees_on_chain_witness :
  ∃ V, BlockHashResults.results listings !! 1%nat = Some V ∧ V !! "p1"%string = Some 11.
Proof.
  assert (H1 : enumerates inOrder) by (intros t m; reflexivity).
  assert (H2 : enumeratesSet inOrderSet) by (intros s; reflexivity).
  apply (whitelist_agrees_on_chain inOrder inOrderSet listings H1 H2 "p1"%string 1%nat 11).
  - apply (bool_decide_unpack _). vm_compute. exact I.
  - vm_compute. reflexivity.
Defined.

Lemma addResult_records_witness :
  (length (recordedPrefix [10; 0; 12]%Z) ≤ length (BlockHashResults.results listings))%nat ∧
  ∃ r', BlockHashResults.addResult [10; 0; 12] "p9"%string listings = Some r' ∧
        BlockHashResults.results r' !! 1%nat = Some votes2.
Proof.
  assert (H : (length (recordedPrefix [10; 0; 12]%Z) ≤
               length (BlockHashResults.results listings))%nat) by (simpl; lia).
  split; [exact H|].
  destruct (proj1 (addResult_records [10; 0; 12] "p9"%string listings) H)
    as (r' & Hadd & _ & _ & Hlook).
  exists r'. split; [exact Hadd|]. exact (Hlook 1%nat).
Defined.

Lemma removeStreamID_removes_all_witness :
  elems (whitelist (removeStreamID "a"%string
           (newGetBlocksByHashManager (Block := Z) [10] (slice_of ["a"; "b"; "a"]%string)))) =
    ["b"%string].
Proof.
  apply (proj1 (removeStreamID_removes_all "a"%string
           (newGetBlocksByHashManager (Block := Z) [10] (slice_of ["a"; "b"; "a"]%string))
           ltac:(simpl; lia))).
Defined.

Lemma removeStreamID_shared_array_witness :
  ∃ y, last ["a"; "b"]%string = Some y ∧
       whitelist (removeStreamID "a"%string
         (newGetBlocksByHashManager (Block := Z) [10] (slice_of ["a"; "b"]%string))) =
       mkSlice ([] ++ ["b"%string] ++ [y]) 1.
Proof.
  apply (removeStreamID_shared_array "a"%string [] ["b"%string]
           (newGetBlocksByHashManager (Block := Z) [10] (slice_of ["a"; "b"]%string))).
  - reflexivity.
  - apply not_elem_of_nil.
  - intros H. apply list_elem_of_singleton in H. discriminate.
Defined.

Lemma handleResultError_effect_witness :
  ("a"%string ∉ elems (whitelist (handleResultError [10] "a"%string freshManager))) ∧
  pendings (handleResultError [10] "a"%string freshManager) =
    pendings freshManager ∖ list_to_set [10].
Proof.
  destruct (handleResultError_effect [10] "a"%string freshManager)
    as (Hp & _ & _ & _ & Hw).
  split; [|exact Hp]. apply Hw. simpl. lia.
Defined.

Lemma addResult_effect_witness :
  ∃ m', GetBlocksByHashManager.addResult [10] [Some 10] "a"%string freshManager = Some m' ∧
        hashes m' = hashes freshManager.
Proof.
  destruct (proj1 (addResult_effect blockHash [10] [Some 10] "a"%string freshManager)
              ltac:(simpl; lia)) as (m' & Hadd & Hh & _).
  exists m'. split; [exact Hadd|exact Hh].
Defined.

Lemma checkGetBlockByHashesResult_accepts_witness :
  errors_New "unexpected block hash" = errors_New "nil block found" ∨
  errors_New "unexpected block hash" = errors_New "unexpected block hash".
Proof.
  apply (proj2 (proj2 (checkGetBlockByHashesResult_accepts blockHash [Some 10] [11]))
           (errors_New "unexpected block hash")).
  - vm_compute. reflexivity.
  - reflexivity.
Defined.

Lemma getNextHashes_batch_witness :
  ∃ batch,
    getNextHashes float64.amd64_unrepresentable freshManager =
      (Some (batch, elems (whitelist freshManager), None), freshManager) ∧
    (length batch ≤ 10)%nat.
Proof.
  destruct (getNextHashes_batch float64.amd64_unrepresentable freshManager
              ltac:(simpl; lia)) as (batch & Hn & _ & Hl & _).
  exists batch. split; [exact Hn|exact Hl].
Defined.

Lemma servedManager_cycleState :
  cycleState blockHash float64.amd64_unrepresentable [10] ["b"%string] servedManager.
Proof.
  apply (cs_addResult blockHash float64.amd64_unrepresentable [10] ["b"%string]
           (newGetBlocksByHashManager [10] (slice_of ["b"%string]))
           (newGetBlocksByHashManager [10] (slice_of ["b"%string]))
           [10] ["b"%string] [Some 10] "b"%string).
  - apply cs_new.
  - apply cs_new.
  - vm_compute. reflexivity.
  - reflexivity.
  - vm_compute. reflexivity.
Defined.

Lemma cycle_records_validated_blocks_witness :
  hashes servedManager = [10] ∧ pendings servedManager = ∅.
Proof.
  destruct (cycle_records_validated_blocks blockHash float64.amd64_unrepresentable
              [10] ["b"%string] servedManager servedManager_cycleState) as (H1 & H2 & _).
  split; [exact H1|exact H2].
Defined.

Lemma cycle_whitelist_shrinks_witness :
  elems (whitelist servedManager) `sublist_of` ["b"%string].
Proof.
  exact (proj1 (cycle_whitelist_shrinks blockHash float64.amd64_unrepresentable
                  [10] ["b"%string] servedManager servedManager_cycleState)).
Defined.

Lemma isDone_getResults_witness :
  isDone servedManager = true ∧
  ∃ bs, getResults servedManager = (Some bs, None) ∧ blockHash <$> bs = [10].
Proof.
  assert (H : isDone servedManager = true) by (vm_compute; reflexivity).
  split; [exact H|].
  exact (proj2 (proj1 (isDone_getResults blockHash float64.amd64_unrepresentable
                         [10] ["b"%string] servedManager servedManager_cycleState) H)).
Defined.

Lemma cycle_hands_out_work_witness :
  ∃ batch, (getNextHashes float64.amd64_unrepresentable servedManager).1 =
             Some (batch, elems (whitelist servedManager), None) ∧
           (batch = [] ↔ ∀ h, h ∈ [10] -> is_Some (results servedManager !! h)).
Proof.
  destruct (cycle_hands_out_work blockHash float64.amd64_unrepresentable
              [10] ["b"%string] servedManager servedManager_cycleState
              ltac:(simpl; lia)) as (batch & H1 & H2 & _).
  exists batch. split; [exact H1|exact H2].
Defined.

Lemma numBlocksPerRequest_thresholds_witness :
  len (hashes freshManager) < 2 ^ 53 ∧
  0 < Z.of_nat (slen (whitelist freshManager)) < 2 ^ 53 ∧
  (numBlocksPerRequest float64.amd64_unrepresentable freshManager =
     numBlocksByHashesLowerCap ↔
   len (hashes freshManager) <= 6 * Z.of_nat (slen (whitelist freshManager))).
Proof.
  assert (H1 : len (hashes freshManager) < 2 ^ 53) by (vm_compute; reflexivity).
  assert (H2 : 0 < Z.of_nat (slen (whitelist freshManager)) < 2 ^ 53)
    by (vm_compute; split; reflexivity).
  split; [exact H1|]. split; [exact H2|].
  exact (proj1 (numBlocksPerRequest_thresholds float64.amd64_unrepresentable
                  freshManager H1 H2)).
Defined.

Lemma doGetBlocksByHashesRequest_outcomes_witness :
  (Forall2 (fun ob h => ∃ b, ob = Some b ∧ blockHash b = h) [Some 10] [10] ∧
   doGetBlocksByHashesRequest blockHash [10] ["a"%string]
       (mkScriptedPeers ["a"%string] [] [ ([Some 10], "a"%string, None) ] []) =
     (([Some 10], "a"%string, None), mkScriptedPeers ["a"%string] [] [] [])) ∨
  (¬ Forall2 (fun ob h => ∃ b, ob = Some b ∧ blockHash b = h) [Some 10] [10] ∧
   ∃ e, doGetBlocksByHashesRequest blockHash [10] ["a"%string]
            (mkScriptedPeers ["a"%string] [] [ ([Some 10], "a"%string, None) ] []) =
          (([], "a"%string, Some e),
           RemoveStream (Block := Hash) "a"%string (mkScriptedPeers ["a"%string] [] [] []))).
Proof.
  apply (doGetBlocksByHashesRequest_outcomes blockHash [10] ["a"%string]
           (mkScriptedPeers ["a"%string] [] [ ([Some 10], "a"%string, None) ] [])
           [Some 10] "a"%string None (mkScriptedPeers ["a"%string] [] [] [])).
  reflexivity.
Defined.

Lemma prepareBlockHashNumbers_window_witness :
  prepareBlockHashNumbers 100 = Some (seqZ 101 20).
Proof.
  apply (proj1 (prepareBlockHashNumbers_window 100 ltac:(vm_compute; split; [discriminate|reflexivity]))).
  vm_compute. reflexivity.
Defined.

Lemma getHashChain_sequential_returns_witness :
  ∃ hashChain wl err p',
    getHashChain_sequential inOrder inOrderSet 2 100 (proto cycleStart) =
      Some ((hashChain, wl, err), p') ∧
    (length hashChain ≤ 20)%nat.
Proof.
  destruct (getHashChain_sequential_returns inOrder inOrderSet 2 100 (proto cycleStart)
              ltac:(lia) ltac:(vm_compute; reflexivity))
    as (hc & wl & err & p' & H1 & H2 & _).
  exists hc, wl, err, p'. split; [exact H1|exact H2].
Defined.

Lemma serving_serves (hs : list Z) (wl : list string) (q : servingPeers) :
  hs ≠ [] ->
  ∃ blocks st q',
    GetBlocksByHashes (Block := Hash) hs wl q = ((blocks, st, None), q') ∧
    checkGetBlockByHashesResult blockHash blocks hs = None.
Proof.
  intros _. eexists _, _, _. split; [reflexivity|].
  apply Forall2_check_accepts. induction hs as [|h hs IH]; constructor; [by exists h|done].
Qed.

Lemma getBlocksByHashes_sequential_result_witness :
  (getBlocksByHashes_sequential blockHash float64.amd64_unrepresentable 2 10 [10]
       ["a"; "b"]%string
       (mkScriptedPeers ["a"; "b"]%string []
          [ ([], "a"%string, Some context_DeadlineExceeded); ([Some 10], "b"%string, None) ] []) =
     Some ((Some [10], None), ["b"; "b"]%string, mkScriptedPeers ["a"; "b"]%string [] [] []) ∧
   length ["b"; "b"]%string = length ["a"; "b"]%string) ∧
  (NoDup [10; 11] ∧
   ∃ blocks err arr p',
     getBlocksByHashes_sequential blockHash float64.amd64_unrepresentable 2 3 [10; 11]
         ["a"%string] (mkServingPeers 0) = Some ((blocks, err), arr, p') ∧
     (["a"%string] ≠ [] -> (0 < 2)%nat -> ctx_Err (Block := Hash) p' = None ->
      ∃ l, blocks = Some l ∧ err = None ∧ blockHash <$> l = [10; 11])).
Proof.
  assert (H : getBlocksByHashes_sequential blockHash float64.amd64_unrepresentable 2 10 [10]
      ["a"; "b"]%string
      (mkScriptedPeers ["a"; "b"]%string []
         [ ([], "a"%string, Some context_DeadlineExceeded); ([Some 10], "b"%string, None) ] []) =
    Some ((Some [10], None), ["b"; "b"]%string, mkScriptedPeers ["a"; "b"]%string [] [] []))
    by (vm_compute; reflexivity).
  assert (Hnd : NoDup [10; 11]) by (apply (bool_decide_unpack _); vm_compute; exact I).
  split.
  - split; [exact H|].
    exact (proj1 (proj1 (getBlocksByHashes_sequential_result blockHash
                           float64.amd64_unrepresentable 2 10 [10] ["a"; "b"]%string _)
                    _ _ _ _ H)).
  - split; [exact Hnd|].
    exact (proj2 (getBlocksByHashes_sequential_result blockHash
                    float64.amd64_unrepresentable 2 3 [10; 11] ["a"%string]
                    (mkServingPeers 0))
             Hnd serving_serves ltac:(simpl; lia)).
Defined.

Lemma cycleStart_run :
  doShortRangeSync 2 (getHashChain_sequential inOrder inOrderSet 2)
      (getBlocksByHashes_sequential blockHash float64.amd64_unrepresentable 2 10)
      cycleStart =
    Some ((0, Some (errors_Wrap (errorString "invalid merkle root") "InsertChain")),
          mkDownloader (mkScriptedPeers ["a"%string] [] [] ["b"; "b"]%string)
                       (mkScriptedChain 100 (0, Some (errorString "invalid merkle root")))
                       (mkStatus false 100)).
Proof. vm_compute. reflexivity. Defined.

Lemma doShortRangeSync_errors_witness :
  ∃ cause msg,
    errors_Wrap (errorString "invalid merkle root") "InsertChain" = errors_Wrap cause msg ∧
    ((msg = "prerequisite"%string ∧ 0 = 0 ∧
      mkDownloader (mkScriptedPeers ["a"%string] [] [] ["b"; "b"]%string)
        (mkScriptedChain 100 (0, Some (errorString "invalid merkle root")))
        (mkStatus false 100) = cycleStart) ∨
     (msg = "getHashChain"%string ∧ 0 = 0 ∧
      mkScriptedChain 100 (0, Some (errorString "invalid merkle root")) = chain cycleStart ∧
      mkStatus false 100 = dstatus cycleStart) ∨
     (msg = "getBlocksByHashes"%string ∧ 0 = 0 ∧
      mkScriptedChain 100 (0, Some (errorString "invalid merkle root")) = chain cycleStart) ∨
     (msg = "InsertChain"%string ∧
      ∃ blocks, verifyAndInsertBlocks (Block := Hash) blocks (chain cycleStart) =
                  ((0, Some cause),
                   mkScriptedChain 100 (0, Some (errorString "invalid merkle root"))))).
Proof.
  exact (doShortRangeSync_errors _ _ _ _ _ _ _ cycleStart_run).
Defined.

Lemma doShortRangeSync_status_witness :
  mkStatus false 100 = dstatus cycleStart ∨
  (∃ hashChain whitelist p1 published,
     getHashChain_sequential inOrder inOrderSet 2
         (CurrentBlock_NumberU64 (chain cycleStart)) (proto cycleStart) =
       Some ((hashChain, whitelist, None), p1) ∧
     hashChain ≠ [] ∧
     published =
       setTargetBN (uint64_wrap (CurrentBlock_NumberU64 (chain cycleStart) + len hashChain - 1))
                   (startSyncing (dstatus cycleStart)) ∧
     isSyncing published = true ∧
     targetBN published =
       uint64_wrap (CurrentBlock_NumberU64 (chain cycleStart) + len hashChain - 1) ∧
     mkStatus false 100 = finishSyncing published ∧
     isSyncing (mkStatus false 100) = false).
Proof.
  exact (doShortRangeSync_status _ _ _ _ _ _ _ cycleStart_run).
Defined.

Lemma doShortRangeSync_sequential_success_witness :
  doShortRangeSync_sequential blockHash float64.amd64_unrepresentable inOrder inOrderSet 2 10
      (mkDownloader (proto cycleServed) (mkScriptedChain 100 (1, None)) (mkStatus false 0)) =
    Some ((1, None),
          mkDownloader (mkScriptedPeers ["a"; "b"]%string [] [] [])
                       (mkScriptedChain 101 (1, None)) (mkStatus false 100)) ∧
  ((1 = 0 ∧
    mkScriptedChain 101 (1, None) = mkScriptedChain 100 (1, None) ∧
    mkStatus false 100 = mkStatus false 0 ∧
    ∃ wl, getHashChain_sequential inOrder inOrderSet 2 100 (proto cycleServed) =
            Some (([], wl, None), mkScriptedPeers ["a"; "b"]%string [] [] [])) ∨
   (∃ hashChain wl p1 blocks k,
      getHashChain_sequential inOrder inOrderSet 2 100 (proto cycleServed) =
        Some ((hashChain, wl, None), p1) ∧
      hashChain ≠ [] ∧
      blockHash <$> blocks = hashChain ∧
      verifyAndInsertBlocks (Block := Hash) blocks (mkScriptedChain 100 (1, None)) =
        ((k, None), mkScriptedChain 101 (1, None)) ∧
      1 = len hashChain ∧
      isSyncing (mkStatus false 100) = false)).
Proof.
  assert (H : doShortRangeSync_sequential blockHash float64.amd64_unrepresentable
                inOrder inOrderSet 2 10
                (mkDownloader (proto cycleServed) (mkScriptedChain 100 (1, None))
                   (mkStatus false 0)) =
              Some ((1, None),
                    mkDownloader (mkScriptedPeers ["a"; "b"]%string [] [] [])
                       (mkScriptedChain 101 (1, None)) (mkStatus false 100)))
    by (vm_compute; reflexivity).
  split; [exact H|].
  exact (doShortRangeSync_sequential_success _ _ _ _ _ _ _ _ _ H).
Defined.

End FurtherWitnesses.
